(** * RAG index builders of docusaurus-plugin-aws-nova-assistant

    A shallow embedding of [src/scripts/build-rag-index.js] (keyword mode)
    and [src/scripts/build-rag-index-embeddings.js] (embedding mode):
    frontmatter parsing, Markdown cleaning, sentence chunking, keyword
    extraction, chunk identifiers and index assembly.

    JavaScript strings are modelled as lists of code units, restricted to
    the code units 0..255 ([ascii]); [length] is the JavaScript [.length]. *)

From Stdlib Require Import List Bool Arith Lia ZArith NArith.
From Stdlib Require Import Ascii.
From Stdlib Require String.
Import String.StringSyntax.
From Stdlib Require Import Permutation Sorted.
From Stdlib Require DecimalString.
Import ListNotations.

Local Open Scope list_scope.

(* ================================================================== *)
(** * JavaScript strings *)
(* ================================================================== *)

Definition jsstring := list ascii.

(** String literals: [str "abc"] is the JavaScript string ['abc']. *)
Definition str (s : String.string) : jsstring :=
  String.list_ascii_of_string s.

Arguments str s%_string_scope.

Delimit Scope string_scope with string.

Definition code (c : ascii) : nat := nat_of_ascii c.

Definition chr (n : nat) : ascii := ascii_of_nat n.

Definition inRange (lo hi : nat) (c : ascii) : bool :=
  (lo <=? code c) && (code c <=? hi).

Definition isChar (a c : ascii) : bool := Ascii.eqb a c.

(** [\s] of a regular expression, and the characters [trim] removes:
    TAB, LF, VT, FF, CR, SPACE and NBSP (the other members lie above 255). *)
Definition isSpace (c : ascii) : bool :=
  inRange 9 13 c || (code c =? 32) || (code c =? 160).

(** Line terminators below 256: LF and CR. *)
Definition isLineTerminator (c : ascii) : bool :=
  (code c =? 10) || (code c =? 13).

Definition LF : ascii := chr 10.

(** The double quote character. *)
Definition dquote : ascii := chr 34.

Fixpoint jseqb (a b : jsstring) : bool :=
  match a, b with
  | [], [] => true
  | x :: a', y :: b' => Ascii.eqb x y && jseqb a' b'
  | _, _ => false
  end.

Fixpoint dropWhile {A} (p : A -> bool) (l : list A) : list A :=
  match l with
  | [] => []
  | x :: l' => if p x then dropWhile p l' else l
  end.

(** [String.prototype.trim]. *)
Definition trim (s : jsstring) : jsstring :=
  rev (dropWhile isSpace (rev (dropWhile isSpace s))).

Fixpoint startsWith (s prefix : jsstring) {struct prefix} : bool :=
  match prefix, s with
  | [], _ => true
  | p :: prefix', c :: s' => Ascii.eqb p c && startsWith s' prefix'
  | _ :: _, [] => false
  end.

Definition endsWith (s suffix : jsstring) : bool :=
  startsWith (rev s) (rev suffix).

(** Clamping of a relative index, as [slice] of strings and arrays does. *)
Definition relIndex (len : nat) (i : Z) : nat :=
  if (i <? 0)%Z then Z.to_nat (Z.max (Z.of_nat len + i) 0)
  else Nat.min (Z.to_nat i) len.

(** [x.slice(start, end)] for a string or an array. *)
Definition slice {A} (l : list A) (start stop : Z) : list A :=
  let from := relIndex (length l) start in
  let to := relIndex (length l) stop in
  firstn (to - from) (skipn from l).

(** [x.slice(start)]. *)
Definition sliceFrom {A} (l : list A) (start : Z) : list A :=
  skipn (relIndex (length l) start) l.

(** [s.indexOf(c)] for a one-character needle; [None] stands for -1. *)
Fixpoint indexOf (s : jsstring) (c : ascii) : option nat :=
  match s with
  | [] => None
  | x :: s' => if Ascii.eqb x c then Some 0
               else option_map S (indexOf s' c)
  end.

(** [s.split(c)] for a one-character separator. *)
Fixpoint splitChar_aux (c : ascii) (cur : jsstring) (s : jsstring)
  : list jsstring :=
  match s with
  | [] => [rev cur]
  | x :: s' => if Ascii.eqb x c then rev cur :: splitChar_aux c [] s'
               else splitChar_aux c (x :: cur) s'
  end.

Definition splitChar (s : jsstring) (c : ascii) : list jsstring :=
  splitChar_aux c [] s.

(** [arr.join(sep)]. *)
Fixpoint join (sep : jsstring) (l : list jsstring) : jsstring :=
  match l with
  | [] => []
  | [x] => x
  | x :: l' => x ++ sep ++ join sep l'
  end.

(** [String.prototype.toLowerCase] on the code units 0..255: A-Z and the
    Latin-1 capitals 0xC0-0xDE (without the multiplication sign 0xD7). *)
Definition toLowerChar (c : ascii) : ascii :=
  if inRange 65 90 c then chr (code c + 32)
  else if inRange 192 222 c && negb (code c =? 215) then chr (code c + 32)
  else c.

Definition toLowerCase (s : jsstring) : jsstring := map toLowerChar s.

(** Decimal rendering of a number in a template literal. *)
Definition decimal (n : nat) : jsstring :=
  str (DecimalString.NilZero.string_of_uint (Nat.to_uint n)).

(* ================================================================== *)
(** * Regular expressions *)
(* ================================================================== *)

(** A backtracking matcher in continuation-passing style, with the
    priorities of ECMAScript: alternatives left to right, greedy
    quantifiers longest first, lazy ones shortest first. *)
Module Regex.

Inductive regex : Type :=
| Eps
| Chr (p : ascii -> bool)           (* a character class *)
| Seq (r1 r2 : regex)
| Alt (r1 r2 : regex)
| Star (greedy : bool) (r : regex)  (* r* and r*? *)
| Group (r : regex)                 (* the capturing group $1 *)
| Bol (multiline : bool)            (* ^ *)
| Eol (multiline : bool)            (* $ *)
| LookBehind (p : ascii -> bool).   (* (?<=[...]) on one character *)

(** The input is split at the current position: [before] holds the
    characters already passed, nearest first. *)
Record mstate : Type := MState {
  before : jsstring;
  after : jsstring;
  cap : option jsstring
}.

Definition captured (st0 st1 : mstate) : jsstring :=
  rev (firstn (length (before st1) - length (before st0)) (before st1)).

(** The iterations of a quantifier [r*] or [r*?]; [m1] matches one
    iteration.  An iteration that consumes nothing is rejected, so
    [length (after st)] iterations are enough. *)
Fixpoint starLoop {A : Type}
  (m1 : mstate -> (mstate -> option A) -> option A) (greedy : bool)
  (k : mstate -> option A) (fuel : nat) (st0 : mstate) {struct fuel}
  : option A :=
  match fuel with
  | 0 => k st0
  | S fuel' =>
      let again (_ : unit) :=
        m1 st0 (fun st1 =>
          if length (after st1) <? length (after st0)
          then starLoop m1 greedy k fuel' st1 else None) in
      if greedy then
        match again tt with
        | Some x => Some x
        | None => k st0
        end
      else
        match k st0 with
        | Some x => Some x
        | None => again tt
        end
  end.

Fixpoint rmatch {A : Type} (r : regex) (st : mstate)
  (k : mstate -> option A) {struct r} : option A :=
  match r with
  | Eps => k st
  | Chr p =>
      match after st with
      | c :: rest =>
          if p c then k (MState (c :: before st) rest (cap st)) else None
      | [] => None
      end
  | Seq r1 r2 => rmatch r1 st (fun st1 => rmatch r2 st1 k)
  | Alt r1 r2 =>
      match rmatch r1 st k with
      | Some x => Some x
      | None => rmatch r2 st k
      end
  | Star greedy r1 =>
      starLoop (rmatch r1) greedy k (length (after st)) st
  | Group r1 =>
      rmatch r1 st (fun st1 =>
        k (MState (before st1) (after st1) (Some (captured st st1))))
  | Bol multiline =>
      match before st with
      | [] => k st
      | c :: _ => if multiline && isLineTerminator c then k st else None
      end
  | Eol multiline =>
      match after st with
      | [] => k st
      | c :: _ => if multiline && isLineTerminator c then k st else None
      end
  | LookBehind p =>
      match before st with
      | c :: _ => if p c then k st else None
      | [] => None
      end
  end.

(** One attempt at the position between [bef] and [aft]: the end state of
    the match of highest priority. *)
Definition matchAt (r : regex) (bef aft : jsstring) : option mstate :=
  rmatch r (MState bef aft None) (fun st => Some st).

(** Number of characters a match that started before [aft] consumed. *)
Definition consumed (aft : jsstring) (st : mstate) : nat :=
  length aft - length (after st).

Definition Plus (greedy : bool) (r : regex) : regex :=
  Seq r (Star greedy r).

Definition Opt (r : regex) : regex := Alt r Eps.

Fixpoint Lit (s : jsstring) : regex :=
  match s with
  | [] => Eps
  | c :: s' => Seq (Chr (isChar c)) (Lit s')
  end.

Definition anyChar : ascii -> bool := fun _ => true.       (* [\s\S] *)
Definition dot (c : ascii) : bool := negb (isLineTerminator c).
Definition notChar (a : ascii) (c : ascii) : bool := negb (isChar a c).

(** [s.replace(r, repl)] for a regular expression with the [g] flag; the
    replacement is computed from the capture [$1].  [skip] counts the
    characters of the current match still to pass. *)
Fixpoint replaceAll_aux (r : regex) (repl : option jsstring -> jsstring)
  (bef : jsstring) (skip : nat) (aft : jsstring) : jsstring :=
  match aft with
  | [] =>
      match skip, matchAt r bef [] with
      | 0, Some st => repl (cap st)
      | _, _ => []
      end
  | c :: rest =>
      match skip with
      | S skip' => replaceAll_aux r repl (c :: bef) skip' rest
      | 0 =>
          match matchAt r bef aft with
          | Some st =>
              match consumed aft st with
              | 0 => repl (cap st) ++ c :: replaceAll_aux r repl (c :: bef) 0 rest
              | S n => repl (cap st) ++ replaceAll_aux r repl (c :: bef) n rest
              end
          | None => c :: replaceAll_aux r repl (c :: bef) 0 rest
          end
      end
  end.

Definition replaceAll (r : regex) (repl : option jsstring -> jsstring)
  (s : jsstring) : jsstring :=
  replaceAll_aux r repl [] 0 s.

(** The first match of [r] in the input, scanning left to right:
    the index where it starts and its end state. *)
Fixpoint search_aux (r : regex) (bef : jsstring) (aft : jsstring)
  : option (nat * mstate) :=
  match matchAt r bef aft with
  | Some st => Some (length bef, st)
  | None =>
      match aft with
      | [] => None
      | c :: rest => search_aux r (c :: bef) rest
      end
  end.

Definition search (r : regex) (s : jsstring) : option (nat * mstate) :=
  search_aux r [] s.

(** [r.test(s)]. *)
Definition test (r : regex) (s : jsstring) : bool :=
  match search r s with Some _ => true | None => false end.

(** [s.replace(r, repl)] without the [g] flag: the first match only. *)
Definition replaceFirst (r : regex) (repl : option jsstring -> jsstring)
  (s : jsstring) : jsstring :=
  match search r s with
  | Some (i, st) => firstn i s ++ repl (cap st) ++ after st
  | None => s
  end.

(** [s.split(r)] for a regular expression without capturing groups.
    [cur] is the piece being read, most recent character first. *)
Fixpoint split_aux (r : regex) (bef : jsstring) (cur : jsstring)
  (skip : nat) (aft : jsstring) : list jsstring :=
  match aft with
  | [] => [rev cur]
  | c :: rest =>
      match skip with
      | S skip' => split_aux r (c :: bef) cur skip' rest
      | 0 =>
          match matchAt r bef aft with
          | Some st =>
              match consumed aft st, cur with
              | 0, [] => split_aux r (c :: bef) [c] 0 rest
              | 0, _ :: _ => rev cur :: split_aux r (c :: bef) [c] 0 rest
              | S n, _ => rev cur :: split_aux r (c :: bef) [] n rest
              end
          | None => split_aux r (c :: bef) (c :: cur) 0 rest
          end
      end
  end.

Definition split (r : regex) (s : jsstring) : list jsstring :=
  match s with
  | [] => match matchAt r [] [] with Some _ => [] | None => [[]] end
  | _ => split_aux r [] [] 0 s
  end.

End Regex.

Import Regex.

(* ================================================================== *)
(** * MD5, as [crypto.createHash('md5')] computes it *)
(* ================================================================== *)

Module MD5.

Local Open Scope N_scope.

Definition mask32 : N := 4294967295.

Definition add32 (a b : N) : N := N.land (a + b) mask32.

Definition not32 (a : N) : N := N.lxor (N.land a mask32) mask32.

Definition rotl32 (x s : N) : N :=
  N.land (N.lor (N.shiftl x s) (N.shiftr x (32 - s))) mask32.

(** The sine table: [K i = floor (2^32 * |sin (i + 1)|)]. *)
Definition K : list N :=
  [
    3614090360; 3905402710; 606105819; 3250441966;
    4118548399; 1200080426; 2821735955; 4249261313;
    1770035416; 2336552879; 4294925233; 2304563134;
    1804603682; 4254626195; 2792965006; 1236535329;
    4129170786; 3225465664; 643717713; 3921069994;
    3593408605; 38016083; 3634488961; 3889429448;
    568446438; 3275163606; 4107603335; 1163531501;
    2850285829; 4243563512; 1735328473; 2368359562;
    4294588738; 2272392833; 1839030562; 4259657740;
    2763975236; 1272893353; 4139469664; 3200236656;
    681279174; 3936430074; 3572445317; 76029189;
    3654602809; 3873151461; 530742520; 3299628645;
    4096336452; 1126891415; 2878612391; 4237533241;
    1700485571; 2399980690; 4293915773; 2240044497;
    1873313359; 4264355552; 2734768916; 1309151649;
    4149444226; 3174756917; 718787259; 3951481745
  ].

(** Rotation amounts of the four rounds. *)
Definition S : list N :=
  [ 7; 12; 17; 22; 7; 12; 17; 22; 7; 12; 17; 22; 7; 12; 17; 22;
    5; 9; 14; 20; 5; 9; 14; 20; 5; 9; 14; 20; 5; 9; 14; 20;
    4; 11; 16; 23; 4; 11; 16; 23; 4; 11; 16; 23; 4; 11; 16; 23;
    6; 10; 15; 21; 6; 10; 15; 21; 6; 10; 15; 21; 6; 10; 15; 21 ].

Record digest : Type := Digest { dA : N; dB : N; dC : N; dD : N }.

Definition init : digest :=
  Digest 1732584193 4023233417 2562383102 271733878.

(** UTF-8 bytes of a string whose code units are below 256. *)
Definition utf8 (s : jsstring) : list N :=
  flat_map (fun c =>
    let n := N_of_ascii c in
    if n <? 128 then [n] else [192 + n / 64; 128 + n mod 64]) s.

(** Little-endian bytes of a number. *)
Fixpoint leBytes (count : nat) (x : N) : list N :=
  match count with
  | O => []
  | Datatypes.S count' => N.land x 255 :: leBytes count' (N.shiftr x 8)
  end.

Fixpoint leWord (bytes : list N) : N :=
  match bytes with
  | [] => 0
  | b :: rest => b + 256 * leWord rest
  end.

Definition padding (len : nat) : list N :=
  let zeros := ((64 + 55 - len mod 64) mod 64)%nat in
  128 :: repeat 0 zeros ++ leBytes 8 (8 * N.of_nat len).

Definition pad (msg : list N) : list N :=
  msg ++ padding (length msg).

Fixpoint words (count : nat) (block : list N) : list N :=
  match count with
  | O => []
  | Datatypes.S count' => leWord (firstn 4 block) :: words count' (skipn 4 block)
  end.

(** One of the 64 operations of a block. *)
Definition step (M : list N) (st : digest) (i : nat) : digest :=
  let '(Digest a b c d) := st in
  let '(f, g) :=
    match Nat.div i 16 with
    | 0%nat => (N.lor (N.land b c) (N.land (not32 b) d), i)
    | 1%nat => (N.lor (N.land d b) (N.land (not32 d) c),
                (5 * i + 1) mod 16)%nat
    | 2%nat => (N.lxor b (N.lxor c d), (3 * i + 5) mod 16)%nat
    | _ => (N.lxor c (N.lor b (not32 d)), (7 * i) mod 16)%nat
    end in
  let f' := add32 (add32 (add32 f a) (nth i K 0)) (nth g M 0) in
  Digest d (add32 b (rotl32 f' (nth i S 0))) b c.

Definition compress (st : digest) (block : list N) : digest :=
  let M := words 16 block in
  let '(Digest a b c d) := fold_left (step M) (seq 0 64) st in
  Digest (add32 (dA st) a) (add32 (dB st) b)
         (add32 (dC st) c) (add32 (dD st) d).

Fixpoint blocks (count : nat) (st : digest) (bytes : list N) : digest :=
  match count with
  | O => st
  | Datatypes.S count' =>
      blocks count' (compress st (firstn 64 bytes)) (skipn 64 bytes)
  end.

Definition md5 (msg : list N) : digest :=
  let padded := pad msg in
  blocks (Nat.div (length padded) 64) init padded.

Definition hexDigits : jsstring := str "0123456789abcdef".

Definition hexDigit (n : N) : ascii :=
  nth (N.to_nat (n mod 16)) hexDigits "0"%char.

Definition hexByte (b : N) : jsstring :=
  [hexDigit (b / 16); hexDigit b].

(** [.digest('hex')]: the sixteen bytes of the digest, two digits each. *)
Definition hex (d : digest) : jsstring :=
  flat_map hexByte
    (leBytes 4 (dA d) ++ leBytes 4 (dB d) ++ leBytes 4 (dC d)
     ++ leBytes 4 (dD d)).

(** [crypto.createHash('md5').update(s).digest('hex')]. *)
Definition md5hex (s : jsstring) : jsstring := hex (md5 (utf8 s)).

Definition isHexDigit (c : ascii) : bool :=
  inRange 48 57 c || inRange 97 102 c.

End MD5.

(* ================================================================== *)
(** * The environment: Node's [path] and [fs] modules *)
(* ================================================================== *)

(** The functions of [path] the builders call.  The builders are
    verified against this interface; [Posix.api] below is an instance
    for slash-separated paths. *)
Class PathApi : Type := {
  path_join : jsstring -> jsstring -> jsstring;
  path_resolve : jsstring -> jsstring;
  path_relative : jsstring -> jsstring -> jsstring;
  path_basename : jsstring -> jsstring -> jsstring;
  path_extname : jsstring -> jsstring
}.

(** A directory entry as [readdirSync(dir, { withFileTypes: true })]
    returns it; a directory carries the listing a nested call reads. *)
#[warnings="-register-all"]
Inductive Dirent : Type :=
| FileEntry (name : jsstring)
| DirEntry (name : jsstring) (entries : list Dirent)
| OtherEntry (name : jsstring).

(** [readdir dir] is [None] when [fs.existsSync(dir)] is false;
    [readFile] is [fs.readFileSync(path, 'utf-8')]. *)
Record FileSystem : Type := {
  readdir : jsstring -> option (list Dirent);
  readFile : jsstring -> jsstring
}.

Definition nonEmpty {A} (l : list A) : bool :=
  match l with [] => false | _ :: _ => true end.

(** [a || b] on strings where [undefined] is [None]. *)
Definition orElse (a : option jsstring) (b : jsstring) : jsstring :=
  match a with
  | Some (c :: s) => c :: s
  | _ => b
  end.

Fixpoint mapi_aux {A B} (f : A -> nat -> B) (i : nat) (l : list A) : list B :=
  match l with
  | [] => []
  | x :: l' => f x i :: mapi_aux f (S i) l'
  end.

(** [arr.map((x, index) => f(x, index))]. *)
Definition mapi {A B} (f : A -> nat -> B) (l : list A) : list B :=
  mapi_aux f 0 l.

(** A plain object: its own properties, in the order they were created. *)
Definition jsobject (V : Type) : Type := list (jsstring * V).

Fixpoint getProp {V} (o : jsobject V) (key : jsstring) : option V :=
  match o with
  | [] => None
  | (k, v) :: o' => if jseqb k key then Some v else getProp o' key
  end.

Fixpoint putProp {V} (o : jsobject V) (key : jsstring) (v : V) : jsobject V :=
  match o with
  | [] => [(key, v)]
  | (k, w) :: o' =>
      if jseqb k key then (k, v) :: o' else (k, w) :: putProp o' key v
  end.

(** [o[key] = value] for an object created as [{}] and a string value:
    assigning a string to [__proto__] leaves the object unchanged. *)
Definition setProp (o : jsobject jsstring) (key value : jsstring)
  : jsobject jsstring :=
  if jseqb key (str "__proto__") then o else putProp o key value.

(** A literal matched without regard to case (the [i] flag). *)
Fixpoint LitI (s : jsstring) : regex :=
  match s with
  | [] => Eps
  | c :: s' =>
      Seq (Chr (fun x => isChar (toLowerChar c) (toLowerChar x))) (LitI s')
  end.

(** [/\.(md|mdx)$/i] *)
Definition markdownExt : regex :=
  Seq (Chr (isChar ".")) (Seq (Alt (LitI (str "md")) (LitI (str "mdx")))
    (Eol false)).

Definition del : option jsstring -> jsstring := fun _ => [].
Definition lit (s : jsstring) : option jsstring -> jsstring := fun _ => s.
Definition group1 : option jsstring -> jsstring :=
  fun c => match c with Some s => s | None => [] end.

(** [/\s+/] *)
Definition whitespaceRun : regex := Plus true (Chr isSpace).

(** [/(?<=[.!?])\s+/] *)
Definition isTerminator (c : ascii) : bool :=
  isChar "." c || isChar "!" c || isChar "?" c.

Definition sentenceBoundary : regex :=
  Seq (LookBehind isTerminator) (Plus true (Chr isSpace)).

(** The steps of [cleanMarkdownContent] and [cleanMarkdown]. *)
Module Clean.

Definition upper : ascii -> bool := inRange 65 90.
Definition letter (c : ascii) : bool := inRange 97 122 c || inRange 65 90 c.
Definition c (a : ascii) : regex := Chr (isChar a).
Definition seqs (l : list regex) : regex := fold_right Seq Eps l.

(** [/```[\s\S]*?```/g] *)
Definition codeBlock : regex :=
  seqs [Lit (str "```"); Star false (Chr anyChar); Lit (str "```")].

(** [/`[^`]+`/g] *)
Definition inlineCode : regex :=
  seqs [c "`"; Plus true (Chr (notChar "`")); c "`"].

(** [/!\[.*?\]\(.*?\)/g] *)
Definition image : regex :=
  seqs [c "!"; c "["; Star false (Chr dot); c "]"; c "(";
        Star false (Chr dot); c ")"].

(** [/\[([^\]]+)\]\([^)]+\)/g] *)
Definition link : regex :=
  seqs [c "["; Group (Plus true (Chr (notChar "]"))); c "]"; c "(";
        Plus true (Chr (notChar ")")); c ")"].

(** [/<[^>]+>/g] *)
Definition htmlTag : regex :=
  seqs [c "<"; Plus true (Chr (notChar ">")); c ">"].

(** [/^import\s+.*$/gm] and [/^export\s+.*$/gm] *)
Definition statement (keyword : jsstring) : regex :=
  seqs [Bol true; Lit keyword; Plus true (Chr isSpace); Star true (Chr dot);
        Eol true].

(** [/<[A-Z][a-zA-Z]*[^>]*\/>/g] *)
Definition jsxSelfClosing : regex :=
  seqs [c "<"; Chr upper; Star true (Chr letter);
        Star true (Chr (notChar ">")); c "/"; c ">"].

(** [/<[A-Z][a-zA-Z]*[^>]*>[\s\S]*?<\/[A-Z][a-zA-Z]*>/g] *)
Definition jsxPaired : regex :=
  seqs [c "<"; Chr upper; Star true (Chr letter);
        Star true (Chr (notChar ">")); c ">"; Star false (Chr anyChar);
        c "<"; c "/"; Chr upper; Star true (Chr letter); c ">"].

(** [/\n{3,}/g] *)
Definition blankLines : regex :=
  seqs [c LF; c LF; c LF; Star true (c LF)].

Definition clean (content : jsstring) : jsstring :=
  let s := replaceAll codeBlock del content in
  let s := replaceAll inlineCode del s in
  let s := replaceAll image del s in
  let s := replaceAll link group1 s in
  let s := replaceAll htmlTag del s in
  let s := replaceAll (statement (str "import")) del s in
  let s := replaceAll (statement (str "export")) del s in
  let s := replaceAll jsxSelfClosing del s in
  let s := replaceAll jsxPaired del s in
  let s := replaceAll blankLines (lit [LF; LF]) s in
  trim s.

End Clean.

(** [/^---\s*\n([\s\S]*?)\n---\s*\n/] *)
Definition frontmatterRegex : regex :=
  Clean.seqs [Bol false; Lit (str "---"); Star true (Chr isSpace);
    Clean.c LF; Group (Star false (Chr anyChar)); Clean.c LF;
    Lit (str "---"); Star true (Chr isSpace); Clean.c LF].

(** [content.match(r)] for a regular expression without the [g] flag:
    [match[0]] and [match[1]]. *)
Definition jsmatch (r : regex) (content : jsstring)
  : option (jsstring * jsstring) :=
  match search r content with
  | Some (i, st) =>
      Some (firstn (consumed (skipn i content) st) (skipn i content),
            group1 (cap st))
  | None => None
  end.

(** The slug of a relative path:
    [.replace(/\\/g, '/').replace(/\.(md|mdx)$/i, '').replace(/\/index$/, '')]. *)
Definition forwardSlashes (p : jsstring) : jsstring :=
  replaceAll (Chr (isChar "\")) (lit (str "/")) p.

Definition slugOf (relativePath : jsstring) : jsstring :=
  replaceFirst (Seq (Lit (str "/index")) (Eol false)) del
    (replaceFirst markdownExt del (forwardSlashes relativePath)).

(* ================================================================== *)
(** * Code shared by the two scripts (each script has its own copy) *)
(* ================================================================== *)

(** One turn of the loop over the sentences in [splitIntoChunks]: the
    state is the array [chunks] and the buffer [currentChunk]. *)
Definition chunkStep (chunkSize overlap : nat)
  (state : list jsstring * jsstring) (sentence : jsstring)
  : list jsstring * jsstring :=
  let '(chunks, currentChunk) := state in
  if (chunkSize <? length currentChunk + length sentence)
     && (0 <? length currentChunk)
  then
    let words := split whitespaceRun currentChunk in
    let overlapWords := sliceFrom words (- Z.of_nat (overlap / 5)) in
    (chunks ++ [trim currentChunk],
     join (str " ") overlapWords ++ str " " ++ sentence)
  else
    (chunks,
     currentChunk ++ (if nonEmpty currentChunk then str " " else [])
       ++ sentence).

Definition splitIntoChunks (content : jsstring) (chunkSize overlap : nat)
  : list jsstring :=
  let sentences := split sentenceBoundary content in
  let '(chunks, currentChunk) :=
    fold_left (chunkStep chunkSize overlap) sentences ([], []) in
  if nonEmpty (trim currentChunk) then chunks ++ [trim currentChunk]
  else chunks.

(** [crypto.createHash('md5').update(`${filePath}-${chunkIndex}`)
      .digest('hex').slice(0, 8)] *)
Definition generateChunkId (filePath : jsstring) (chunkIndex : nat)
  : jsstring :=
  slice (MD5.md5hex (filePath ++ str "-" ++ decimal chunkIndex)) 0 8.

(** [findMarkdownFiles]: the files below [dir] whose name ends in [.md]
    or [.mdx], in the order of the listing. *)
Section FindMarkdownFiles.

Context {P : PathApi}.

Fixpoint visitEntry (dir : jsstring) (entry : Dirent) : list jsstring :=
  match entry with
  | DirEntry name entries =>
      flat_map (visitEntry (path_join dir name)) entries
  | FileEntry name =>
      if test markdownExt name then [path_join dir name] else []
  | OtherEntry _ => []
  end.

Definition findMarkdownFiles (fs : FileSystem) (dir : jsstring)
  : list jsstring :=
  match readdir fs dir with
  | None => []
  | Some entries => flat_map (visitEntry dir) entries
  end.

End FindMarkdownFiles.

(** What a run of a script ends in: [process.exit(code)] before anything
    is written, or the index written to the output file. *)
Inductive outcome (I : Type) : Type :=
| Exit (exitCode : nat)
| Wrote (outputFile : jsstring) (index : I).

Arguments Exit {I} exitCode.
Arguments Wrote {I} outputFile index.

(* ================================================================== *)
(** * build-rag-index.js *)
(* ================================================================== *)

Module BuildRagIndex.

Record Config : Type := {
  docsDir : jsstring;
  blogDir : jsstring;
  outputFile : jsstring;
  chunkSize : nat;
  chunkOverlap : nat
}.

Definition DEFAULT_CONFIG : Config := {|
  docsDir := str "./docs";
  blogDir := str "./blog";
  outputFile := str "./static/rag-index.json";
  chunkSize := 1000;
  chunkOverlap := 200
|}.

(** The quote removal of [parseFrontmatter]. *)
Definition unquote (value : jsstring) : jsstring :=
  if (startsWith value [dquote] && endsWith value [dquote])
     || (startsWith value (str "'") && endsWith value (str "'"))
  then slice value 1 (-1)
  else value.

Definition parseLine (metadata : jsobject jsstring) (line : jsstring)
  : jsobject jsstring :=
  match indexOf line ":" with
  | Some (S n) =>
      let colonIndex := S n in
      let key := trim (slice line 0 (Z.of_nat colonIndex)) in
      let value := trim (sliceFrom line (Z.of_nat (colonIndex + 1))) in
      setProp metadata key (unquote value)
  | _ => metadata
  end.

Definition parseFrontmatter (content : jsstring)
  : jsobject jsstring * jsstring :=
  match jsmatch frontmatterRegex content with
  | None => ([], content)
  | Some (match0, frontmatter) =>
      let lines := splitChar frontmatter LF in
      let metadata := fold_left parseLine lines [] in
      (metadata, sliceFrom content (Z.of_nat (length match0)))
  end.

Definition cleanMarkdownContent : jsstring -> jsstring := Clean.clean.

Definition stopWords : list jsstring := map str
  [ "the"; "a"; "an"; "and"; "or"; "but"; "in"; "on"; "at"; "to"; "for";
    "of"; "with"; "by"; "from"; "as"; "is"; "was"; "are"; "were"; "been";
    "be"; "have"; "has"; "had"; "do"; "does"; "did"; "will"; "would";
    "could"; "should"; "may"; "might"; "must"; "shall"; "can"; "this";
    "that"; "these"; "those"; "i"; "you"; "he"; "she"; "it"; "we"; "they";
    "what"; "which"; "who"; "when"; "where"; "why"; "how"; "all"; "each";
    "every"; "both"; "few"; "more"; "most"; "other"; "some"; "such"; "no";
    "not"; "only"; "own"; "same"; "so"; "than"; "too"; "very"; "just";
    "also"; "now" ]%string.

Definition isStopWord (word : jsstring) : bool :=
  existsb (jseqb word) stopWords.

(** The values the object [frequency] holds: a number, or a string once
    [+ 1] was applied to something that is not a number. *)
Inductive freqValue : Type :=
| Count (n : nat)
| Text (s : jsstring).

(** [Object.prototype.constructor] converted to a string. *)
Definition objectConstructorText : jsstring :=
  str "function Object() { [native code] }".

(** [frequency[word] = (frequency[word] || 0) + 1].  The object starts as
    [{}], so a word that has no own property yet may still find a
    property inherited from [Object.prototype]; among the words the filter
    lets through (lower-case letters and digits) that is [constructor]. *)
Definition bump (frequency : jsobject freqValue) (word : jsstring)
  : jsobject freqValue :=
  match getProp frequency word with
  | Some (Count n) => putProp frequency word (Count (n + 1))
  | Some (Text []) => putProp frequency word (Count 1)
  | Some (Text s) => putProp frequency word (Text (s ++ str "1"))
  | None =>
      if jseqb word (str "constructor")
      then putProp frequency word (Text (objectConstructorText ++ str "1"))
      else putProp frequency word (Count 1)
  end.

Definition isDigit : ascii -> bool := inRange 48 57.

Definition digitsValue (key : jsstring) : N :=
  fold_left (fun acc c => (10 * acc + N.of_nat (code c - 48))%N) key 0%N.

(** A property key that is an array index: the canonical decimal string
    of an integer below 2^32 - 1. *)
Definition arrayIndex (key : jsstring) : option N :=
  match key with
  | [] => None
  | c :: rest =>
      if forallb isDigit key && (negb (isChar "0" c) || negb (nonEmpty rest))
         && (digitsValue key <? 4294967295)%N
      then Some (digitsValue key) else None
  end.

Fixpoint insertIndex {V} (e : N * (jsstring * V))
  (l : list (N * (jsstring * V))) : list (N * (jsstring * V)) :=
  match l with
  | [] => [e]
  | x :: l' => if (fst e <? fst x)%N then e :: l else x :: insertIndex e l'
  end.

Definition indexEntries {V} (o : jsobject V) : list (N * (jsstring * V)) :=
  flat_map (fun e => match arrayIndex (fst e) with
                     | Some i => [(i, e)]
                     | None => []
                     end) o.

Definition isIndexKey (key : jsstring) : bool :=
  match arrayIndex key with Some _ => true | None => false end.

(** [Object.entries(o)]: the array-index keys in ascending numeric order,
    then the other keys in the order they were created. *)
Definition entries {V} (o : jsobject V) : list (jsstring * V) :=
  map snd (fold_right insertIndex [] (indexEntries o))
  ++ filter (fun e => negb (isIndexKey (fst e))) o.

(** [(a, b) => b[1] - a[1]]; [None] is [NaN]. *)
Definition byFrequency (a b : jsstring * freqValue) : option Z :=
  match snd a, snd b with
  | Count x, Count y => Some (Z.of_nat y - Z.of_nat x)%Z
  | _, _ => None
  end.

(** [arr.sort(comparefn)], a stable sort; a comparison that yields [NaN]
    counts as 0.  (With a comparison function that is not consistent the
    order is implementation-defined; this is insertion from the left.) *)
Definition comesBefore {A} (comparefn : A -> A -> option Z) (x y : A)
  : bool :=
  match comparefn x y with
  | Some v => (v <? 0)%Z
  | None => false
  end.

Fixpoint insertSorted {A} (comparefn : A -> A -> option Z) (x : A)
  (sorted : list A) : list A :=
  match sorted with
  | [] => [x]
  | y :: rest =>
      if comesBefore comparefn x y then x :: sorted
      else y :: insertSorted comparefn x rest
  end.

Definition sort {A} (comparefn : A -> A -> option Z) (l : list A) : list A :=
  fold_left (fun sorted x => insertSorted comparefn x sorted) l [].

(** [/[^a-z0-9\s]/g] *)
Definition notWordChar (c : ascii) : bool :=
  negb (inRange 97 122 c || inRange 48 57 c || isSpace c).

Definition keepWord (word : jsstring) : bool :=
  (2 <? length word) && negb (isStopWord word).

Definition wordsOf (content : jsstring) : list jsstring :=
  filter keepWord
    (split whitespaceRun
       (replaceAll (Chr notWordChar) del (toLowerCase content))).

Definition frequencyOf (words : list jsstring) : jsobject freqValue :=
  fold_left bump words [].

Definition extractKeywords (content : jsstring) (maxKeywords : nat)
  : list jsstring :=
  let words := wordsOf content in
  let frequency := frequencyOf words in
  map fst (slice (sort byFrequency (entries frequency)) 0
             (Z.of_nat maxKeywords)).

Record Chunk : Type := {
  id : jsstring;
  source : jsstring;
  slug : jsstring;
  title : jsstring;
  section : jsstring;
  content : jsstring;
  keywords : list jsstring;
  chunkIndex : nat;
  totalChunks : nat
}.

Record Stats : Type := {
  stats_totalFiles : nat;
  stats_totalChunks : nat;
  stats_docsFiles : nat;
  stats_blogFiles : nat
}.

Record Index : Type := {
  version : jsstring;
  generatedAt : jsstring;
  stats : Stats;
  chunks : list Chunk
}.

Section Builder.

Context {P : PathApi}.

Definition processFile (fs : FileSystem) (filePath : jsstring)
  (config : Config) (baseDir : jsstring) : list Chunk :=
  let content := readFile fs filePath in
  let '(metadata, bodyContent) := parseFrontmatter content in
  let cleanedContent := cleanMarkdownContent bodyContent in
  if negb (nonEmpty cleanedContent) || (length cleanedContent <? 50)
  then []
  else
    let relativePath := path_relative baseDir filePath in
    let slug := slugOf relativePath in
    let chunks :=
      splitIntoChunks cleanedContent (chunkSize config)
        (chunkOverlap config) in
    mapi (fun chunk index => {|
      id := generateChunkId filePath index;
      source := forwardSlashes relativePath;
      slug := slug;
      title := orElse (getProp metadata (str "title"))
                 (path_basename filePath (path_extname filePath));
      section := orElse (getProp metadata (str "sidebar_label"))
                   (orElse (getProp metadata (str "title")) []);
      content := chunk;
      keywords := extractKeywords chunk 10;
      chunkIndex := index;
      totalChunks := length chunks
    |}) chunks.

(** The base directory [main] passes for a file. *)
Definition baseDirOf (config : Config) (file : jsstring) : jsstring :=
  if startsWith file (path_resolve (docsDir config))
  then docsDir config else blogDir config.

(** [main]; [now] is [new Date().toISOString()] at the time of the run. *)
Definition main (fs : FileSystem) (config : Config) (now : jsstring)
  : outcome Index :=
  let docsFiles := findMarkdownFiles fs (docsDir config) in
  let blogFiles := findMarkdownFiles fs (blogDir config) in
  let allFiles := docsFiles ++ blogFiles in
  if length allFiles =? 0 then Exit 1
  else
    let chunks :=
      flat_map (fun file => processFile fs file config (baseDirOf config file))
        allFiles in
    Wrote (outputFile config) {|
      version := str "1.0";
      generatedAt := now;
      stats := {|
        stats_totalFiles := length allFiles;
        stats_totalChunks := length chunks;
        stats_docsFiles := length docsFiles;
        stats_blogFiles := length blogFiles
      |};
      chunks := chunks
    |}.

End Builder.

End BuildRagIndex.

(* ================================================================== *)
(** * build-rag-index-embeddings.js *)
(* ================================================================== *)

Module BuildRagIndexEmbeddings.

Record Config : Type := {
  docsDir : jsstring;
  blogDir : jsstring;
  outputFile : jsstring;
  chunkSize : nat;
  chunkOverlap : nat;
  embeddingModel : jsstring;
  region : jsstring;
  batchSize : nat;
  delayMs : nat
}.

Definition DEFAULT_CONFIG : Config := {|
  docsDir := str "./docs";
  blogDir := str "./blog";
  outputFile := str "./rag-index-embeddings.json";
  chunkSize := 512;
  chunkOverlap := 100;
  embeddingModel := str "amazon.titan-embed-text-v2:0";
  region := str "us-east-1";
  batchSize := 5;
  delayMs := 200
|}.

Definition isQuote (c : ascii) : bool := isChar dquote c || isChar "'" c.

(** [/^["']|["']$/g] *)
Definition edgeQuote : regex :=
  Alt (Seq (Bol false) (Chr isQuote)) (Seq (Chr isQuote) (Eol false)).

Definition parseLine (metadata : jsobject jsstring) (line : jsstring)
  : jsobject jsstring :=
  match indexOf line ":" with
  | Some (S n) =>
      let idx := S n in
      let key := trim (slice line 0 (Z.of_nat idx)) in
      let val :=
        replaceAll edgeQuote del
          (trim (sliceFrom line (Z.of_nat (idx + 1)))) in
      setProp metadata key val
  | _ => metadata
  end.

Definition parseFrontmatter (content : jsstring)
  : jsobject jsstring * jsstring :=
  match jsmatch frontmatterRegex content with
  | None => ([], content)
  | Some (match0, frontmatter) =>
      (fold_left parseLine (splitChar frontmatter LF) [],
       sliceFrom content (Z.of_nat (length match0)))
  end.

Definition cleanMarkdown : jsstring -> jsstring := Clean.clean.

Section Builder.

Context {P : PathApi}.

(** The values the field [embedding] of a reply of the service holds
    when it is not [null] (the vector; [undefined] when the reply has no
    such field), and [?.length || 0] of such a value. *)
Variable Vector : Type.
Variable dimension : Vector -> nat.

Record Chunk : Type := {
  id : jsstring;
  source : jsstring;
  slug : jsstring;
  title : jsstring;
  content : jsstring;
  chunkIndex : nat;
  totalChunks : nat;
  embedding : option Vector       (* [None] is [null] *)
}.

Record ErrorRecord : Type := {
  error_id : jsstring;
  error_message : jsstring
}.

Record Stats : Type := {
  stats_totalFiles : nat;
  stats_totalChunks : nat;
  stats_successfulChunks : nat;
  stats_failedChunks : nat
}.

Record Index : Type := {
  version : jsstring;
  generatedAt : jsstring;
  index_embeddingModel : jsstring;
  embeddingDimension : nat;
  stats : Stats;
  chunks : list Chunk
}.

Definition processFile (fs : FileSystem) (filePath : jsstring)
  (config : Config) (baseDir : jsstring) : list Chunk :=
  let content := readFile fs filePath in
  let '(metadata, body) := parseFrontmatter content in
  let cleaned := cleanMarkdown body in
  if negb (nonEmpty cleaned) || (length cleaned <? 50) then []
  else
    let relativePath := path_relative baseDir filePath in
    let slug := slugOf relativePath in
    let chunks :=
      splitIntoChunks cleaned (chunkSize config) (chunkOverlap config) in
    mapi (fun chunk index => {|
      id := slice (MD5.md5hex (filePath ++ str "-" ++ decimal index)) 0 8;
      source := forwardSlashes relativePath;
      slug := slug;
      title := orElse (getProp metadata (str "title"))
                 (path_basename filePath (path_extname filePath));
      content := chunk;
      chunkIndex := index;
      totalChunks := length chunks;
      embedding := None
    |}) chunks.

(** The embedding service.  [send n text model] answers the [n]-th
    request of the run (requests are issued in the order of the chunks):
    [result.embedding] of the reply, which is returned as it is ([None]
    when it is [null]), or the message of the error thrown by the client
    or while the reply is decoded and parsed. *)
Variable send : nat -> jsstring -> jsstring -> option Vector + jsstring.

(** Within a batch the requests are awaited together; [arrival] is the
    order in which the failures of a batch are caught. *)
Variable arrival : list ErrorRecord -> list ErrorRecord.

Definition generateEmbedding (request : nat) (text model : jsstring)
  : option Vector + jsstring :=
  send request (slice text 0 8000) model.

(** [chunk.embedding = value]. *)
Definition setEmbedding (c : Chunk) (value : option Vector) : Chunk := {|
  id := id c; source := source c; slug := slug c; title := title c;
  content := content c; chunkIndex := chunkIndex c;
  totalChunks := totalChunks c; embedding := value
|}.

Definition withEmbedding (c : Chunk) (v : Vector) : Chunk :=
  setEmbedding c (Some v).

(** The handler of one chunk of a batch: the chunk after it, and the
    error it pushes. *)
Definition embedChunk (config : Config) (chunk : Chunk) (position : nat)
  : Chunk * list ErrorRecord :=
  match generateEmbedding position (content chunk) (embeddingModel config)
  with
  | inl value => (setEmbedding chunk value, [])
  | inr message =>
      (chunk, [{| error_id := id chunk; error_message := message |}])
  end.

Definition inBatch (config : Config) (i position : nat) : bool :=
  (i <=? position) && (position <? i + batchSize config).

(** One batch: the chunks at the positions [i .. i + batchSize - 1] are
    the objects of [chunks.slice(i, i + batchSize)], updated in place. *)
Definition embedBatch (config : Config) (i : nat)
  (state : list Chunk * list ErrorRecord) : list Chunk * list ErrorRecord :=
  let '(chunks, errors) := state in
  let results :=
    mapi (fun chunk position =>
      if inBatch config i position then embedChunk config chunk position
      else (chunk, [])) chunks in
  (map fst results, errors ++ arrival (flat_map snd results)).

(** [for (let i = 0; i < chunks.length; i += config.batchSize)]. *)
Fixpoint embedAll (fuel : nat) (config : Config) (i : nat)
  (state : list Chunk * list ErrorRecord)
  : option (list Chunk * list ErrorRecord) :=
  match fuel with
  | 0 => None
  | S fuel' =>
      if i <? length (fst state)
      then embedAll fuel' config (i + batchSize config)
             (embedBatch config i state)
      else Some state
  end.

Definition baseDirOf (config : Config) (file : jsstring) : jsstring :=
  if startsWith file (path_resolve (docsDir config))
  then docsDir config else blogDir config.

(** The chunks of all files, before any embedding is requested. *)
Definition collectChunks (fs : FileSystem) (config : Config) : list Chunk :=
  flat_map (fun file => processFile fs file config (baseDirOf config file))
    (findMarkdownFiles fs (docsDir config)
     ++ findMarkdownFiles fs (blogDir config)).

Definition hasEmbedding (c : Chunk) : bool :=
  match embedding c with Some _ => true | None => false end.

(** [main]; [None] when [fuel] turns of the batch loop do not end it. *)
Definition main (fuel : nat) (fs : FileSystem) (config : Config)
  (now : jsstring) : option (outcome Index) :=
  let docsFiles := findMarkdownFiles fs (docsDir config) in
  let blogFiles := findMarkdownFiles fs (blogDir config) in
  let allFiles := docsFiles ++ blogFiles in
  if negb (nonEmpty allFiles) then Some (Exit 1)
  else
    let chunks := collectChunks fs config in
    match embedAll fuel config 0 (chunks, []) with
    | None => None
    | Some (chunks, errors) =>
        let successfulChunks := filter hasEmbedding chunks in
        Some (Wrote (outputFile config) {|
          version := str "2.0-embeddings";
          generatedAt := now;
          index_embeddingModel := embeddingModel config;
          embeddingDimension :=
            match successfulChunks with
            | {| embedding := Some v |} :: _ => dimension v
            | _ => 0
            end;
          stats := {|
            stats_totalFiles := length allFiles;
            stats_totalChunks := length chunks;
            stats_successfulChunks := length successfulChunks;
            stats_failedChunks := length errors
          |};
          chunks := successfulChunks
        |})
    end.

End Builder.

End BuildRagIndexEmbeddings.

(* ================================================================== *)
(** * An instance of [PathApi]: POSIX paths *)
(* ================================================================== *)

Module Posix.

Definition segments (p : jsstring) : list jsstring :=
  filter nonEmpty (splitChar p "/").

Definition isAbsolute (p : jsstring) : bool := startsWith p (str "/").

(** Removes [.] segments and resolves [..] against the segment before it;
    [stack] holds the segments kept so far, last first. *)
Fixpoint normalizeSegments (absolute : bool) (stack : list jsstring)
  (segs : list jsstring) : list jsstring :=
  match segs with
  | [] => rev stack
  | seg :: rest =>
      if jseqb seg (str ".") then normalizeSegments absolute stack rest
      else if jseqb seg (str "..") then
        match stack with
        | top :: stack' =>
            if jseqb top (str "..")
            then normalizeSegments absolute (seg :: stack) rest
            else normalizeSegments absolute stack' rest
        | [] =>
            if absolute then normalizeSegments absolute [] rest
            else normalizeSegments absolute [seg] rest
        end
      else normalizeSegments absolute (seg :: stack) rest
  end.

Definition normalize (p : jsstring) : jsstring :=
  let body :=
    join (str "/") (normalizeSegments (isAbsolute p) [] (segments p)) in
  let body :=
    if nonEmpty body && endsWith p (str "/") then body ++ str "/"
    else body in
  if isAbsolute p then str "/" ++ body
  else if nonEmpty body then body else str ".".

Definition join2 (a b : jsstring) : jsstring :=
  match a, b with
  | [], [] => str "."
  | [], _ => normalize b
  | _, [] => normalize a
  | _, _ => normalize (a ++ str "/" ++ b)
  end.

Definition resolve (cwd p : jsstring) : jsstring :=
  let full := if isAbsolute p then p else cwd ++ str "/" ++ p in
  str "/" ++ join (str "/") (normalizeSegments true [] (segments full)).

Fixpoint dropCommon (a b : list jsstring)
  : list jsstring * list jsstring :=
  match a, b with
  | x :: a', y :: b' => if jseqb x y then dropCommon a' b' else (a, b)
  | _, _ => (a, b)
  end.

Definition relative (cwd from to : jsstring) : jsstring :=
  let '(up, down) :=
    dropCommon (segments (resolve cwd from)) (segments (resolve cwd to)) in
  join (str "/") (map (fun _ => str "..") up ++ down).

Definition lastSegment (p : jsstring) : jsstring :=
  last (segments p) [].

Definition basename (p ext : jsstring) : jsstring :=
  let base := lastSegment p in
  if nonEmpty ext && endsWith base ext && (length ext <? length base)
  then firstn (length base - length ext) base
  else base.

(** The extension: from the last dot of the last segment, unless that
    dot is its first character. *)
Definition extname (p : jsstring) : jsstring :=
  let base := lastSegment p in
  match indexOf (rev base) "." with
  | Some fromEnd =>
      if (S fromEnd <? length base) && negb (jseqb base (str ".."))
      then skipn (length base - S fromEnd) base
      else []
  | None => []
  end.

(** The interface for a process whose working directory is [cwd]. *)
Definition api (cwd : jsstring) : PathApi := {|
  path_join := join2;
  path_resolve := resolve cwd;
  path_relative := relative cwd;
  path_basename := basename;
  path_extname := extname
|}.

End Posix.

(* ================================================================== *)
(** * Vocabulary of the statements *)
(* ================================================================== *)

(** The chunk records of the index a run wrote (none when it exited). *)
Definition indexChunks {I C : Type} (chunksOf : I -> list C)
  (o : outcome I) : list C :=
  match o with
  | Wrote _ index => chunksOf index
  | Exit _ => []
  end.

(** The normalized body of a document, in each script. *)
Definition cleanedBody (fs : FileSystem) (filePath : jsstring) : jsstring :=
  BuildRagIndex.cleanMarkdownContent
    (snd (BuildRagIndex.parseFrontmatter (readFile fs filePath))).

Definition cleanedBodyE (fs : FileSystem) (filePath : jsstring) : jsstring :=
  BuildRagIndexEmbeddings.cleanMarkdown
    (snd (BuildRagIndexEmbeddings.parseFrontmatter (readFile fs filePath))).

(** The chunk texts of a document that passes the length threshold. *)
Definition chunkTexts (cleaned : jsstring) (chunkSize overlap : nat)
  : list jsstring :=
  if negb (nonEmpty cleaned) || (length cleaned <? 50) then []
  else splitIntoChunks cleaned chunkSize overlap.

(** A file system that holds the given files (path and content) and
    whose directories are listed by [dirs]. *)
Definition lookupFile (files : list (jsstring * jsstring)) (path : jsstring)
  : jsstring :=
  match getProp files path with Some content => content | None => [] end.

Definition mkFileSystem (dirs : jsobject (list Dirent))
  (files : list (jsstring * jsstring)) : FileSystem := {|
  readdir := getProp dirs;
  readFile := lookupFile files
|}.

Definition cwd : jsstring := str "/site".

(** The [path] module of a process started in [cwd]. *)
Definition node : PathApi := Posix.api cwd.

Definition timestamp : jsstring := str "2024-01-01T00:00:00.000Z".

(** Whether the embedding request for the chunk at [position] fails:
    an error is thrown. *)
Definition requestFails {Vector : Type}
  (send : nat -> jsstring -> jsstring -> option Vector + jsstring)
  (config : BuildRagIndexEmbeddings.Config)
  (chunk : BuildRagIndexEmbeddings.Chunk Vector) (position : nat) : bool :=
  match BuildRagIndexEmbeddings.generateEmbedding Vector send position
          (BuildRagIndexEmbeddings.content Vector chunk)
          (BuildRagIndexEmbeddings.embeddingModel config)
  with
  | inl _ => false
  | inr _ => true
  end.

Definition isTrue (b : bool) : bool := b.

(** The number of chunks whose request fails. *)
Definition failedCount {Vector : Type}
  (send : nat -> jsstring -> jsstring -> option Vector + jsstring)
  (config : BuildRagIndexEmbeddings.Config)
  (chunks : list (BuildRagIndexEmbeddings.Chunk Vector)) : nat :=
  length (filter isTrue (mapi (requestFails send config) chunks)).

(** Whether the request for the chunk at [position] is answered, without
    an error, by a reply whose [embedding] is [null]. *)
Definition replyIsNull {Vector : Type}
  (send : nat -> jsstring -> jsstring -> option Vector + jsstring)
  (config : BuildRagIndexEmbeddings.Config)
  (chunk : BuildRagIndexEmbeddings.Chunk Vector) (position : nat) : bool :=
  match BuildRagIndexEmbeddings.generateEmbedding Vector send position
          (BuildRagIndexEmbeddings.content Vector chunk)
          (BuildRagIndexEmbeddings.embeddingModel config)
  with
  | inl None => true
  | _ => false
  end.

(** The number of chunks whose request is answered with [null]. *)
Definition nullCount {Vector : Type}
  (send : nat -> jsstring -> jsstring -> option Vector + jsstring)
  (config : BuildRagIndexEmbeddings.Config)
  (chunks : list (BuildRagIndexEmbeddings.Chunk Vector)) : nat :=
  length (filter isTrue (mapi (replyIsNull send config) chunks)).

(** The chunks whose request is answered with an embedding, each with
    it, in order. *)
Definition embeddedChunks {Vector : Type}
  (send : nat -> jsstring -> jsstring -> option Vector + jsstring)
  (config : BuildRagIndexEmbeddings.Config)
  (chunks : list (BuildRagIndexEmbeddings.Chunk Vector))
  : list (BuildRagIndexEmbeddings.Chunk Vector) :=
  concat (mapi (fun chunk position =>
    match BuildRagIndexEmbeddings.generateEmbedding Vector send position
            (BuildRagIndexEmbeddings.content Vector chunk)
            (BuildRagIndexEmbeddings.embeddingModel config)
    with
    | inl (Some v) => [BuildRagIndexEmbeddings.withEmbedding Vector chunk v]
    | _ => []
    end) chunks).

(** The state of the batch loop once the handlers of the positions
    below [i] have run, from the chunks [chunks0] the loop started with. *)
Definition upTo {Vector : Type}
  (send : nat -> jsstring -> jsstring -> option Vector + jsstring)
  (config : BuildRagIndexEmbeddings.Config) (i : nat)
  (chunk : BuildRagIndexEmbeddings.Chunk Vector) (position : nat)
  : BuildRagIndexEmbeddings.Chunk Vector
    * list BuildRagIndexEmbeddings.ErrorRecord :=
  if position <? i
  then BuildRagIndexEmbeddings.embedChunk Vector send config chunk position
  else (chunk, []).

Definition batchesDone {Vector : Type}
  (send : nat -> jsstring -> jsstring -> option Vector + jsstring)
  (config : BuildRagIndexEmbeddings.Config)
  (chunks0 : list (BuildRagIndexEmbeddings.Chunk Vector)) (i : nat)
  (state : list (BuildRagIndexEmbeddings.Chunk Vector)
           * list BuildRagIndexEmbeddings.ErrorRecord) : Prop :=
  fst state = map fst (mapi (upTo send config i) chunks0)
  /\ Permutation (snd state)
       (flat_map snd (mapi (upTo send config i) chunks0)).

(** ** Sample sites *)

(** A document with the frontmatter [title: "Intro"] and the given body. *)
Definition introDocument (body : jsstring) : jsstring :=
  str "---" ++ [LF] ++ str "title: " ++ [dquote] ++ str "Intro" ++ [dquote]
  ++ [LF] ++ str "---" ++ [LF] ++ body.

Definition shortBody : jsstring := str "Hello world. This is a test.".

Definition longBody : jsstring :=
  str "Hello world. This is a test of the documentation indexing pipeline.".

(** A site whose [./docs] directory holds the single file [a.md]. *)
Definition singleFileSite (body : jsstring) : FileSystem :=
  mkFileSystem [(str "./docs", [FileEntry (str "a.md")])]
    [(str "docs/a.md", introDocument body)].

(** A site whose [./docs] directory holds two files. *)
Definition twoFileSite (name1 name2 : jsstring) : FileSystem :=
  mkFileSystem [(str "./docs", [FileEntry name1; FileEntry name2])]
    [(str "docs/" ++ name1, introDocument longBody);
     (str "docs/" ++ name2, introDocument longBody)].

(** An embedding service that answers the first request and fails on
    the others. *)
Definition firstOnly (n : nat) (text model : jsstring)
  : option (list nat) + jsstring :=
  if n =? 0 then inl (Some [1; 2; 3]) else inr (str "ThrottlingException").

(** An embedding service that answers the first request with a vector
    and the others, without an error, with a reply whose [embedding] is
    [null]. *)
Definition firstThenNull (n : nat) (text model : jsstring)
  : option (list nat) + jsstring :=
  if n =? 0 then inl (Some [1; 2; 3]) else inl None.

(** A chunk record as the scenario of the [Intro] document describes it. *)
Definition introRecord (body : jsstring) (c : BuildRagIndex.Chunk) : Prop :=
  BuildRagIndex.title c = str "Intro"
  /\ BuildRagIndex.content c = trim body
  /\ BuildRagIndex.chunkIndex c = 0
  /\ BuildRagIndex.totalChunks c = 1.

(** An identifier as the index format has it: eight hexadecimal digits. *)
Definition wellFormedId (id : jsstring) : Prop :=
  length id = 8 /\ forallb MD5.isHexDigit id = true.

(** A document whose frontmatter is the line [title: value]. *)
Definition titledDocument (value : jsstring) : jsstring :=
  str "---" ++ [LF] ++ str "title: " ++ value ++ [LF]
  ++ str "---" ++ [LF] ++ str "Body.".

(** The title read from a document, in each script. *)
Definition titleOf (document : jsstring) : option jsstring :=
  getProp (fst (BuildRagIndex.parseFrontmatter document)) (str "title").

Definition titleOfE (document : jsstring) : option jsstring :=
  getProp (fst (BuildRagIndexEmbeddings.parseFrontmatter document))
    (str "title").

(** Two values: [The "Intro"], which ends in a quoted word, and the word
    [Intro] behind a double quote that nothing closes. *)
Definition quotedWord : jsstring :=
  str "The " ++ [dquote] ++ str "Intro" ++ [dquote].

Definition openQuote : jsstring := dquote :: str "Intro".

(** A sentence of 500 characters: 499 letters and a full stop. *)
Definition sentence500 : jsstring := repeat "a"%char 499 ++ str ".".

(** A sentence of [n + 1] words and [6 * n + 6] characters. *)
Definition wordySentence (n : nat) : jsstring :=
  concat (repeat (str "alpha ") n) ++ str "omega.".

(** A buffer of the chunker that the size test has kept within the
    maximum and one joining space, or that was just seeded with a sentence
    (behind the overlap words, if any). *)
Definition boundedOrSeeded (sentences : list jsstring) (chunkSize : nat)
  (buffer : jsstring) : Prop :=
  length buffer <= chunkSize + 1
  \/ exists tail sentence,
       In sentence sentences /\ buffer = tail ++ sentence.

(** Whether a string has a character that is not white space. *)
Definition hasInk (s : jsstring) : bool :=
  existsb (fun c => negb (isSpace c)) s.

(** ** The order of the keywords *)

(** Number of occurrences of a word. *)
Definition countOf (words : list jsstring) (w : jsstring) : nat :=
  length (filter (jseqb w) words).

(** Position of the first occurrence of a word. *)
Fixpoint firstIndex (words : list jsstring) (w : jsstring) : nat :=
  match words with
  | [] => 0
  | x :: rest => if jseqb x w then 0 else S (firstIndex rest w)
  end.



(** The object [frequency] after the words [seen]: one key per word, in
    the order of the first occurrences, and, unless [constructor] is among
    the words, the number of occurrences as value. *)
Definition countsWords (seen : list jsstring)
  (frequency : jsobject BuildRagIndex.freqValue) : Prop :=
  NoDup (map fst frequency)
  /\ (forall w, In w (map fst frequency) <-> In w seen)
  /\ StronglySorted (fun a b => firstIndex seen a < firstIndex seen b)
       (map fst frequency)
  /\ (~ In (str "constructor") seen ->
      forall k v, In (k, v) frequency ->
        v = BuildRagIndex.Count (countOf seen k)).




(** ** Sentences and chunks *)

(** [b] holds [a] as a contiguous part. *)
Definition infix {A} (a b : list A) : Prop :=
  exists pre post, b = pre ++ a ++ post.

(** A string whose last character ends a sentence. *)
Definition endsSentence (s : jsstring) : Prop :=
  exists body t, s = body ++ [t] /\ isTerminator t = true.

(** The buffer of the chunker when no chunk is ever closed. *)
Definition glue (currentChunk sentence : jsstring) : jsstring :=
  currentChunk ++ (if nonEmpty currentChunk then str " " else [])
  ++ sentence.

(** The relation the scanner of [split] keeps between the characters
    passed and the piece being read. *)
Definition pieceFollows (bef cur : jsstring) : Prop :=
  match cur with
  | x :: _ => hd_error bef = Some x
  | [] => match bef with
          | [] => True
          | b :: _ => isSpace b = true
          end
  end.

(** A sentence is kept by a state of the chunker when a closed chunk
    holds its trimmed form or the buffer holds it. *)
Definition kept (state : list jsstring * jsstring) (sentence : jsstring)
  : Prop :=
  (exists c, In c (fst state) /\ infix (trim sentence) c)
  \/ infix sentence (snd state).

(** ** Plain prose *)

(** The characters that open a piece of markup the cleaning removes:
    the backtick, the opening bracket and the opening angle. *)
Definition isMarkup (c : ascii) : bool :=
  isChar "`" c || isChar "[" c || isChar "<" c.

(** Whether [needle] occurs somewhere in [s]. *)
Fixpoint occurs (needle s : jsstring) : bool :=
  startsWith s needle
  || match s with
     | [] => false
     | _ :: rest => occurs needle rest
     end.

(** Whether some line of [s] begins with [word]; [atStart] tells whether
    [s] itself begins a line. *)
Fixpoint lineStarts (atStart : bool) (word s : jsstring) : bool :=
  (atStart && startsWith s word)
  || match s with
     | [] => false
     | c :: rest => lineStarts (isLineTerminator c) word rest
     end.

(** Prose the cleaning has nothing to remove from: no markup character,
    no line that begins with [import] or [export], no three line feeds
    in a row. *)
Definition plainProse (content : jsstring) : bool :=
  negb (existsb isMarkup content)
  && negb (lineStarts true (str "import") content)
  && negb (lineStarts true (str "export") content)
  && negb (occurs [LF; LF; LF] content).

(** Two paragraphs of plain prose, with white space around them. *)
Definition twoParagraphs : jsstring :=
  str "  Setup guide." ++ [LF; LF] ++ str "Run the build, then deploy. "
  ++ [LF].

(** ** Frontmatter *)

(** Whether [s] is empty or begins with a character that is not white
    space. *)
Definition noLeadingSpace (s : jsstring) : bool :=
  match s with
  | [] => true
  | c :: _ => negb (isSpace c)
  end.

(** A document that opens with a frontmatter block: the fence [---], the
    lines [frontmatter], the fence again, then [body]; [sp1] and [sp2] are
    what the fences are followed by on their lines. *)
Definition withFrontmatter (sp1 frontmatter sp2 body : jsstring) : jsstring :=
  str "---" ++ sp1 ++ [LF] ++ frontmatter ++ [LF] ++ str "---" ++ sp2
  ++ [LF] ++ body.

(** Frontmatter lines that a block can hold as they are: the first
    character is not white space and no line begins with the fence. *)
Definition fenceFree (frontmatter : jsstring) : bool :=
  nonEmpty frontmatter && noLeadingSpace frontmatter
  && negb (occurs (LF :: str "---") frontmatter).


(** A string without its first character, if that is a quote. *)
Definition dropQuote (s : jsstring) : jsstring :=
  match s with
  | c :: rest => if BuildRagIndexEmbeddings.isQuote c then rest else s
  | [] => []
  end.

(** ** Keywords *)

(** A lower-case letter of the basic alphabet, or a digit. *)
Definition isWordChar (c : ascii) : bool :=
  inRange 97 122 c || inRange 48 57 c.

(** ** The files of a site *)

(** A file name that ends in [.md] or [.mdx], in any case. *)
Definition isMarkdownName (name : jsstring) : Prop :=
  exists stem ext,
    name = stem ++ "."%char :: ext
    /\ (toLowerCase ext = str "md" \/ toLowerCase ext = str "mdx").

(** The regular files below a directory whose listing is [entries]:
    [reaches dir entries path name] holds when a file named [name] lies
    in the directory or in a directory below it, and [path] joins [dir],
    the names of the directories on the way, and [name]. *)
Inductive reaches {P : PathApi}
  : jsstring -> list Dirent -> jsstring -> jsstring -> Prop :=
| reaches_file (dir : jsstring) (entries : list Dirent) (name : jsstring) :
    In (FileEntry name) entries ->
    reaches dir entries (path_join dir name) name
| reaches_below (dir : jsstring) (entries : list Dirent) (sub : jsstring)
    (below : list Dirent) (path name : jsstring) :
    In (DirEntry sub below) entries ->
    reaches (path_join dir sub) below path name ->
    reaches dir entries path name.

(** A path that is not empty and does not begin with a slash. *)
Definition isRelative (p : jsstring) : bool :=
  nonEmpty p && negb (Posix.isAbsolute p).

(** ** Runs of the two scripts *)

(** The keyword script with the chunk settings of the embeddings script. *)
Definition compactConfig : BuildRagIndex.Config := {|
  BuildRagIndex.docsDir := str "./docs";
  BuildRagIndex.blogDir := str "./blog";
  BuildRagIndex.outputFile := str "./static/rag-index.json";
  BuildRagIndex.chunkSize := 512;
  BuildRagIndex.chunkOverlap := 100
|}.

(** A configuration of the embeddings script with another region. *)
Definition withRegion (config : BuildRagIndexEmbeddings.Config)
  (region : jsstring) : BuildRagIndexEmbeddings.Config := {|
  BuildRagIndexEmbeddings.docsDir := BuildRagIndexEmbeddings.docsDir config;
  BuildRagIndexEmbeddings.blogDir := BuildRagIndexEmbeddings.blogDir config;
  BuildRagIndexEmbeddings.outputFile :=
    BuildRagIndexEmbeddings.outputFile config;
  BuildRagIndexEmbeddings.chunkSize := BuildRagIndexEmbeddings.chunkSize config;
  BuildRagIndexEmbeddings.chunkOverlap :=
    BuildRagIndexEmbeddings.chunkOverlap config;
  BuildRagIndexEmbeddings.embeddingModel :=
    BuildRagIndexEmbeddings.embeddingModel config;
  BuildRagIndexEmbeddings.region := region;
  BuildRagIndexEmbeddings.batchSize := BuildRagIndexEmbeddings.batchSize config;
  BuildRagIndexEmbeddings.delayMs := BuildRagIndexEmbeddings.delayMs config
|}.

(** An embedding service that fails on every request. *)
Definition alwaysThrottled (n : nat) (text model : jsstring)
  : option (list nat) + jsstring :=
  inr (str "ThrottlingException").

(** ** The command line *)

(** What [parseArgs] ends in: [process.exit(code)], or the configuration
    it returns. *)
Inductive parsed (C : Type) : Type :=
| Exited (exitCode : nat)
| Returned (config : C).

Arguments Exited {C} exitCode.
Arguments Returned {C} config.

(** The value of [config.chunkSize]: the number of [DEFAULT_CONFIG], or
    [parseInt(arg, 10)] of the argument behind [--chunk-size]. *)
Inductive chunkSizeValue : Type :=
| Number (n : nat)
| ParseInt (arg : option jsstring).

(** [parseArgs] of build-rag-index.js.  A field set from [args[++i]] is
    [None], for [undefined], when the option is the last argument. *)
Module BuildRagIndexCli.

Record Config : Type := {
  docsDir : option jsstring;
  blogDir : option jsstring;
  outputFile : option jsstring;
  chunkSize : chunkSizeValue;
  chunkOverlap : nat;
  excludePatterns : list jsstring
}.

Definition DEFAULT_CONFIG : Config := {|
  docsDir := Some (str "./docs");
  blogDir := Some (str "./blog");
  outputFile := Some (str "./static/rag-index.json");
  chunkSize := Number 1000;
  chunkOverlap := 200;
  excludePatterns :=
    map str [ "**/node_modules/**"; "**/_category_.json"; "**/authors.yml";
              "**/tags.yml" ]%string
|}.

(** The assignment of a [case] that takes a value. *)
Definition assignment (arg : jsstring)
  : option (option jsstring -> Config -> Config) :=
  if jseqb arg (str "--docs") then
    Some (fun value config => {|
      docsDir := value; blogDir := blogDir config;
      outputFile := outputFile config; chunkSize := chunkSize config;
      chunkOverlap := chunkOverlap config;
      excludePatterns := excludePatterns config |})
  else if jseqb arg (str "--blog") then
    Some (fun value config => {|
      docsDir := docsDir config; blogDir := value;
      outputFile := outputFile config; chunkSize := chunkSize config;
      chunkOverlap := chunkOverlap config;
      excludePatterns := excludePatterns config |})
  else if jseqb arg (str "--output") then
    Some (fun value config => {|
      docsDir := docsDir config; blogDir := blogDir config;
      outputFile := value; chunkSize := chunkSize config;
      chunkOverlap := chunkOverlap config;
      excludePatterns := excludePatterns config |})
  else if jseqb arg (str "--chunk-size") then
    Some (fun value config => {|
      docsDir := docsDir config; blogDir := blogDir config;
      outputFile := outputFile config; chunkSize := ParseInt value;
      chunkOverlap := chunkOverlap config;
      excludePatterns := excludePatterns config |})
  else None.

(** The loop over [args], from the argument at [i] on. *)
Fixpoint parseLoop (args : list jsstring) (config : Config)
  : parsed Config :=
  match args with
  | [] => Returned config
  | arg :: rest =>
      match assignment arg with
      | Some assign =>
          match rest with
          | [] => Returned (assign None config)
          | value :: rest' => parseLoop rest' (assign (Some value) config)
          end
      | None =>
          if jseqb arg (str "--help") then Exited 0
          else parseLoop rest config
      end
  end.

(** [argv] is [process.argv]. *)
Definition parseArgs (argv : list jsstring) : parsed Config :=
  parseLoop (sliceFrom argv 2) DEFAULT_CONFIG.

End BuildRagIndexCli.

(** [parseArgs] of build-rag-index-embeddings.js; [AWS_REGION] is
    [process.env.AWS_REGION]. *)
Module BuildRagIndexEmbeddingsCli.

Record Config : Type := {
  docsDir : option jsstring;
  blogDir : option jsstring;
  outputFile : option jsstring;
  chunkSize : chunkSizeValue;
  chunkOverlap : nat;
  embeddingModel : option jsstring;
  region : option jsstring;
  batchSize : nat;
  delayMs : nat
}.

Definition DEFAULT_CONFIG (AWS_REGION : option jsstring) : Config := {|
  docsDir := Some (str "./docs");
  blogDir := Some (str "./blog");
  outputFile := Some (str "./rag-index-embeddings.json");
  chunkSize := Number 512;
  chunkOverlap := 100;
  embeddingModel := Some (str "amazon.titan-embed-text-v2:0");
  region := Some (orElse AWS_REGION (str "us-east-1"));
  batchSize := 5;
  delayMs := 200
|}.

Definition assignment (arg : jsstring)
  : option (option jsstring -> Config -> Config) :=
  if jseqb arg (str "--docs") then
    Some (fun value config => {|
      docsDir := value; blogDir := blogDir config;
      outputFile := outputFile config; chunkSize := chunkSize config;
      chunkOverlap := chunkOverlap config;
      embeddingModel := embeddingModel config; region := region config;
      batchSize := batchSize config; delayMs := delayMs config |})
  else if jseqb arg (str "--blog") then
    Some (fun value config => {|
      docsDir := docsDir config; blogDir := value;
      outputFile := outputFile config; chunkSize := chunkSize config;
      chunkOverlap := chunkOverlap config;
      embeddingModel := embeddingModel config; region := region config;
      batchSize := batchSize config; delayMs := delayMs config |})
  else if jseqb arg (str "--output") then
    Some (fun value config => {|
      docsDir := docsDir config; blogDir := blogDir config;
      outputFile := value; chunkSize := chunkSize config;
      chunkOverlap := chunkOverlap config;
      embeddingModel := embeddingModel config; region := region config;
      batchSize := batchSize config; delayMs := delayMs config |})
  else if jseqb arg (str "--chunk-size") then
    Some (fun value config => {|
      docsDir := docsDir config; blogDir := blogDir config;
      outputFile := outputFile config; chunkSize := ParseInt value;
      chunkOverlap := chunkOverlap config;
      embeddingModel := embeddingModel config; region := region config;
      batchSize := batchSize config; delayMs := delayMs config |})
  else if jseqb arg (str "--region") then
    Some (fun value config => {|
      docsDir := docsDir config; blogDir := blogDir config;
      outputFile := outputFile config; chunkSize := chunkSize config;
      chunkOverlap := chunkOverlap config;
      embeddingModel := embeddingModel config; region := value;
      batchSize := batchSize config; delayMs := delayMs config |})
  else if jseqb arg (str "--model") then
    Some (fun value config => {|
      docsDir := docsDir config; blogDir := blogDir config;
      outputFile := outputFile config; chunkSize := chunkSize config;
      chunkOverlap := chunkOverlap config;
      embeddingModel := value; region := region config;
      batchSize := batchSize config; delayMs := delayMs config |})
  else None.

Fixpoint parseLoop (args : list jsstring) (config : Config)
  : parsed Config :=
  match args with
  | [] => Returned config
  | arg :: rest =>
      match assignment arg with
      | Some assign =>
          match rest with
          | [] => Returned (assign None config)
          | value :: rest' => parseLoop rest' (assign (Some value) config)
          end
      | None =>
          if jseqb arg (str "--help") then Exited 0
          else parseLoop rest config
      end
  end.

Definition parseArgs (AWS_REGION : option jsstring) (argv : list jsstring)
  : parsed Config :=
  parseLoop (sliceFrom argv 2) (DEFAULT_CONFIG AWS_REGION).

End BuildRagIndexEmbeddingsCli.

(** The arguments of [node build-rag-index.js --docs ./guide extra
    --chunk-size]. *)
Definition sampleArgv : list jsstring :=
  map str [ "node"; "build-rag-index.js"; "--docs"; "./guide"; "extra";
            "--chunk-size" ]%string.

(* ================================================================== *)
(** * Properties *)
(* ================================================================== *)

(** Evaluation of a closed term. *)
Ltac run := vm_compute; reflexivity.

(** ** Arrays *)

Lemma mapi_aux_length {A B} (f : A -> nat -> B) (l : list A) (i : nat) :
  length (mapi_aux f i l) = length l.
Proof.
  revert i; induction l as [|x l IH]; intros i; simpl; [reflexivity|].
  now rewrite IH.
Qed.

Lemma mapi_length {A B} (f : A -> nat -> B) (l : list A) :
  length (mapi f l) = length l.
Proof. apply mapi_aux_length. Qed.

Lemma mapi_aux_nth_error {A B} (f : A -> nat -> B) (l : list A) (i n : nat) :
  nth_error (mapi_aux f i l) n
  = option_map (fun x => f x (i + n)) (nth_error l n).
Proof.
  revert i n; induction l as [|x l IH]; intros i [|n]; simpl;
    try reflexivity.
  - now rewrite Nat.add_0_r.
  - rewrite IH. now replace (S i + n) with (i + S n) by lia.
Qed.

Lemma mapi_nth_error {A B} (f : A -> nat -> B) (l : list A) (n : nat) :
  nth_error (mapi f l) n = option_map (fun x => f x n) (nth_error l n).
Proof. apply (mapi_aux_nth_error f l 0 n). Qed.

Lemma mapi_aux_map {A B C} (g : B -> C) (f : A -> nat -> B) (l : list A)
  (i : nat) :
  map g (mapi_aux f i l) = mapi_aux (fun x n => g (f x n)) i l.
Proof.
  revert i; induction l as [|x l IH]; intros i; simpl; [reflexivity|].
  now rewrite IH.
Qed.

Lemma mapi_aux_index {A} (l : list A) (i : nat) :
  mapi_aux (fun _ n => n) i l = seq i (length l).
Proof.
  revert i; induction l as [|x l IH]; intros i; simpl; [reflexivity|].
  now rewrite IH.
Qed.

Lemma mapi_aux_value {A} (l : list A) (i : nat) :
  mapi_aux (fun x _ => x) i l = l.
Proof.
  revert i; induction l as [|x l IH]; intros i; simpl; [reflexivity|].
  now rewrite IH.
Qed.

Lemma mapi_In {A B} (f : A -> nat -> B) (l : list A) (y : B) :
  In y (mapi f l) -> exists x n, nth_error l n = Some x /\ y = f x n.
Proof.
  intros H. apply In_nth_error in H. destruct H as [n H].
  rewrite mapi_nth_error in H.
  destruct (nth_error l n) as [x|] eqn:E; [|discriminate].
  exists x, n. split; [exact E|]. simpl in H. congruence.
Qed.

Lemma slice_prefix {A} (l : list A) (n : nat) :
  slice l 0 (Z.of_nat n) = firstn n l.
Proof.
  unfold slice, relIndex. simpl.
  destruct (Z.ltb_spec (Z.of_nat n) 0) as [H|H]; [lia|].
  rewrite Nat2Z.id, Nat.sub_0_r.
  destruct (Nat.le_ge_cases n (length l)) as [L|L].
  - now rewrite Nat.min_l.
  - rewrite Nat.min_r by assumption.
    now rewrite !firstn_all2 by lia.
Qed.

(** ** Chunk identifiers *)

Lemma hexDigit_ok (n : N) : MD5.isHexDigit (MD5.hexDigit n) = true.
Proof.
  unfold MD5.hexDigit.
  assert (H : N.to_nat (n mod 16) < 16).
  { pose proof (N.mod_lt n 16). lia. }
  revert H. generalize (N.to_nat (n mod 16)). intros k H.
  do 16 (destruct k as [|k]; [reflexivity|]). lia.
Qed.

Lemma leBytes_length (count : nat) (x : N) :
  length (MD5.leBytes count x) = count.
Proof.
  revert x; induction count as [|count IH]; intros x; simpl;
    [reflexivity|]. now rewrite IH.
Qed.

Lemma hexBytes_length (l : list N) :
  length (flat_map MD5.hexByte l) = 2 * length l.
Proof. induction l as [|b l IH]; simpl; [reflexivity|]. rewrite IH. lia. Qed.

Lemma hexBytes_digits (l : list N) :
  forallb MD5.isHexDigit (flat_map MD5.hexByte l) = true.
Proof.
  induction l as [|b l IH]; [reflexivity|].
  cbn [flat_map MD5.hexByte app forallb].
  now rewrite !hexDigit_ok, IH.
Qed.

Lemma md5hex_length (s : jsstring) : length (MD5.md5hex s) = 32.
Proof.
  unfold MD5.md5hex, MD5.hex. rewrite hexBytes_length.
  rewrite !length_app, !leBytes_length. reflexivity.
Qed.

Lemma md5hex_digits (s : jsstring) :
  forallb MD5.isHexDigit (MD5.md5hex s) = true.
Proof. unfold MD5.md5hex, MD5.hex. apply hexBytes_digits. Qed.

Lemma slice8_shape (p : ascii -> bool) (h : jsstring) :
  length h = 32 -> forallb p h = true ->
  length (slice h 0 8) = 8 /\ forallb p (slice h 0 8) = true.
Proof.
  intros L D. change (slice h 0 8) with (slice h 0 (Z.of_nat 8)).
  rewrite (slice_prefix h 8). split.
  - rewrite length_firstn, L. reflexivity.
  - rewrite <- (firstn_skipn 8 h), forallb_app in D.
    now apply andb_true_iff in D.
Qed.

Lemma generateChunkId_shape (filePath : jsstring) (chunkIndex : nat) :
  length (generateChunkId filePath chunkIndex) = 8
  /\ forallb MD5.isHexDigit (generateChunkId filePath chunkIndex) = true.
Proof.
  unfold generateChunkId.
  apply slice8_shape; [apply md5hex_length | apply md5hex_digits].
Qed.

(** ** The records of one document *)

Section ProcessFile.

Context {P : PathApi}.

Lemma processFile_contents fs filePath config baseDir :
  map BuildRagIndex.content
    (BuildRagIndex.processFile fs filePath config baseDir)
  = chunkTexts (cleanedBody fs filePath)
      (BuildRagIndex.chunkSize config) (BuildRagIndex.chunkOverlap config).
Proof.
  unfold BuildRagIndex.processFile, chunkTexts, cleanedBody.
  destruct (BuildRagIndex.parseFrontmatter (readFile fs filePath))
    as [metadata body]. cbn [snd].
  destruct (negb _ || _); [reflexivity|].
  unfold mapi. rewrite mapi_aux_map. cbn [BuildRagIndex.content].
  apply mapi_aux_value.
Qed.

Lemma processFile_indices fs filePath config baseDir :
  let records := BuildRagIndex.processFile fs filePath config baseDir in
  map BuildRagIndex.chunkIndex records = seq 0 (length records)
  /\ Forall (fun r => BuildRagIndex.totalChunks r = length records) records
  /\ Forall (fun r => BuildRagIndex.id r
                      = generateChunkId filePath (BuildRagIndex.chunkIndex r))
       records
  /\ Forall (fun r => BuildRagIndex.chunkIndex r < BuildRagIndex.totalChunks r)
       records.
Proof.
  unfold BuildRagIndex.processFile.
  destruct (BuildRagIndex.parseFrontmatter (readFile fs filePath))
    as [metadata body].
  destruct (negb _ || _).
  { cbn. repeat split; constructor. }
  cbv zeta. set (texts := splitIntoChunks _ _ _).
  rewrite mapi_length. repeat split.
  - unfold mapi. rewrite mapi_aux_map. cbn [BuildRagIndex.chunkIndex].
    apply mapi_aux_index.
  - apply Forall_forall. intros r H. apply mapi_In in H.
    destruct H as (x & n & _ & ->). reflexivity.
  - apply Forall_forall. intros r H. apply mapi_In in H.
    destruct H as (x & n & _ & ->). reflexivity.
  - apply Forall_forall. intros r H. apply mapi_In in H.
    destruct H as (x & n & Hn & ->). cbn.
    apply nth_error_Some. congruence.
Qed.

Section Embeddings.

Variable Vector : Type.

Lemma processFileE_contents fs filePath config baseDir :
  map (BuildRagIndexEmbeddings.content Vector)
    (BuildRagIndexEmbeddings.processFile Vector fs filePath config baseDir)
  = chunkTexts (cleanedBodyE fs filePath)
      (BuildRagIndexEmbeddings.chunkSize config)
      (BuildRagIndexEmbeddings.chunkOverlap config).
Proof.
  unfold BuildRagIndexEmbeddings.processFile, chunkTexts, cleanedBodyE.
  destruct (BuildRagIndexEmbeddings.parseFrontmatter (readFile fs filePath))
    as [metadata body]. cbn [snd].
  destruct (negb _ || _); [reflexivity|].
  unfold mapi. rewrite mapi_aux_map. cbn [BuildRagIndexEmbeddings.content].
  apply mapi_aux_value.
Qed.

Lemma processFileE_indices fs filePath config baseDir :
  let records :=
    BuildRagIndexEmbeddings.processFile Vector fs filePath config baseDir in
  map (BuildRagIndexEmbeddings.chunkIndex Vector) records
  = seq 0 (length records)
  /\ Forall (fun r => BuildRagIndexEmbeddings.totalChunks Vector r
                      = length records) records
  /\ Forall (fun r => BuildRagIndexEmbeddings.id Vector r
                      = generateChunkId filePath
                          (BuildRagIndexEmbeddings.chunkIndex Vector r)
                      /\ BuildRagIndexEmbeddings.embedding Vector r = None)
       records
  /\ Forall (fun r => BuildRagIndexEmbeddings.chunkIndex Vector r
                      < BuildRagIndexEmbeddings.totalChunks Vector r)
       records.
Proof.
  unfold BuildRagIndexEmbeddings.processFile.
  destruct (BuildRagIndexEmbeddings.parseFrontmatter (readFile fs filePath))
    as [metadata body].
  destruct (negb _ || _).
  { cbn. repeat split; constructor. }
  cbv zeta. set (texts := splitIntoChunks _ _ _).
  rewrite mapi_length. repeat split.
  - unfold mapi. rewrite mapi_aux_map.
    cbn [BuildRagIndexEmbeddings.chunkIndex].
    apply mapi_aux_index.
  - apply Forall_forall. intros r H. apply mapi_In in H.
    destruct H as (x & n & _ & ->). reflexivity.
  - apply Forall_forall. intros r H. apply mapi_In in H.
    destruct H as (x & n & _ & ->). split; reflexivity.
  - apply Forall_forall. intros r H. apply mapi_In in H.
    destruct H as (x & n & Hn & ->). cbn.
    apply nth_error_Some. congruence.
Qed.

End Embeddings.

End ProcessFile.

(** ** The batch loop of the embedding script *)

Lemma mapi_aux_ext {A B} (f g : A -> nat -> B) (l : list A) (i : nat) :
  (forall x p, i <= p < i + length l -> f x p = g x p) ->
  mapi_aux f i l = mapi_aux g i l.
Proof.
  revert i; induction l as [|x l IH]; intros i H; simpl; [reflexivity|].
  rewrite (H x i) by (simpl; lia). f_equal.
  apply IH. intros y p Hp. apply H. simpl. lia.
Qed.

Lemma mapi_aux_compose {A B C} (f : B -> nat -> C) (g : A -> nat -> B)
  (l : list A) (i : nat) :
  mapi_aux f i (mapi_aux g i l) = mapi_aux (fun x p => f (g x p) p) i l.
Proof.
  revert i; induction l as [|x l IH]; intros i; simpl; [reflexivity|].
  now rewrite IH.
Qed.

Lemma flat_map_snd_merge {A B E} (f g h : A -> nat -> B * list E)
  (l : list A) (i : nat) :
  (forall x p, snd (f x p) ++ snd (g x p) = snd (h x p)) ->
  Permutation
    (flat_map snd (mapi_aux f i l) ++ flat_map snd (mapi_aux g i l))
    (flat_map snd (mapi_aux h i l)).
Proof.
  intros H. revert i; induction l as [|x l IH]; intros i; simpl.
  - constructor.
  - rewrite <- H, <- !app_assoc. apply Permutation_app_head.
    rewrite app_assoc.
    rewrite (Permutation_app_comm (flat_map snd (mapi_aux f (S i) l))).
    rewrite <- app_assoc. apply Permutation_app_head. apply IH.
Qed.

Section BatchLoop.

Import BuildRagIndexEmbeddings.

Variable Vector : Type.
Variable send : nat -> jsstring -> jsstring -> option Vector + jsstring.
Variable arrival : list ErrorRecord -> list ErrorRecord.
Hypothesis arrival_permutes : forall l, Permutation (arrival l) l.
Variable config : Config.
Hypothesis batchSize_positive : 0 < batchSize config.

Lemma embedBatch_step chunks0 i state :
  batchesDone send config chunks0 i state ->
  batchesDone send config chunks0 (i + batchSize config)
    (embedBatch Vector send arrival config i state).
Proof.
  destruct state as [chunks errors]. intros [Hc He].
  cbn [fst snd] in Hc, He.
  unfold embedBatch, batchesDone. cbv zeta. cbn [fst snd].
  subst chunks. unfold mapi in *.
  rewrite (mapi_aux_map fst (upTo send config i)), mapi_aux_compose.
  split.
  - rewrite !mapi_aux_map. apply mapi_aux_ext. intros x p _.
    unfold upTo, inBatch.
    destruct (Nat.ltb_spec p i), (Nat.leb_spec i p),
      (Nat.ltb_spec p (i + batchSize config)); try lia; reflexivity.
  - rewrite arrival_permutes, He.
    apply flat_map_snd_merge. intros x p.
    unfold upTo, inBatch.
    destruct (Nat.ltb_spec p i), (Nat.leb_spec i p),
      (Nat.ltb_spec p (i + batchSize config)); try lia; cbn [fst snd andb];
      now rewrite ?app_nil_r.
Qed.

Lemma embedAll_runs chunks0 fuel i state :
  batchesDone send config chunks0 i state ->
  0 < fuel -> length chunks0 < fuel + i ->
  exists errors,
    embedAll Vector send arrival fuel config i state
    = Some (map fst (mapi (embedChunk Vector send config) chunks0), errors)
    /\ Permutation errors
         (flat_map snd (mapi (embedChunk Vector send config) chunks0)).
Proof.
  revert i state; induction fuel as [|fuel IH];
    intros i state Inv Hpos Hfuel; [lia|].
  simpl. assert (Hlen : length (fst state) = length chunks0).
    { destruct Inv as [-> _]. now rewrite length_map, mapi_length. }
    rewrite Hlen. destruct (Nat.ltb_spec i (length chunks0)) as [Lt|Ge].
  - apply IH; [now apply embedBatch_step | lia | lia].
  - destruct state as [chunks errors]. destruct Inv as [Hc He].
    cbn [fst snd] in *. exists errors.
    assert (E : mapi (upTo send config i) chunks0
                = mapi (embedChunk Vector send config) chunks0).
    { apply mapi_aux_ext. intros x p Hp. unfold upTo.
      destruct (Nat.ltb_spec p i); [reflexivity | lia]. }
    rewrite E in Hc, He. subst chunks. split; [reflexivity | exact He].
Qed.

Lemma embedAll_from_start chunks0 fuel :
  length chunks0 < fuel ->
  exists errors,
    embedAll Vector send arrival fuel config 0 (chunks0, [])
    = Some (map fst (mapi (embedChunk Vector send config) chunks0), errors)
    /\ Permutation errors
         (flat_map snd (mapi (embedChunk Vector send config) chunks0)).
Proof.
  intros H. apply embedAll_runs; [|lia|lia].
  split; cbn [fst snd].
  - unfold mapi. rewrite mapi_aux_map.
    rewrite (mapi_aux_ext _ (fun x _ => x)); [now rewrite mapi_aux_value|].
    intros x p _. reflexivity.
  - unfold mapi.
    assert (E : forall (l : list (Chunk Vector)) k,
               flat_map snd (mapi_aux (upTo send config 0) k l) = []).
    { induction l as [|x l IHl]; intros k; simpl; [reflexivity|]. apply IHl. }
    rewrite E. constructor.
Qed.

(** Counting the failures and the successes of the handlers. *)
Lemma failures_counted (l : list (Chunk Vector)) (k : nat) :
  length (flat_map snd (mapi_aux (embedChunk Vector send config) k l))
  = length (filter isTrue (mapi_aux (requestFails send config) k l)).
Proof.
  revert k; induction l as [|x l IH]; intros k; simpl; [reflexivity|].
  rewrite length_app, IH. unfold BuildRagIndexEmbeddings.embedChunk, requestFails.
  destruct (generateEmbedding Vector send k _ _); reflexivity.
Qed.

Lemma successes_listed (l : list (Chunk Vector)) (k : nat) :
  Forall (fun c => embedding Vector c = None) l ->
  filter (hasEmbedding Vector)
    (map fst (mapi_aux (embedChunk Vector send config) k l))
  = concat (mapi_aux (fun chunk position =>
      match generateEmbedding Vector send position (content Vector chunk)
              (embeddingModel config) with
      | inl (Some v) => [withEmbedding Vector chunk v]
      | _ => []
      end) k l).
Proof.
  intros H. revert k; induction H as [|x l Hx Hl IH]; intros k; simpl;
    [reflexivity|].
  rewrite <- IH. unfold BuildRagIndexEmbeddings.embedChunk.
  destruct (generateEmbedding Vector send k _ _) as [[v|]|message];
    cbn [fst].
  - reflexivity.
  - reflexivity.
  - unfold hasEmbedding. now rewrite Hx.
Qed.

Lemma successes_counted (l : list (Chunk Vector)) (k : nat) :
  length (concat (mapi_aux (fun chunk position =>
      match generateEmbedding Vector send position (content Vector chunk)
              (embeddingModel config) with
      | inl (Some v) => [withEmbedding Vector chunk v]
      | _ => []
      end) k l))
  + length (filter isTrue (mapi_aux (requestFails send config) k l))
  + length (filter isTrue (mapi_aux (replyIsNull send config) k l))
  = length l.
Proof using Vector send config.
  clear arrival_permutes batchSize_positive.
  revert k; induction l as [|x l IH]; intros k; simpl; [reflexivity|].
  rewrite length_app. specialize (IH (S k)).
  unfold requestFails at 1. unfold replyIsNull at 1.
  destruct (generateEmbedding Vector send k _ _) as [[v|]|message];
    simpl; lia.
Qed.

End BatchLoop.

(** ** The claims on documents, records and the index *)

Lemma embeddedChunks_from {Vector : Type}
  (send : nat -> jsstring -> jsstring -> option Vector + jsstring)
  (config : BuildRagIndexEmbeddings.Config)
  (chunks : list (BuildRagIndexEmbeddings.Chunk Vector))
  (r : BuildRagIndexEmbeddings.Chunk Vector) :
  In r (embeddedChunks send config chunks) ->
  exists c v, In c chunks
    /\ r = BuildRagIndexEmbeddings.withEmbedding Vector c v.
Proof.
  unfold embeddedChunks. intros H. apply in_concat in H.
  destruct H as (l & Hl & Hr). apply mapi_In in Hl.
  destruct Hl as (c & n & Hn & ->).
  destruct (BuildRagIndexEmbeddings.generateEmbedding _ _ _ _ _)
    as [[v|]|message]; [|contradiction|contradiction].
  destruct Hr as [<-|[]]. exists c, v. split; [|reflexivity].
  eapply nth_error_In; eassumption.
Qed.

(** C10: the records of a document come in chunk order, the i-th record
    has [chunkIndex] i, every record has [totalChunks] equal to the number
    of records, and so [chunkIndex < totalChunks] holds for every record of
    a document and of the index, in both scripts. *)
Theorem records_numbered_in_order :
  forall (P : PathApi) (Vector : Type)
         (send : nat -> jsstring -> jsstring -> option Vector + jsstring)
         (fs : FileSystem) (filePath baseDir now : jsstring)
         (config : BuildRagIndex.Config)
         (configE : BuildRagIndexEmbeddings.Config),
    let records := BuildRagIndex.processFile fs filePath config baseDir in
    let recordsE :=
      BuildRagIndexEmbeddings.processFile Vector fs filePath configE baseDir in
    (map BuildRagIndex.content records
     = chunkTexts (cleanedBody fs filePath) (BuildRagIndex.chunkSize config)
         (BuildRagIndex.chunkOverlap config)
     /\ map BuildRagIndex.chunkIndex records = seq 0 (length records)
     /\ Forall (fun r => BuildRagIndex.totalChunks r = length records) records
     /\ Forall (fun r => BuildRagIndex.chunkIndex r
                         < BuildRagIndex.totalChunks r)
          (indexChunks BuildRagIndex.chunks
             (BuildRagIndex.main fs config now)))
    /\
    (map (BuildRagIndexEmbeddings.content Vector) recordsE
     = chunkTexts (cleanedBodyE fs filePath)
         (BuildRagIndexEmbeddings.chunkSize configE)
         (BuildRagIndexEmbeddings.chunkOverlap configE)
     /\ map (BuildRagIndexEmbeddings.chunkIndex Vector) recordsE
        = seq 0 (length recordsE)
     /\ Forall (fun r => BuildRagIndexEmbeddings.totalChunks Vector r
                         = length recordsE) recordsE
     /\ Forall (fun r => BuildRagIndexEmbeddings.chunkIndex Vector r
                         < BuildRagIndexEmbeddings.totalChunks Vector r)
          (embeddedChunks send configE
             (BuildRagIndexEmbeddings.collectChunks Vector fs configE))).
Proof.
  intros P Vector send fs filePath baseDir now config configE records recordsE.
  split.
  - destruct (processFile_indices fs filePath config baseDir)
      as (Hi & Ht & _ & _).
    repeat split; [apply processFile_contents | exact Hi | exact Ht |].
    unfold BuildRagIndex.main.
    destruct (_ =? 0); [constructor|]. cbn [indexChunks BuildRagIndex.chunks].
    apply Forall_flat_map, Forall_forall. intros file _.
    apply (processFile_indices fs file config).
  - destruct (processFileE_indices Vector fs filePath configE baseDir)
      as (Hi & Ht & _ & _).
    repeat split; [apply processFileE_contents | exact Hi | exact Ht |].
    apply Forall_forall. intros r Hr.
    apply embeddedChunks_from in Hr. destruct Hr as (c & v & Hc & ->).
    cbn. revert c Hc. apply Forall_forall.
    apply Forall_flat_map, Forall_forall. intros file _.
    apply (processFileE_indices Vector fs file configE).
Qed.

(** C4: a document whose normalized body is shorter than 50 characters
    contributes no chunk, in both scripts. *)
Theorem short_document_contributes_nothing :
  forall (P : PathApi) (Vector : Type) (fs : FileSystem)
         (filePath baseDir : jsstring),
    (forall config, length (cleanedBody fs filePath) < 50 ->
       BuildRagIndex.processFile fs filePath config baseDir = [])
    /\
    (forall config, length (cleanedBodyE fs filePath) < 50 ->
       BuildRagIndexEmbeddings.processFile Vector fs filePath config baseDir
       = []).
Proof.
  intros P Vector fs filePath baseDir. split; intros config H.
  - unfold BuildRagIndex.processFile. unfold cleanedBody in H.
    destruct (BuildRagIndex.parseFrontmatter (readFile fs filePath))
      as [metadata body]. cbn [snd] in H.
    apply Nat.ltb_lt in H. rewrite H, orb_true_r. reflexivity.
  - unfold BuildRagIndexEmbeddings.processFile. unfold cleanedBodyE in H.
    destruct (BuildRagIndexEmbeddings.parseFrontmatter (readFile fs filePath))
      as [metadata body]. cbn [snd] in H.
    apply Nat.ltb_lt in H. rewrite H, orb_true_r. reflexivity.
Qed.

Lemma short_document_witness :
  BuildRagIndex.processFile (P := node) (singleFileSite shortBody)
    (str "docs/a.md") BuildRagIndex.DEFAULT_CONFIG (str "./docs") = []
  /\ BuildRagIndexEmbeddings.processFile (P := node) nat
       (singleFileSite shortBody) (str "docs/a.md")
       BuildRagIndexEmbeddings.DEFAULT_CONFIG (str "./docs") = [].
Proof.
  destruct (short_document_contributes_nothing node nat
              (singleFileSite shortBody) (str "docs/a.md") (str "./docs"))
    as [HK HE].
  split.
  - apply HK. vm_compute. lia.
  - apply HE. vm_compute. lia.
Defined.

(** C6: the identifiers do not depend on the time of the run: two runs on
    the same files and configuration give the same identifiers, record by
    record; the identifier of a record is a function of the path of its
    file and of its chunk index, and is made of eight hexadecimal digits,
    in both scripts. *)
Theorem chunk_ids_deterministic :
  forall (P : PathApi) (Vector : Type) (fs : FileSystem)
         (filePath baseDir now1 now2 : jsstring)
         (config : BuildRagIndex.Config)
         (configE : BuildRagIndexEmbeddings.Config),
    map BuildRagIndex.id
      (indexChunks BuildRagIndex.chunks (BuildRagIndex.main fs config now1))
    = map BuildRagIndex.id
        (indexChunks BuildRagIndex.chunks (BuildRagIndex.main fs config now2))
    /\ Forall (fun r =>
         BuildRagIndex.id r
         = generateChunkId filePath (BuildRagIndex.chunkIndex r)
         /\ wellFormedId (BuildRagIndex.id r))
         (BuildRagIndex.processFile fs filePath config baseDir)
    /\ Forall (fun r =>
         BuildRagIndexEmbeddings.id Vector r
         = generateChunkId filePath
             (BuildRagIndexEmbeddings.chunkIndex Vector r)
         /\ wellFormedId (BuildRagIndexEmbeddings.id Vector r))
         (BuildRagIndexEmbeddings.processFile Vector fs filePath configE
            baseDir).
Proof.
  intros P Vector fs filePath baseDir now1 now2 config configE.
  repeat split.
  - unfold BuildRagIndex.main. destruct (_ =? 0); reflexivity.
  - destruct (processFile_indices fs filePath config baseDir)
      as (_ & _ & Hid & _).
    eapply Forall_impl; [|exact Hid]. intros r ->.
    split; [reflexivity | apply generateChunkId_shape].
  - destruct (processFileE_indices Vector fs filePath configE baseDir)
      as (_ & _ & Hid & _).
    eapply Forall_impl; [|exact Hid]. intros r [-> _].
    split; [reflexivity | apply generateChunkId_shape].
Qed.

(** C5 at a failing input: the files [docs/page-141628.md] and
    [docs/page-219279.md], one chunk each, get the same identifier
    [db0c320c], so the identifiers of the index are not distinct. *)
Theorem colliding_chunk_ids :
  let records :=
    indexChunks BuildRagIndex.chunks
      (BuildRagIndex.main (P := node)
         (twoFileSite (str "page-141628.md") (str "page-219279.md"))
         BuildRagIndex.DEFAULT_CONFIG timestamp) in
  map BuildRagIndex.id records = [str "db0c320c"; str "db0c320c"]
  /\ map BuildRagIndex.source records
     = [str "../docs/page-141628.md"; str "../docs/page-219279.md"]
  /\ ~ NoDup (map BuildRagIndex.id records).
Proof.
  assert (E : map BuildRagIndex.id
                (indexChunks BuildRagIndex.chunks
                   (BuildRagIndex.main (P := node)
                      (twoFileSite (str "page-141628.md")
                         (str "page-219279.md"))
                      BuildRagIndex.DEFAULT_CONFIG timestamp))
              = [str "db0c320c"; str "db0c320c"])
    by (vm_compute; reflexivity).
  cbv zeta. split; [|split].
  - exact E.
  - vm_compute; reflexivity.
  - rewrite E. intros H. inversion H as [|x l Hx _]. apply Hx. now left.
Qed.

(** C2, as the specification states it, fails when the service answers
    a request, without an error, by a reply whose [embedding] is [null]:
    of the two chunks produced here none fails, the second is answered
    with [null], and the index holds one chunk while [failedChunks] is 0;
    so no number [M] of failures gives both the [2 - M] chunks of the
    index and [failedChunks]. *)
Lemma null_reply_is_not_counted :
  exists index,
    BuildRagIndexEmbeddings.main (P := node) (list nat) (@length nat)
      firstThenNull (@rev _) 3 (twoFileSite (str "a.md") (str "b.md"))
      BuildRagIndexEmbeddings.DEFAULT_CONFIG timestamp
    = Some (Wrote (str "./rag-index-embeddings.json") index)
    /\ length (BuildRagIndexEmbeddings.collectChunks (P := node) (list nat)
                 (twoFileSite (str "a.md") (str "b.md"))
                 BuildRagIndexEmbeddings.DEFAULT_CONFIG) = 2
    /\ failedCount firstThenNull BuildRagIndexEmbeddings.DEFAULT_CONFIG
         (BuildRagIndexEmbeddings.collectChunks (P := node) (list nat)
            (twoFileSite (str "a.md") (str "b.md"))
            BuildRagIndexEmbeddings.DEFAULT_CONFIG) = 0
    /\ length (BuildRagIndexEmbeddings.chunks (list nat) index) = 1
    /\ BuildRagIndexEmbeddings.stats_failedChunks
         (BuildRagIndexEmbeddings.stats (list nat) index) = 0
    /\ ~ exists M,
           length (BuildRagIndexEmbeddings.chunks (list nat) index) = 2 - M
           /\ BuildRagIndexEmbeddings.stats_failedChunks
                (BuildRagIndexEmbeddings.stats (list nat) index) = M.
Proof.
  eexists. split; [run|]. split; [run|]. split; [run|].
  split; [run|]. split; [run|].
  intros (M & H1 & H2). vm_compute in H2. subst M. vm_compute in H1.
  discriminate H1.
Qed.

(** C2, amended: in an embedding-mode run that found files, with [N]
    chunks produced, [M] requests that fail and [K] requests answered
    with a reply whose [embedding] is [null], the run writes its index,
    whose chunks are the [N - M - K] chunks that were answered with an
    embedding, each with it; [stats.failedChunks] is [M].  When every
    request is answered with an embedding or fails, [K] is 0 and the
    index holds [N - M] chunks. *)
Theorem embedding_failures_dropped :
  forall (P : PathApi) (Vector : Type) (dimension : Vector -> nat)
         (send : nat -> jsstring -> jsstring -> option Vector + jsstring)
         (arrival : list BuildRagIndexEmbeddings.ErrorRecord
                    -> list BuildRagIndexEmbeddings.ErrorRecord)
         (fuel : nat) (fs : FileSystem)
         (config : BuildRagIndexEmbeddings.Config) (now : jsstring),
    (forall l, Permutation (arrival l) l) ->
    0 < BuildRagIndexEmbeddings.batchSize config ->
    findMarkdownFiles fs (BuildRagIndexEmbeddings.docsDir config)
    ++ findMarkdownFiles fs (BuildRagIndexEmbeddings.blogDir config) <> [] ->
    length (BuildRagIndexEmbeddings.collectChunks Vector fs config) < fuel ->
    let produced := BuildRagIndexEmbeddings.collectChunks Vector fs config in
    let N := length produced in
    let M := failedCount send config produced in
    let K := nullCount send config produced in
    exists index,
      BuildRagIndexEmbeddings.main Vector dimension send arrival fuel fs
        config now
      = Some (Wrote (BuildRagIndexEmbeddings.outputFile config) index)
      /\ BuildRagIndexEmbeddings.chunks Vector index
         = embeddedChunks send config produced
      /\ length (BuildRagIndexEmbeddings.chunks Vector index) = N - M - K
      /\ M + K <= N
      /\ BuildRagIndexEmbeddings.stats_failedChunks
           (BuildRagIndexEmbeddings.stats Vector index) = M
      /\ BuildRagIndexEmbeddings.stats_totalChunks
           (BuildRagIndexEmbeddings.stats Vector index) = N
      /\ BuildRagIndexEmbeddings.stats_successfulChunks
           (BuildRagIndexEmbeddings.stats Vector index) = N - M - K
      /\ Forall (fun c => BuildRagIndexEmbeddings.embedding Vector c <> None)
           (BuildRagIndexEmbeddings.chunks Vector index)
      /\ ((forall n text model, send n text model <> inl None) ->
          length (BuildRagIndexEmbeddings.chunks Vector index) = N - M).
Proof.
  intros P Vector dimension send arrival fuel fs config now
    Harrival Hbatch Hfiles Hfuel produced N M K.
  unfold BuildRagIndexEmbeddings.main.
  destruct (findMarkdownFiles fs (BuildRagIndexEmbeddings.docsDir config)
            ++ findMarkdownFiles fs (BuildRagIndexEmbeddings.blogDir config))
    as [|file files] eqn:Efiles; [contradiction|].
  cbn [nonEmpty negb]. fold produced.
  destruct (embedAll_from_start Vector send arrival Harrival config Hbatch
              produced fuel Hfuel) as (errors & -> & Herrors).
  assert (Hnull : Forall (fun c => BuildRagIndexEmbeddings.embedding Vector c
                                   = None) produced).
  { apply Forall_flat_map, Forall_forall. intros f _.
    destruct (processFileE_indices Vector fs f config
                (BuildRagIndexEmbeddings.baseDirOf config f))
      as (_ & _ & H & _).
    eapply Forall_impl; [|exact H]. now intros r [_ ?]. }
  pose proof (successes_listed Vector send config produced 0 Hnull) as Hok.
  pose proof (successes_counted Vector send config produced 0) as Hcount.
  pose proof (failures_counted Vector send config produced 0) as Hfail.
  fold (mapi (BuildRagIndexEmbeddings.embedChunk Vector send config) produced)
    in Hok, Hfail.
  assert (HK : (forall n text model, send n text model <> inl None) ->
               K = 0).
  { intros Hsend. subst K. unfold nullCount, mapi.
    assert (G : forall l k,
               length (filter isTrue
                         (mapi_aux (replyIsNull send config) k l)) = 0).
    { induction l as [|c l IH]; intros k; [reflexivity|].
      cbn [mapi_aux filter]. unfold replyIsNull at 1.
      unfold BuildRagIndexEmbeddings.generateEmbedding.
      destruct (send k _ _) as [[v|]|message] eqn:E;
        [apply IH | exfalso; eapply Hsend; exact E | apply IH]. }
    apply G. }
  eexists. split; [reflexivity|].
  cbn [BuildRagIndexEmbeddings.chunks BuildRagIndexEmbeddings.stats
       BuildRagIndexEmbeddings.stats_failedChunks
       BuildRagIndexEmbeddings.stats_totalChunks
       BuildRagIndexEmbeddings.stats_successfulChunks].
  rewrite Hok. unfold embeddedChunks, failedCount, nullCount, mapi in *.
  subst N M K. repeat split.
  - lia.
  - lia.
  - rewrite (Permutation_length Herrors). exact Hfail.
  - now rewrite length_map, mapi_aux_length.
  - lia.
  - apply Forall_forall. intros r Hr.
    apply (embeddedChunks_from send config produced) in Hr.
    destruct Hr as (c & v & _ & ->). discriminate.
  - intros Hsend. specialize (HK Hsend). lia.
Qed.

Lemma embedding_failures_witness :
  exists index,
    BuildRagIndexEmbeddings.main (P := node) (list nat) (@length nat)
      firstOnly (@rev _) 3 (twoFileSite (str "a.md") (str "b.md"))
      BuildRagIndexEmbeddings.DEFAULT_CONFIG timestamp
    = Some (Wrote (str "./rag-index-embeddings.json") index)
    /\ length (BuildRagIndexEmbeddings.chunks (list nat) index) = 1
    /\ BuildRagIndexEmbeddings.stats_failedChunks
         (BuildRagIndexEmbeddings.stats (list nat) index) = 1.
Proof.
  destruct (embedding_failures_dropped node (list nat) (@length nat)
              firstOnly (@rev _) 3 (twoFileSite (str "a.md") (str "b.md"))
              BuildRagIndexEmbeddings.DEFAULT_CONFIG timestamp)
    as (index & Hrun & _ & Hlen & _ & Hfailed & _).
  - intros l. symmetry. apply Permutation_rev.
  - vm_compute. lia.
  - vm_compute. discriminate.
  - vm_compute. lia.
  - exists index. split; [exact Hrun|]. split.
    + rewrite Hlen. vm_compute. reflexivity.
    + rewrite Hfailed. vm_compute. reflexivity.
Defined.

(** ** Frontmatter values *)

(** C9 at failing inputs: the embedding script removes the quote that
    ends the value [The "Intro"], and the quote that opens a value and is
    never closed, neither of them one of a pair around the value; the
    keyword script keeps both values as they are, but turns a value that
    is one lone quote character into the empty string. *)
Theorem unmatched_quote_removed :
  titleOfE (titledDocument quotedWord)
  = Some (str "The " ++ [dquote] ++ str "Intro")
  /\ titleOfE (titledDocument openQuote) = Some (str "Intro")
  /\ titleOf (titledDocument quotedWord) = Some quotedWord
  /\ titleOf (titledDocument openQuote) = Some openQuote
  /\ BuildRagIndex.unquote [dquote] = [].
Proof.
  split; [run|]. split; [run|]. split; [run|]. split; run.
Qed.

(** What does hold of a frontmatter line in both scripts: a line without
    a colon, or with a colon as its first character, changes nothing. *)
Lemma malformed_line_skipped (metadata : jsobject jsstring) (line : jsstring) :
  indexOf line ":" = None \/ indexOf line ":" = Some 0 ->
  BuildRagIndex.parseLine metadata line = metadata
  /\ BuildRagIndexEmbeddings.parseLine metadata line = metadata.
Proof.
  unfold BuildRagIndex.parseLine, BuildRagIndexEmbeddings.parseLine.
  intros [-> | ->]; split; reflexivity.
Qed.

Lemma slice_inner {A} (x y : A) (l : list A) :
  slice (x :: l ++ [y]) 1 (-1) = l.
Proof.
  unfold slice, relIndex.
  change (1 <? 0)%Z with false. change (-1 <? 0)%Z with true. cbv iota.
  cbn [length]. rewrite length_app. cbn [length].
  replace (Z.to_nat (Z.max (Z.of_nat (S (length l + 1)) + -1) 0))
    with (S (length l)) by lia.
  change (Z.to_nat 1) with 1.
  rewrite Nat.min_l by lia. cbn [skipn].
  replace (S (length l) - 1) with (length l) by lia.
  rewrite firstn_app, firstn_all, Nat.sub_diag. cbn [firstn].
  apply app_nil_r.
Qed.

(** The keyword script removes a pair of equal quotes around a value. *)
Lemma unquote_pair (q : ascii) (middle : jsstring) :
  q = dquote \/ q = "'"%char ->
  BuildRagIndex.unquote (q :: middle ++ [q]) = middle.
Proof.
  intros Hq. unfold BuildRagIndex.unquote.
  assert (E : (startsWith (q :: middle ++ [q]) [dquote]
               && endsWith (q :: middle ++ [q]) [dquote])
              || (startsWith (q :: middle ++ [q]) (str "'")
                  && endsWith (q :: middle ++ [q]) (str "'")) = true).
  { unfold endsWith. change (q :: middle ++ [q]) with ((q :: middle) ++ [q]).
    rewrite rev_app_distr. destruct Hq as [-> | ->]; reflexivity. }
  rewrite E. apply slice_inner.
Qed.

(** ** The chunker *)

(** C1 at failing inputs, with the default size 1000 and overlap 200:
    two sentences of 500 characters are joined into one chunk of 1001
    characters; after a sentence of 600 characters, a sentence of 798
    characters is put behind the last 40 words of the first, in a chunk of
    1039 characters. *)
Theorem oversized_chunks :
  split sentenceBoundary (sentence500 ++ str " " ++ sentence500)
  = [sentence500; sentence500]
  /\ length sentence500 = 500
  /\ splitIntoChunks (sentence500 ++ str " " ++ sentence500) 1000 200
     = [sentence500 ++ str " " ++ sentence500]
  /\ length (sentence500 ++ str " " ++ sentence500) = 1001
  /\ split sentenceBoundary (wordySentence 99 ++ str " " ++ wordySentence 132)
     = [wordySentence 99; wordySentence 132]
  /\ map (@length ascii)
       (splitIntoChunks (wordySentence 99 ++ str " " ++ wordySentence 132)
          1000 200)
     = [600; 1039].
Proof.
  split; [run|]. split; [run|]. split; [run|]. split; [run|].
  split; run.
Qed.

Lemma jseqb_eq (a b : jsstring) : jseqb a b = true <-> a = b.
Proof.
  revert b; induction a as [|x a IH]; intros [|y b]; simpl;
    try (split; [discriminate | discriminate]); [tauto|].
  rewrite andb_true_iff, Ascii.eqb_eq, IH. split.
  - now intros [-> ->].
  - intros E; injection E; auto.
Qed.

Lemma space_not_terminator (c : ascii) :
  isSpace c = true -> isTerminator c = false.
Proof.
  intros H. unfold isTerminator, isChar.
  destruct (Ascii.eqb_spec "." c) as [<-|_]; [discriminate H|].
  destruct (Ascii.eqb_spec "!" c) as [<-|_]; [discriminate H|].
  destruct (Ascii.eqb_spec "?" c) as [<-|_]; [discriminate H|].
  reflexivity.
Qed.

Lemma hasInk_app (a b : jsstring) : hasInk (a ++ b) = hasInk a || hasInk b.
Proof. apply existsb_app. Qed.

Lemma hasInk_rev (s : jsstring) : hasInk (rev s) = hasInk s.
Proof.
  induction s as [|c s IH]; [reflexivity|].
  simpl rev. rewrite hasInk_app, IH. simpl.
  rewrite orb_false_r. apply orb_comm.
Qed.

Lemma nonEmpty_rev {A} (l : list A) : nonEmpty (rev l) = nonEmpty l.
Proof.
  destruct l as [|x l]; [reflexivity|]. simpl.
  destruct (rev l); reflexivity.
Qed.

Lemma nonEmpty_dropWhile (s : jsstring) :
  nonEmpty (dropWhile isSpace s) = hasInk s.
Proof.
  induction s as [|c s IH]; [reflexivity|]. simpl.
  destruct (isSpace c); [exact IH | reflexivity].
Qed.

Lemma hasInk_dropWhile (s : jsstring) :
  hasInk (dropWhile isSpace s) = hasInk s.
Proof.
  induction s as [|c s IH]; [reflexivity|]. simpl.
  destruct (isSpace c) eqn:E; [exact IH|]. simpl. now rewrite E.
Qed.

Lemma nonEmpty_trim (s : jsstring) : nonEmpty (trim s) = hasInk s.
Proof.
  unfold trim.
  now rewrite nonEmpty_rev, nonEmpty_dropWhile, hasInk_rev, hasInk_dropWhile.
Qed.

Lemma trim_nil (s : jsstring) : trim s = [] <-> hasInk s = false.
Proof.
  rewrite <- nonEmpty_trim. destruct (trim s); simpl; split;
    congruence.
Qed.

Lemma dropWhile_prefix (p : ascii -> bool) (l : jsstring) :
  forallb p (firstn (length l - length (dropWhile p l)) l) = true.
Proof.
  induction l as [|x l IH]; [reflexivity|]. simpl dropWhile.
  destruct (p x) eqn:E.
  - assert (L : length (dropWhile p l) <= length l).
    { clear. induction l as [|y l IH]; simpl; [lia|].
      destruct (p y); simpl; lia. }
    replace (length (x :: l) - length (dropWhile p l))
      with (S (length l - length (dropWhile p l)))
      by (cbn [length]; lia).
    cbn [firstn forallb]. now rewrite E, IH.
  - now rewrite Nat.sub_diag.
Qed.

Lemma rmatch_chr {A} (p : ascii -> bool) (st : mstate)
  (k : mstate -> option A) :
  rmatch (Chr p) st k
  = match after st with
    | c :: rest =>
        if p c then k (MState (c :: before st) rest (cap st)) else None
    | [] => None
    end.
Proof. reflexivity. Qed.

Lemma rmatch_seq {A} (r1 r2 : regex) (st : mstate)
  (k : mstate -> option A) :
  rmatch (Seq r1 r2) st k = rmatch r1 st (fun st1 => rmatch r2 st1 k).
Proof. reflexivity. Qed.

Lemma rmatch_star {A} (greedy : bool) (r : regex) (st : mstate)
  (k : mstate -> option A) :
  rmatch (Star greedy r) st k
  = starLoop (rmatch r) greedy k (length (after st)) st.
Proof. reflexivity. Qed.

Lemma rmatch_lookBehind {A} (p : ascii -> bool) (st : mstate)
  (k : mstate -> option A) :
  rmatch (LookBehind p) st k
  = match before st with
    | c :: _ => if p c then k st else None
    | [] => None
    end.
Proof. reflexivity. Qed.

(** The greedy [\s*] behind a sentence terminator takes the whole run of
    white space. *)
Lemma starLoop_spaces (fuel : nat) (st : mstate) :
  length (after st) <= fuel ->
  exists st',
    starLoop (rmatch (Chr isSpace)) true (fun s => Some s) fuel st = Some st'
    /\ after st' = dropWhile isSpace (after st).
Proof.
  revert st; induction fuel as [|fuel IH]; intros [bef aft cp] H;
    cbn [after] in H.
  - destruct aft; [|simpl in H; lia]. exists (MState bef [] cp).
    split; reflexivity.
  - destruct aft as [|c rest].
    + exists (MState bef [] cp). split; reflexivity.
    + cbn [starLoop]. rewrite rmatch_chr. cbn [after before cap dropWhile].
      destruct (isSpace c) eqn:E.
      * assert (L : (length rest <? length (c :: rest)) = true)
          by (apply Nat.ltb_lt; simpl; lia).
        rewrite L.
        destruct (IH (MState (c :: bef) rest cp)) as (st' & -> & Hst').
        { simpl in *; lia. }
        exists st'. split; [reflexivity | exact Hst'].
      * exists (MState bef (c :: rest) cp). split; reflexivity.
Qed.

Lemma matchAt_sentenceBoundary (bef aft : jsstring) (st : mstate) :
  matchAt sentenceBoundary bef aft = Some st ->
  (exists t, hd_error bef = Some t /\ isTerminator t = true)
  /\ exists c rest,
       aft = c :: rest /\ isSpace c = true
       /\ after st = dropWhile isSpace rest.
Proof.
  unfold matchAt, sentenceBoundary, Plus.
  rewrite rmatch_seq, rmatch_lookBehind. cbn [before].
  destruct bef as [|t bef]; [discriminate|].
  destruct (isTerminator t) eqn:Et; [|discriminate].
  rewrite rmatch_seq, rmatch_chr. cbn [after before cap].
  destruct aft as [|c rest]; [discriminate|].
  destruct (isSpace c) eqn:Ec; [|discriminate].
  rewrite rmatch_star. cbn [after].
  intros H. split; [exists t; now split|]. exists c, rest.
  repeat split; [exact Ec|].
  destruct (starLoop_spaces (length rest) (MState (c :: t :: bef) rest None))
    as (st' & Hrun & Hst'); [reflexivity|].
  cbn [after] in Hrun, Hst'. rewrite Hrun in H. congruence.
Qed.

Lemma sentenceBoundary_takes_spaces (bef aft : jsstring) (st : mstate) :
  matchAt sentenceBoundary bef aft = Some st ->
  forallb isSpace (firstn (consumed aft st) aft) = true.
Proof.
  intros H. apply matchAt_sentenceBoundary in H.
  destruct H as (_ & c & rest & -> & Ec & Hst).
  unfold consumed. rewrite Hst.
  replace (dropWhile isSpace rest) with (dropWhile isSpace (c :: rest))
    by (simpl; now rewrite Ec).
  apply dropWhile_prefix.
Qed.

(** Splitting at separators made of white space keeps every other
    character in some piece. *)
Lemma split_aux_ink (r : regex) :
  (forall bef aft st, matchAt r bef aft = Some st ->
     forallb isSpace (firstn (consumed aft st) aft) = true) ->
  forall aft bef cur skip,
    forallb isSpace (firstn skip aft) = true ->
    existsb hasInk (split_aux r bef cur skip aft) = hasInk cur || hasInk aft.
Proof.
  intros Hr. induction aft as [|c rest IH]; intros bef cur skip Hskip.
  - simpl. now rewrite hasInk_rev, !orb_false_r.
  - destruct skip as [|skip].
    + cbn [split_aux].
      destruct (matchAt r bef (c :: rest)) as [st|] eqn:Em.
      * pose proof (Hr _ _ _ Em) as Hws.
        destruct (consumed (c :: rest) st) as [|n].
        -- destruct cur as [|x cur].
           ++ rewrite IH by reflexivity. simpl. now rewrite orb_false_r.
           ++ cbn [existsb]. rewrite IH by reflexivity.
              rewrite hasInk_rev. simpl.
              now rewrite orb_false_r.
        -- cbn [firstn forallb] in Hws. apply andb_true_iff in Hws.
           destruct Hws as [Hc Hn].
           cbn [existsb]. rewrite IH by exact Hn.
           rewrite hasInk_rev. simpl. now rewrite Hc.
      * rewrite IH by reflexivity. simpl.
        now rewrite orb_assoc, (orb_comm (negb (isSpace c))).
    + cbn [split_aux]. cbn [firstn forallb] in Hskip.
      apply andb_true_iff in Hskip. destruct Hskip as [Hc Hn].
      rewrite IH by exact Hn. simpl. now rewrite Hc.
Qed.

Lemma sentences_keep_ink (content : jsstring) :
  existsb hasInk (split sentenceBoundary content) = hasInk content.
Proof.
  destruct content as [|c rest]; [reflexivity|].
  unfold split.
  rewrite (split_aux_ink sentenceBoundary sentenceBoundary_takes_spaces)
    by reflexivity.
  reflexivity.
Qed.

(** White space alone has no sentence boundary. *)
Lemma split_aux_blank (aft bef cur : jsstring) :
  hasInk bef = false -> hasInk aft = false ->
  split_aux sentenceBoundary bef cur 0 aft = [rev cur ++ aft].
Proof.
  revert bef cur; induction aft as [|c rest IH]; intros bef cur Hb Ha.
  - simpl. now rewrite app_nil_r.
  - cbn [split_aux].
    destruct (matchAt sentenceBoundary bef (c :: rest)) as [st|] eqn:Em.
    + apply matchAt_sentenceBoundary in Em.
      destruct Em as ((t & Ht & Hterm) & _).
      destruct bef as [|b bef]; [discriminate|].
      injection Ht as ->. simpl in Hb. apply orb_false_iff in Hb.
      destruct Hb as [Hb _]. apply negb_false_iff in Hb.
      apply space_not_terminator in Hb. congruence.
    + simpl in Ha. apply orb_false_iff in Ha. destruct Ha as [Hc Ha].
      rewrite IH; [|simpl; now rewrite Hc, Hb | exact Ha].
      simpl. now rewrite <- app_assoc.
Qed.

Lemma blank_is_one_sentence (content : jsstring) :
  hasInk content = false -> split sentenceBoundary content = [content].
Proof.
  intros H. destruct content as [|c rest]; [reflexivity|].
  unfold split. now rewrite split_aux_blank.
Qed.

(** Once a chunk is closed or the buffer holds a visible character, the
    loop keeps it so. *)
Lemma chunkStep_keeps (chunkSize overlap : nat)
  (state : list jsstring * jsstring) (sentence : jsstring) :
  let state' := chunkStep chunkSize overlap state sentence in
  nonEmpty (fst state) || hasInk (snd state) || hasInk sentence = true ->
  nonEmpty (fst state') || hasInk (snd state') = true.
Proof.
  destruct state as [chunks cur]. unfold chunkStep.
  destruct (_ && _); cbn [fst snd]; intros H.
  - destruct chunks; reflexivity.
  - rewrite !hasInk_app.
    destruct (nonEmpty chunks), (hasInk cur), (hasInk sentence);
      try discriminate; try reflexivity; simpl; now rewrite ?orb_true_r.
Qed.

Lemma chunkLoop_keeps (chunkSize overlap : nat) (sentences : list jsstring) :
  forall state,
    nonEmpty (fst state) || hasInk (snd state) || existsb hasInk sentences
    = true ->
    let state' := fold_left (chunkStep chunkSize overlap) sentences state in
    nonEmpty (fst state') || hasInk (snd state') = true.
Proof.
  induction sentences as [|s rest IH]; intros state H.
  - simpl in *. now rewrite orb_false_r in H.
  - simpl. apply IH.
    destruct (nonEmpty (fst state) || hasInk (snd state) || hasInk s) eqn:E.
    + pose proof (chunkStep_keeps chunkSize overlap state s E) as K.
      cbv zeta in K. now rewrite K.
    + simpl in H. apply orb_false_iff in E. destruct E as [E Es].
      rewrite E, Es in H. simpl in H. rewrite H. apply orb_true_r.
Qed.

(** What the size test does ensure: a chunk is the trimmed form of a
    buffer of at most [chunkSize + 1] characters, or of a buffer that
    holds one sentence behind the overlap words. *)
Lemma dropWhile_length {A} (p : A -> bool) (l : list A) :
  length (dropWhile p l) <= length l.
Proof.
  induction l as [|x l IH]; simpl; [lia|]. destruct (p x); simpl; lia.
Qed.

Lemma trim_length (s : jsstring) : length (trim s) <= length s.
Proof.
  unfold trim. rewrite length_rev.
  etransitivity; [apply dropWhile_length|]. rewrite length_rev.
  apply dropWhile_length.
Qed.

Lemma chunkStep_bounded (sentences : list jsstring) (chunkSize overlap : nat)
  (state : list jsstring * jsstring) (sentence : jsstring) :
  In sentence sentences ->
  Forall (fun c => exists b, c = trim b
                    /\ boundedOrSeeded sentences chunkSize b) (fst state) ->
  boundedOrSeeded sentences chunkSize (snd state) ->
  let state' := chunkStep chunkSize overlap state sentence in
  Forall (fun c => exists b, c = trim b
                    /\ boundedOrSeeded sentences chunkSize b) (fst state')
  /\ boundedOrSeeded sentences chunkSize (snd state').
Proof.
  destruct state as [chunks cur]. cbn [fst snd]. intros Hs Hchunks Hcur.
  unfold chunkStep.
  destruct (chunkSize <? length cur + length sentence) eqn:Big;
    destruct (0 <? length cur) eqn:Full; cbn [andb fst snd].
  - split.
    + apply Forall_app. split; [exact Hchunks|].
      constructor; [|constructor]. now exists cur.
    + right. eexists _, sentence. split; [exact Hs|].
      rewrite app_assoc. reflexivity.
  - split; [exact Hchunks|]. right. exists [], sentence.
    apply Nat.ltb_ge in Full. destruct cur; [|simpl in Full; lia].
    now split.
  - split; [exact Hchunks|]. left. apply Nat.ltb_ge in Big.
    rewrite !length_app. destruct cur; simpl in *; lia.
  - split; [exact Hchunks|]. right. exists [], sentence.
    apply Nat.ltb_ge in Full. destruct cur; [|simpl in Full; lia].
    now split.
Qed.

Lemma chunkLoop_bounded (sentences : list jsstring) (chunkSize overlap : nat)
  (rest : list jsstring) :
  incl rest sentences ->
  forall state,
    Forall (fun c => exists b, c = trim b
                      /\ boundedOrSeeded sentences chunkSize b) (fst state) ->
    boundedOrSeeded sentences chunkSize (snd state) ->
    let state' := fold_left (chunkStep chunkSize overlap) rest state in
    Forall (fun c => exists b, c = trim b
                      /\ boundedOrSeeded sentences chunkSize b) (fst state')
    /\ boundedOrSeeded sentences chunkSize (snd state').
Proof.
  induction rest as [|s rest IH]; intros Hincl state Hchunks Hcur; simpl.
  - now split.
  - destruct (chunkStep_bounded sentences chunkSize overlap state s)
      as [H1 H2]; [apply Hincl; now left | exact Hchunks | exact Hcur |].
    apply IH; [intros x Hx; apply Hincl; now right | exact H1 | exact H2].
Qed.

Lemma chunks_bounded_or_seeded (content : jsstring) (chunkSize overlap : nat) :
  Forall (fun c =>
    length c <= chunkSize + 1
    \/ exists tail sentence,
         In sentence (split sentenceBoundary content)
         /\ c = trim (tail ++ sentence))
    (splitIntoChunks content chunkSize overlap).
Proof.
  unfold splitIntoChunks.
  pose proof (chunkLoop_bounded (split sentenceBoundary content) chunkSize
                overlap (split sentenceBoundary content) (incl_refl _)
                ([], [])) as H.
  cbv zeta in H. destruct (fold_left _ _ _) as [chunks cur].
  destruct H as [Hchunks Hcur]; cbn [fst snd];
    [constructor | left; simpl; lia |].
  cbn [fst snd] in Hchunks, Hcur.
  assert (G : forall l,
            Forall (fun c => exists b, c = trim b
              /\ boundedOrSeeded (split sentenceBoundary content) chunkSize b)
              l ->
            Forall (fun c =>
              length c <= chunkSize + 1
              \/ exists tail sentence,
                   In sentence (split sentenceBoundary content)
                   /\ c = trim (tail ++ sentence)) l).
  { intros l Hl. eapply Forall_impl; [|exact Hl].
    intros c (b & -> & [Hb|(tail & s & Hs & ->)]).
    - left. pose proof (trim_length b). lia.
    - right. now exists tail, s. }
  destruct (nonEmpty (trim cur)); apply G; [|exact Hchunks].
  apply Forall_app. split; [exact Hchunks|].
  constructor; [|constructor]. now exists cur.
Qed.

(** C8, as stated, fails: a string of one space is not empty, and the
    chunker returns no chunk for it. *)
Lemma blank_input_yields_no_chunk :
  splitIntoChunks (str " ") 1000 200 = [] /\ str " " <> [].
Proof. split; [vm_compute; reflexivity | discriminate]. Qed.

(** C8, amended: the chunker returns no chunk exactly when the input is
    empty or made of white space only (its trimmed form is empty). *)
Theorem no_chunk_iff_blank :
  forall (content : jsstring) (chunkSize overlap : nat),
    splitIntoChunks content chunkSize overlap = [] <-> trim content = [].
Proof.
  intros content chunkSize overlap. rewrite trim_nil. split.
  - intros H. destruct (hasInk content) eqn:E; [|reflexivity]. exfalso.
    unfold splitIntoChunks in H.
    pose proof (chunkLoop_keeps chunkSize overlap
                  (split sentenceBoundary content) ([], [])) as K.
    cbv zeta in K. rewrite sentences_keep_ink, E in K.
    specialize (K eq_refl).
    destruct (fold_left _ _ _) as [chunks cur]. cbn [fst snd] in K.
    rewrite nonEmpty_trim in H.
    destruct (hasInk cur).
    + destruct chunks; discriminate H.
    + rewrite orb_false_r in K. subst chunks. discriminate K.
  - intros E. unfold splitIntoChunks.
    rewrite (blank_is_one_sentence content E).
    cbn [fold_left]. unfold chunkStep.
    change (0 <? length (@nil ascii)) with false.
    rewrite andb_false_r. cbn [nonEmpty app].
    rewrite nonEmpty_trim. now rewrite E.
Qed.

Lemma blank_input_witness : splitIntoChunks (str "  ") 1000 200 = [].
Proof.
  apply (no_chunk_iff_blank (str "  ") 1000 200). vm_compute. reflexivity.
Defined.

(** ** Objects used as maps *)

Lemma getProp_None {V} (o : jsobject V) (key : jsstring) :
  getProp o key = None <-> ~ In key (map fst o).
Proof.
  induction o as [|[k v] o IH]; simpl; [tauto|].
  destruct (jseqb k key) eqn:E.
  - apply jseqb_eq in E. split; [discriminate | intros H; exfalso; auto].
  - rewrite IH. split; [|tauto]. intros H [K|K]; [|auto].
    apply jseqb_eq in K. congruence.
Qed.

Lemma getProp_Some {V} (o : jsobject V) (key : jsstring) (v : V) :
  getProp o key = Some v -> In (key, v) o.
Proof.
  induction o as [|[k w] o IH]; simpl; [discriminate|].
  destruct (jseqb k key) eqn:E.
  - apply jseqb_eq in E. intros [= ->]. left. now subst.
  - auto.
Qed.

Lemma putProp_new {V} (o : jsobject V) (key : jsstring) (v : V) :
  getProp o key = None -> putProp o key v = o ++ [(key, v)].
Proof.
  induction o as [|[k w] o IH]; simpl; [reflexivity|].
  destruct (jseqb k key); [discriminate|]. intros H. now rewrite IH.
Qed.

Lemma putProp_keys {V} (o : jsobject V) (key : jsstring) (v w : V) :
  getProp o key = Some w -> map fst (putProp o key v) = map fst o.
Proof.
  induction o as [|[k x] o IH]; simpl; [discriminate|].
  destruct (jseqb k key); [reflexivity|]. intros H. simpl. now rewrite IH.
Qed.

Lemma putProp_In {V} (o : jsobject V) (key : jsstring) (v : V)
  (k : jsstring) (x : V) :
  NoDup (map fst o) -> In (k, x) (putProp o key v) ->
  (k = key /\ x = v) \/ (k <> key /\ In (k, x) o).
Proof.
  induction o as [|[k0 x0] o IH]; simpl; intros ND H.
  - destruct H as [[= <- <-]|[]]. now left.
  - inversion ND as [|? ? Hk0 ND']; subst.
    destruct (jseqb k0 key) eqn:E.
    + apply jseqb_eq in E. subst k0. destruct H as [[= <- <-]|H].
      * now left.
      * right. split; [|now right]. intros ->. apply Hk0.
        apply (in_map fst) in H. exact H.
    + destruct H as [[= <- <-]|H].
      * right. split; [|now left]. intros ->.
        rewrite (proj2 (jseqb_eq key key) eq_refl) in E. discriminate.
      * destruct (IH ND' H) as [?|[? ?]]; [now left | right; auto].
Qed.

(** ** Counting words *)

Lemma jseqb_refl (a : jsstring) : jseqb a a = true.
Proof. now apply jseqb_eq. Qed.

Lemma jseqb_neq (a b : jsstring) : a <> b -> jseqb a b = false.
Proof.
  intros H. destruct (jseqb a b) eqn:E; [|reflexivity].
  apply jseqb_eq in E. contradiction.
Qed.

Lemma countOf_snoc (seen : list jsstring) (w k : jsstring) :
  countOf (seen ++ [w]) k = countOf seen k + (if jseqb k w then 1 else 0).
Proof.
  unfold countOf. rewrite filter_app, length_app. simpl.
  destruct (jseqb k w); reflexivity.
Qed.

Lemma countOf_absent (seen : list jsstring) (w : jsstring) :
  ~ In w seen -> countOf seen w = 0.
Proof.
  unfold countOf. induction seen as [|x seen IH]; simpl; [reflexivity|].
  intros H. rewrite jseqb_neq by (intros ->; apply H; now left).
  apply IH. tauto.
Qed.

Lemma firstIndex_present (seen rest : list jsstring) (k : jsstring) :
  In k seen ->
  firstIndex (seen ++ rest) k = firstIndex seen k
  /\ firstIndex seen k < length seen.
Proof.
  induction seen as [|x seen IH]; simpl; [contradiction|].
  intros H. destruct (jseqb x k) eqn:E; [split; [reflexivity|lia]|].
  destruct H as [->|H]; [now rewrite jseqb_refl in E|].
  destruct (IH H) as [-> L]. split; [reflexivity | lia].
Qed.

Lemma firstIndex_absent (seen : list jsstring) (w : jsstring) :
  ~ In w seen -> firstIndex (seen ++ [w]) w = length seen.
Proof.
  induction seen as [|x seen IH]; simpl; intros H.
  - now rewrite jseqb_refl.
  - rewrite jseqb_neq by (intros ->; apply H; now left).
    rewrite IH by tauto. reflexivity.
Qed.

(** ** Sorted lists *)

Lemma StronglySorted_within {A} (R R' : A -> A -> Prop) (l : list A) :
  (forall a b, In a l -> In b l -> R a b -> R' a b) ->
  StronglySorted R l -> StronglySorted R' l.
Proof.
  intros H S. induction S as [|a l S IH Ha]; constructor.
  - apply IH. intros x y Hx Hy. apply H; now right.
  - rewrite Forall_forall in *. intros b Hb.
    apply H; [now left | now right | auto].
Qed.

Lemma StronglySorted_app {A} (R : A -> A -> Prop) (l1 l2 : list A) :
  StronglySorted R l1 -> StronglySorted R l2 ->
  (forall a b, In a l1 -> In b l2 -> R a b) ->
  StronglySorted R (l1 ++ l2).
Proof.
  intros S1 S2 H. induction S1 as [|a l S IH Ha]; simpl; [exact S2|].
  constructor.
  - apply IH. intros x y Hx Hy. apply H; [now right | exact Hy].
  - apply Forall_app. split; [exact Ha|].
    apply Forall_forall. intros b Hb. apply H; [now left | exact Hb].
Qed.



(** ** The object [frequency] *)

Lemma bump_is_put (frequency : jsobject BuildRagIndex.freqValue)
  (word : jsstring) :
  exists v, BuildRagIndex.bump frequency word = putProp frequency word v.
Proof.
  unfold BuildRagIndex.bump.
  destruct (getProp frequency word) as [[n|[|c s]]|];
    [eexists; reflexivity ..|].
  destruct (jseqb word (str "constructor")); eexists; reflexivity.
Qed.

Lemma countsWords_nil : countsWords [] [].
Proof.
  repeat split; simpl; try constructor; try tauto.
Qed.

Lemma countsWords_step (seen : list jsstring)
  (frequency : jsobject BuildRagIndex.freqValue) (w : jsstring) :
  countsWords seen frequency ->
  countsWords (seen ++ [w]) (BuildRagIndex.bump frequency w).
Proof.
  intros (ND & Hkeys & Hsorted & Hcount).
  destruct (getProp frequency w) as [old|] eqn:G.
  - (* the word is a key already *)
    assert (Hw : In w seen).
    { apply Hkeys. apply getProp_Some in G.
      apply (in_map fst) in G. exact G. }
    destruct (bump_is_put frequency w) as (v & Ev).
    assert (K : map fst (BuildRagIndex.bump frequency w) = map fst frequency).
    { rewrite Ev. eapply putProp_keys. eassumption. }
    unfold countsWords. rewrite K. repeat split.
    + exact ND.
    + intros H. apply in_or_app. left. now apply Hkeys.
    + intros H. apply Hkeys. apply in_app_or in H.
      destruct H as [H|[<-|[]]]; [exact H | exact Hw].
    + eapply StronglySorted_within; [|exact Hsorted].
      intros a b Ha Hb. apply Hkeys in Ha, Hb.
      destruct (firstIndex_present seen [w] a Ha) as [-> _].
      destruct (firstIndex_present seen [w] b Hb) as [-> _]. auto.
    + intros Hno k x Hin.
      assert (Hno' : ~ In (str "constructor") seen).
      { intros H. apply Hno. apply in_or_app. now left. }
      specialize (Hcount Hno').
      pose proof (Hcount w old (getProp_Some _ _ _ G)) as ->.
      unfold BuildRagIndex.bump in Hin. rewrite G in Hin.
      apply putProp_In in Hin; [|exact ND].
      rewrite countOf_snoc. destruct Hin as [[-> ->]|[Hk Hin]].
      * now rewrite jseqb_refl.
      * rewrite (jseqb_neq _ _ Hk), Nat.add_0_r. now apply Hcount.
  - (* a new key, added behind the others *)
    assert (Hw : ~ In w seen).
    { intros H. apply Hkeys in H. now apply getProp_None in G. }
    assert (Hnew : forall v, putProp frequency w v = frequency ++ [(w, v)]).
    { intros v. now apply putProp_new. }
    destruct (bump_is_put frequency w) as (v & Ev).
    assert (K : map fst (BuildRagIndex.bump frequency w)
                = map fst frequency ++ [w]).
    { rewrite Ev, Hnew, map_app. reflexivity. }
    unfold countsWords. rewrite K. repeat split.
    + apply NoDup_app; [exact ND | repeat constructor; simpl; tauto |].
      intros a Ha [<-|[]]. apply Hw. now apply Hkeys.
    + intros H. apply in_app_or in H. apply in_or_app.
      destruct H as [H|H]; [left; now apply Hkeys | now right].
    + intros H. apply in_app_or in H. apply in_or_app.
      destruct H as [H|H]; [left; now apply Hkeys | now right].
    + apply StronglySorted_app.
      * eapply StronglySorted_within; [|exact Hsorted].
        intros a b Ha Hb. apply Hkeys in Ha, Hb.
        destruct (firstIndex_present seen [w] a Ha) as [-> _].
        destruct (firstIndex_present seen [w] b Hb) as [-> _]. auto.
      * repeat constructor.
      * intros a b Ha [<-|[]]. apply Hkeys in Ha.
        destruct (firstIndex_present seen [w] a Ha) as [-> L].
        now rewrite firstIndex_absent.
    + intros Hno k x Hin.
      assert (Hno' : ~ In (str "constructor") seen).
      { intros H. apply Hno. apply in_or_app. now left. }
      specialize (Hcount Hno').
      unfold BuildRagIndex.bump in Hin. rewrite G in Hin.
      rewrite jseqb_neq in Hin.
      2:{ intros ->. apply Hno. apply in_or_app. right. now left. }
      rewrite Hnew in Hin. apply in_app_or in Hin.
      rewrite countOf_snoc. destruct Hin as [Hin|[[= <- <-]|[]]].
      * rewrite jseqb_neq, Nat.add_0_r; [now apply Hcount|].
        intros ->. apply Hw, Hkeys.
        apply (in_map fst) in Hin. exact Hin.
      * now rewrite jseqb_refl, countOf_absent.
Qed.

Lemma countsWords_fold (rest seen : list jsstring)
  (frequency : jsobject BuildRagIndex.freqValue) :
  countsWords seen frequency ->
  countsWords (seen ++ rest) (fold_left BuildRagIndex.bump rest frequency).
Proof.
  revert seen frequency; induction rest as [|w rest IH];
    intros seen frequency H; simpl.
  - now rewrite app_nil_r.
  - replace (seen ++ w :: rest) with ((seen ++ [w]) ++ rest)
      by now rewrite <- app_assoc.
    apply IH. now apply countsWords_step.
Qed.

Lemma frequencyOf_counts (words : list jsstring) :
  countsWords words (BuildRagIndex.frequencyOf words).
Proof. apply (countsWords_fold words [] []), countsWords_nil. Qed.

(** ** [Array.prototype.sort] with a consistent comparison *)

Section StableSort.

Variable A : Type.
Variable comparefn : A -> A -> option Z.
Variable weight : A -> nat.
Variable Q : A -> A -> Prop.

Lemma insertSorted_permutes (x : A) (l : list A) :
  Permutation (BuildRagIndex.insertSorted comparefn x l) (x :: l).
Proof.
  induction l as [|y l IH]; simpl; [reflexivity|].
  destruct (BuildRagIndex.comesBefore comparefn x y); [reflexivity|].
  rewrite IH. apply perm_swap.
Qed.

Lemma sort_permutes_from (l acc : list A) :
  Permutation
    (fold_left (fun sorted x => BuildRagIndex.insertSorted comparefn x sorted)
       l acc)
    (acc ++ l).
Proof.
  revert acc; induction l as [|x l IH]; intros acc; simpl.
  - now rewrite app_nil_r.
  - rewrite IH, insertSorted_permutes. apply Permutation_middle.
Qed.

Lemma sort_permutes (l : list A) :
  Permutation (BuildRagIndex.sort comparefn l) l.
Proof. apply (sort_permutes_from l []). Qed.




End StableSort.

(** ** [Object.entries] *)

Lemma insertIndex_permutes {V} (e : N * (jsstring * V))
  (l : list (N * (jsstring * V))) :
  Permutation (BuildRagIndex.insertIndex e l) (e :: l).
Proof.
  induction l as [|x l IH]; simpl; [reflexivity|].
  destruct (fst e <? fst x)%N; [reflexivity|].
  rewrite IH. apply perm_swap.
Qed.

Lemma insertIndex_sorted {V} (e : N * (jsstring * V))
  (l : list (N * (jsstring * V))) :
  StronglySorted (fun x y => (fst x <= fst y)%N) l ->
  StronglySorted (fun x y => (fst x <= fst y)%N)
    (BuildRagIndex.insertIndex e l).
Proof.
  intros S. induction S as [|x l S IH Hx]; simpl.
  - repeat constructor.
  - destruct (N.ltb_spec (fst e) (fst x)) as [Lt|Ge].
    + constructor; [now constructor|]. constructor; [lia|].
      rewrite Forall_forall in *. intros z Hz. specialize (Hx z Hz). lia.
    + constructor; [exact IH|]. apply Forall_forall. intros z Hz.
      apply (Permutation_in _ (insertIndex_permutes e l)) in Hz.
      destruct Hz as [<-|Hz]; [lia|].
      rewrite Forall_forall in Hx. now apply Hx.
Qed.

Lemma indexOrder_sorted {V} (l : list (N * (jsstring * V))) :
  StronglySorted (fun x y => (fst x <= fst y)%N)
    (fold_right BuildRagIndex.insertIndex [] l)
  /\ Permutation (fold_right BuildRagIndex.insertIndex [] l) l.
Proof.
  induction l as [|e l [S P]]; simpl; [split; constructor|]. split.
  - now apply insertIndex_sorted.
  - rewrite insertIndex_permutes. now constructor.
Qed.


Lemma indexEntries_snd {V} (o : jsobject V) :
  map snd (BuildRagIndex.indexEntries o)
  = filter (fun e => BuildRagIndex.isIndexKey (fst e)) o.
Proof.
  unfold BuildRagIndex.indexEntries, BuildRagIndex.isIndexKey.
  induction o as [|e o IH]; simpl; [reflexivity|].
  rewrite map_app, IH.
  destruct (BuildRagIndex.arrayIndex (fst e)); reflexivity.
Qed.

Lemma filter_partition {A} (p : A -> bool) (l : list A) :
  Permutation (filter p l ++ filter (fun x => negb (p x)) l) l.
Proof.
  induction l as [|x l IH]; simpl; [constructor|].
  destruct (p x); simpl.
  - now constructor.
  - rewrite <- Permutation_middle. now constructor.
Qed.

Lemma entries_permutes {V} (o : jsobject V) :
  Permutation (BuildRagIndex.entries o) o.
Proof.
  unfold BuildRagIndex.entries.
  destruct (indexOrder_sorted (BuildRagIndex.indexEntries o)) as [_ P].
  rewrite (Permutation_map snd P), indexEntries_snd.
  apply (filter_partition (fun e => BuildRagIndex.isIndexKey (fst e))).
Qed.



(** ** Keywords *)


Lemma firstn_In {A} (n : nat) (l : list A) (x : A) :
  In x (firstn n l) -> In x l.
Proof.
  intros H. rewrite <- (firstn_skipn n l). apply in_or_app. now left.
Qed.

Lemma keywords_are_keys (content : jsstring) (maxKeywords : nat) :
  BuildRagIndex.extractKeywords content maxKeywords
  = firstn maxKeywords
      (map fst (BuildRagIndex.sort BuildRagIndex.byFrequency
                  (BuildRagIndex.entries
                     (BuildRagIndex.frequencyOf
                        (BuildRagIndex.wordsOf content))))).
Proof.
  unfold BuildRagIndex.extractKeywords.
  now rewrite slice_prefix, firstn_map.
Qed.

Lemma ranked_keys (words : list jsstring) :
  Permutation
    (map fst (BuildRagIndex.sort BuildRagIndex.byFrequency
                (BuildRagIndex.entries (BuildRagIndex.frequencyOf words))))
    (map fst (BuildRagIndex.frequencyOf words)).
Proof.
  apply Permutation_map. rewrite sort_permutes. apply entries_permutes.
Qed.

(** The word [constructor] finds [Object.prototype.constructor] in the
    empty object, so its count is a string and every comparison with it
    is [NaN]: here it stays before a word that occurs twice. *)
Lemma constructor_is_not_counted :
  BuildRagIndex.frequencyOf [str "constructor"]
  = [(str "constructor",
      BuildRagIndex.Text (str "function Object() { [native code] }1"))]
  /\ BuildRagIndex.extractKeywords (str "constructor apple apple") 10
     = [str "constructor"; str "apple"].
Proof. split; run. Qed.



(** * Further properties of the chunker *)

Lemma sentenceBoundary_consumes (bef aft : jsstring) (st : mstate) :
  matchAt sentenceBoundary bef aft = Some st ->
  exists n, consumed aft st = S n.
Proof.
  intros H. apply matchAt_sentenceBoundary in H.
  destruct H as (_ & c & rest & -> & _ & Hst).
  unfold consumed. rewrite Hst.
  pose proof (dropWhile_length isSpace rest).
  exists (length rest - length (dropWhile isSpace rest)).
  cbn [length]. lia.
Qed.

(** Every sentence but the last ends with its terminator. *)
Lemma split_aux_sentences (aft bef cur : jsstring) (skip : nat) :
  (0 < skip -> cur = []) ->
  forallb isSpace (firstn skip aft) = true ->
  pieceFollows bef cur ->
  exists init last,
    split_aux sentenceBoundary bef cur skip aft = init ++ [last]
    /\ Forall endsSentence init.
Proof.
  revert bef cur skip; induction aft as [|c rest IH];
    intros bef cur skip Hcur Hskip Hfol.
  - exists [], (rev cur). split; [reflexivity | constructor].
  - destruct skip as [|skip].
    + cbn [split_aux].
      destruct (matchAt sentenceBoundary bef (c :: rest)) as [st|] eqn:Em.
      * destruct (sentenceBoundary_consumes _ _ _ Em) as (n & En).
        pose proof (sentenceBoundary_takes_spaces _ _ _ Em) as Hws.
        apply matchAt_sentenceBoundary in Em.
        destruct Em as ((t & Ht & Hterm) & _).
        rewrite En in *. cbn [firstn forallb] in Hws.
        apply andb_true_iff in Hws. destruct Hws as [Hc Hn].
        destruct (IH (c :: bef) [] n) as (init & last & E & Hinit);
          [reflexivity | exact Hn | exact Hc |].
        exists (rev cur :: init), last. rewrite E. split; [reflexivity|].
        constructor; [|exact Hinit].
        destruct cur as [|x cur]; cbn [pieceFollows] in Hfol.
        -- destruct bef as [|b bef]; [discriminate|].
           injection Ht as ->. apply space_not_terminator in Hfol. congruence.
        -- rewrite Ht in Hfol. injection Hfol as <-.
           exists (rev cur), t. now split.
      * destruct (IH (c :: bef) (c :: cur) 0) as (init & last & E & Hinit);
          [lia | reflexivity | reflexivity |].
        exists init, last. now split.
    + cbn [split_aux]. rewrite (Hcur (Nat.lt_0_succ _)) in *.
      cbn [firstn forallb] in Hskip. apply andb_true_iff in Hskip.
      destruct Hskip as [Hc Hn].
      destruct (IH (c :: bef) [] skip) as (init & last & E & Hinit);
        [reflexivity | exact Hn | exact Hc |].
      exists init, last. now split.
Qed.

Lemma sentences_shape (content : jsstring) :
  exists init last,
    split sentenceBoundary content = init ++ [last]
    /\ Forall endsSentence init.
Proof.
  destruct content as [|c rest].
  - exists [], []. split; [reflexivity | constructor].
  - unfold split. apply split_aux_sentences; [lia | reflexivity | exact I].
Qed.

Lemma endsSentence_ink (s : jsstring) : endsSentence s -> hasInk s = true.
Proof.
  intros (body & t & -> & Ht). rewrite hasInk_app. simpl.
  destruct (isSpace t) eqn:E; [|now rewrite orb_true_r].
  apply space_not_terminator in E. congruence.
Qed.

(** ** [trim] *)

Lemma dropWhile_head {A} (p : A -> bool) (l : list A) :
  match dropWhile p l with [] => True | x :: _ => p x = false end.
Proof.
  induction l as [|x l IH]; simpl; [exact I|].
  destruct (p x) eqn:E; [exact IH | exact E].
Qed.

Lemma dropWhile_fixed {A} (p : A -> bool) (l : list A) :
  match l with [] => True | x :: _ => p x = false end ->
  dropWhile p l = l.
Proof. destruct l as [|x l]; simpl; [reflexivity|]. now intros ->. Qed.

Lemma dropWhile_suffix {A} (p : A -> bool) (l : list A) :
  exists pre, l = pre ++ dropWhile p l /\ forallb p pre = true.
Proof.
  induction l as [|x l (pre & E & F)]; simpl.
  - now exists [].
  - destruct (p x) eqn:Ex.
    + exists (x :: pre). simpl. rewrite Ex, F. split; [now f_equal|reflexivity].
    + now exists [].
Qed.

Lemma trim_head (s : jsstring) :
  match trim s with [] => True | x :: _ => isSpace x = false end.
Proof.
  unfold trim. set (X := dropWhile isSpace s).
  destruct (dropWhile_suffix isSpace (rev X)) as (pre & E & _).
  pose proof (dropWhile_head isSpace s) as HX. fold X in HX.
  apply (f_equal (@rev ascii)) in E.
  rewrite rev_involutive, rev_app_distr in E.
  destruct (rev (dropWhile isSpace (rev X))) as [|x T]; [exact I|].
  rewrite E in HX. exact HX.
Qed.

Lemma trim_idempotent (s : jsstring) : trim (trim s) = trim s.
Proof.
  pose proof (trim_head s) as H. unfold trim at 1.
  rewrite (dropWhile_fixed isSpace (trim s) H).
  unfold trim. rewrite rev_involutive.
  rewrite (dropWhile_fixed isSpace (dropWhile isSpace (rev _)));
    [reflexivity | apply dropWhile_head].
Qed.

(** ** Chunks are never empty *)

Lemma chunkStep_solid (chunkSize overlap : nat)
  (state : list jsstring * jsstring) (sentence : jsstring) :
  Forall (fun c => c <> [] /\ trim c = c) (fst state) ->
  snd state = [] \/ hasInk (snd state) = true ->
  let state' := chunkStep chunkSize overlap state sentence in
  Forall (fun c => c <> [] /\ trim c = c) (fst state')
  /\ (hasInk sentence = true -> hasInk (snd state') = true).
Proof.
  destruct state as [chunks cur]. cbn [fst snd]. intros Hchunks Hcur.
  unfold chunkStep.
  destruct (chunkSize <? length cur + length sentence);
    destruct (0 <? length cur) eqn:Full; cbn [andb fst snd].
  - split.
    + apply Forall_app. split; [exact Hchunks|].
      constructor; [|constructor]. split; [|apply trim_idempotent].
      destruct Hcur as [->|Hink]; [discriminate Full|].
      rewrite <- nonEmpty_trim in Hink. now destruct (trim cur).
    + intros Hs. now rewrite !hasInk_app, Hs, !orb_true_r.
  - split; [exact Hchunks|]. intros Hs.
    now rewrite !hasInk_app, Hs, !orb_true_r.
  - split; [exact Hchunks|]. intros Hs.
    now rewrite !hasInk_app, Hs, !orb_true_r.
  - split; [exact Hchunks|]. intros Hs.
    now rewrite !hasInk_app, Hs, !orb_true_r.
Qed.

Lemma chunkLoop_solid (chunkSize overlap : nat) (init : list jsstring) :
  Forall (fun s => hasInk s = true) init ->
  forall state,
    Forall (fun c => c <> [] /\ trim c = c) (fst state) ->
    snd state = [] \/ hasInk (snd state) = true ->
    let state' := fold_left (chunkStep chunkSize overlap) init state in
    Forall (fun c => c <> [] /\ trim c = c) (fst state')
    /\ (snd state' = [] \/ hasInk (snd state') = true).
Proof.
  intros Hinit. induction Hinit as [|s init Hs _ IH];
    intros state Hchunks Hcur; simpl; [now split|].
  destruct (chunkStep_solid chunkSize overlap state s Hchunks Hcur)
    as [H1 H2].
  apply IH; [exact H1 | right; now apply H2].
Qed.

(** X1: no chunk is the empty string, and no chunk begins or ends with
    white space (each is its own trimmed form). *)
Theorem chunks_nonempty_and_trimmed (content : jsstring)
  (chunkSize overlap : nat) :
  Forall (fun c => c <> [] /\ trim c = c)
    (splitIntoChunks content chunkSize overlap).
Proof.
  unfold splitIntoChunks.
  destruct (sentences_shape content) as (init & last & -> & Hinit).
  rewrite fold_left_app. cbn [fold_left].
  destruct (chunkLoop_solid chunkSize overlap init) with (state := (@nil jsstring, @nil ascii))
    as [H1 H2].
  - eapply Forall_impl; [|exact Hinit]. apply endsSentence_ink.
  - constructor.
  - now left.
  - destruct (chunkStep_solid chunkSize overlap _ last H1 H2) as [H3 _].
    destruct (chunkStep _ _ _ _) as [chunks cur]. cbn [fst] in H3.
    destruct (nonEmpty (trim cur)) eqn:E; [|exact H3].
    apply Forall_app. split; [exact H3|].
    constructor; [|constructor]. split; [|apply trim_idempotent].
    now destruct (trim cur).
Qed.

(** ** At most one chunk per sentence *)

Lemma chunkLoop_count (chunkSize overlap : nat) (sentences : list jsstring) :
  forall state,
    let state' := fold_left (chunkStep chunkSize overlap) sentences state in
    length (fst state') + (if nonEmpty (snd state') then 1 else 0)
    <= length (fst state) + (if nonEmpty (snd state) then 1 else 0)
       + length sentences.
Proof.
  induction sentences as [|s rest IH]; intros state; simpl; [lia|].
  etransitivity; [apply IH|].
  destruct state as [chunks cur]. unfold chunkStep.
  destruct (chunkSize <? length cur + length s);
    destruct (0 <? length cur) eqn:Full; cbn [andb fst snd].
  - rewrite length_app. simpl. destruct cur; [discriminate Full|].
    destruct (nonEmpty _); simpl; lia.
  - destruct (nonEmpty _), (nonEmpty cur); simpl; lia.
  - destruct (nonEmpty _), (nonEmpty cur); simpl; lia.
  - destruct (nonEmpty _), (nonEmpty cur); simpl; lia.
Qed.

(** X2: the chunker returns at most one chunk per sentence. *)
Theorem chunks_at_most_sentences (content : jsstring)
  (chunkSize overlap : nat) :
  length (splitIntoChunks content chunkSize overlap)
  <= length (split sentenceBoundary content).
Proof.
  unfold splitIntoChunks.
  pose proof (chunkLoop_count chunkSize overlap
                (split sentenceBoundary content) ([], [])) as H.
  cbv zeta in H. destruct (fold_left _ _ _) as [chunks cur].
  cbn [fst snd nonEmpty length] in H.
  pose proof (nonEmpty_trim cur) as T.
  destruct (nonEmpty (trim cur)) eqn:E.
  - rewrite length_app. simpl.
    destruct cur; [discriminate T|]. simpl in H. lia.
  - destruct (nonEmpty cur); lia.
Qed.

(** ** A text that fits is one chunk *)

Lemma split_aux_weight (r : regex) :
  (forall bef aft st, matchAt r bef aft = Some st ->
     exists n, consumed aft st = S n) ->
  forall aft bef cur skip,
    length (concat (split_aux r bef cur skip aft))
    + length (split_aux r bef cur skip aft)
    <= length cur + length aft + 1.
Proof.
  intros Hr. induction aft as [|c rest IH]; intros bef cur skip.
  - simpl. rewrite app_nil_r, length_rev. lia.
  - destruct skip as [|skip]; cbn [split_aux].
    + destruct (matchAt r bef (c :: rest)) as [st|] eqn:Em.
      * destruct (Hr _ _ _ Em) as (n & ->).
        cbn [concat length]. rewrite length_app, length_rev.
        specialize (IH (c :: bef) [] n). simpl in IH. lia.
      * specialize (IH (c :: bef) (c :: cur) 0). simpl in *. lia.
    + specialize (IH (c :: bef) cur skip). simpl. lia.
Qed.

Lemma sentences_weight (content : jsstring) :
  length (concat (split sentenceBoundary content))
  + length (split sentenceBoundary content)
  <= length content + 1.
Proof.
  destruct content as [|c rest]; [simpl; lia|]. unfold split.
  etransitivity;
    [apply (split_aux_weight sentenceBoundary sentenceBoundary_consumes)|].
  simpl. lia.
Qed.

Lemma glue_length (cur s : jsstring) :
  length (glue cur s) <= length cur + 1 + length s.
Proof.
  unfold glue. rewrite !length_app. destruct (nonEmpty cur); simpl; lia.
Qed.

Lemma chunkLoop_fits (chunkSize overlap : nat) (rest : list jsstring) :
  forall chunks cur,
    length cur + length (concat rest) + length rest <= chunkSize + 1 ->
    fold_left (chunkStep chunkSize overlap) rest (chunks, cur)
    = (chunks, fold_left glue rest cur).
Proof.
  induction rest as [|s rest IH]; intros chunks cur H; [reflexivity|].
  cbn [fold_left]. cbn [concat length] in H. rewrite length_app in H.
  assert (E : chunkStep chunkSize overlap (chunks, cur) s
              = (chunks, glue cur s)).
  { unfold chunkStep.
    destruct (Nat.ltb_spec chunkSize (length cur + length s)); [lia|].
    reflexivity. }
  rewrite E. apply IH. pose proof (glue_length cur s). lia.
Qed.

Lemma join_cons (sep x : jsstring) (l : list jsstring) :
  l <> [] -> join sep (x :: l) = x ++ sep ++ join sep l.
Proof. destruct l; [congruence | reflexivity]. Qed.

Lemma glue_join (l : list jsstring) (cur : jsstring) :
  cur <> [] -> fold_left glue l cur = join (str " ") (cur :: l).
Proof.
  revert cur; induction l as [|s l IH]; intros cur H; [reflexivity|].
  cbn [fold_left]. assert (G : glue cur s = cur ++ str " " ++ s).
  { unfold glue. destruct cur; [congruence | reflexivity]. }
  rewrite G, IH by (destruct cur; [congruence | discriminate]).
  rewrite (join_cons _ cur (s :: l)) by discriminate.
  destruct l as [|y l]; [reflexivity|].
  rewrite !join_cons by discriminate. now rewrite <- !app_assoc.
Qed.

Lemma glue_sentences (content : jsstring) :
  fold_left glue (split sentenceBoundary content) []
  = join (str " ") (split sentenceBoundary content).
Proof.
  destruct (sentences_shape content) as (init & last & -> & Hinit).
  destruct init as [|s init]; [reflexivity|].
  cbn [app fold_left]. inversion Hinit as [|? ? (body & t & -> & _) _]; subst.
  change (glue [] (body ++ [t])) with (body ++ [t]).
  apply glue_join. now destruct body.
Qed.

(** ** No sentence is dropped *)

Lemma dropWhile_app_ink (s post : jsstring) :
  hasInk s = true ->
  dropWhile isSpace (s ++ post) = dropWhile isSpace s ++ post.
Proof.
  induction s as [|x s IH]; [discriminate|]. simpl.
  destruct (isSpace x); [exact IH | now intros _].
Qed.

Lemma lstrip_infix (pre s post : jsstring) :
  hasInk s = true ->
  exists pre',
    dropWhile isSpace (pre ++ s ++ post)
    = pre' ++ dropWhile isSpace s ++ post.
Proof.
  intros Hs. induction pre as [|x pre (pre' & IH)].
  - exists []. cbn [app]. now apply dropWhile_app_ink.
  - simpl. destruct (isSpace x); [now exists pre'|].
    destruct (dropWhile_suffix isSpace s) as (ws & E & _).
    exists (x :: pre ++ ws). rewrite E at 1.
    simpl. now rewrite <- !app_assoc.
Qed.

Lemma rstrip_infix (pre s post : jsstring) :
  hasInk s = true ->
  exists post',
    rev (dropWhile isSpace (rev (pre ++ s ++ post)))
    = pre ++ rev (dropWhile isSpace (rev s)) ++ post'.
Proof.
  intros Hs. rewrite !rev_app_distr, <- app_assoc.
  destruct (lstrip_infix (rev post) (rev s) (rev pre)) as (p & ->);
    [now rewrite hasInk_rev|].
  exists (rev p). now rewrite !rev_app_distr, rev_involutive, <- app_assoc.
Qed.

Lemma infix_trim (s b : jsstring) :
  hasInk s = true -> infix s b -> infix (trim s) (trim b).
Proof.
  intros Hs (pre & post & ->). unfold trim.
  destruct (lstrip_infix pre s post Hs) as (pre' & ->).
  destruct (rstrip_infix pre' (dropWhile isSpace s) post) as (post' & ->);
    [now rewrite hasInk_dropWhile|].
  now exists pre', post'.
Qed.

Lemma infix_app_r {A} (a b c : list A) : infix a b -> infix a (b ++ c).
Proof.
  intros (pre & post & ->). exists pre, (post ++ c).
  now rewrite <- !app_assoc.
Qed.

Lemma chunkStep_kept (chunkSize overlap : nat)
  (state : list jsstring * jsstring) (sentence s0 : jsstring) :
  hasInk s0 = true ->
  s0 = sentence \/ kept state s0 ->
  kept (chunkStep chunkSize overlap state sentence) s0.
Proof.
  destruct state as [chunks cur]. intros Hs H. unfold chunkStep, kept.
  destruct (_ && _); cbn [fst snd].
  - destruct H as [->|[(c & Hc & Hin)|Hin]].
    + right. eexists _, []. now rewrite app_nil_r, app_assoc.
    + left. exists c. split; [apply in_or_app; now left | exact Hin].
    + left. exists (trim cur). split; [apply in_or_app; right; now left|].
      now apply infix_trim.
  - destruct H as [->|[(c & Hc & Hin)|Hin]].
    + right. eexists _, []. now rewrite app_nil_r, app_assoc.
    + left. now exists c.
    + right. now apply infix_app_r.
Qed.

Lemma chunkLoop_kept (chunkSize overlap : nat) (s0 : jsstring)
  (rest : list jsstring) :
  hasInk s0 = true ->
  forall state,
    In s0 rest \/ kept state s0 ->
    kept (fold_left (chunkStep chunkSize overlap) rest state) s0.
Proof.
  intros Hs. induction rest as [|s rest IH]; intros state H; simpl.
  - destruct H as [[]|H]. exact H.
  - apply IH. destruct H as [[->|H]|H]; [right | now left | right].
    + apply chunkStep_kept; [exact Hs | now left].
    + apply chunkStep_kept; [exact Hs | now right].
Qed.

(** X3: every sentence that has a visible character is found, in its
    trimmed form, inside one of the chunks: the chunker drops no
    sentence, whatever the chunk size and the overlap. *)
Theorem sentences_all_kept (content : jsstring) (chunkSize overlap : nat)
  (sentence : jsstring) :
  In sentence (split sentenceBoundary content) ->
  hasInk sentence = true ->
  exists chunk,
    In chunk (splitIntoChunks content chunkSize overlap)
    /\ infix (trim sentence) chunk.
Proof.
  intros Hin Hs. unfold splitIntoChunks.
  pose proof (chunkLoop_kept chunkSize overlap sentence
                (split sentenceBoundary content) Hs ([], [])
                (or_introl Hin)) as K.
  destruct (fold_left _ _ _) as [chunks cur].
  destruct K as [(c & Hc & Hinf)|Hinf]; cbn [fst snd] in *.
  - exists c. split; [|exact Hinf].
    destruct (nonEmpty (trim cur)); [apply in_or_app; now left | exact Hc].
  - assert (Hcur : hasInk cur = true).
    { destruct Hinf as (pre & post & ->).
      now rewrite !hasInk_app, Hs, orb_true_r. }
    rewrite nonEmpty_trim, Hcur. exists (trim cur).
    split; [apply in_or_app; right; now left | now apply infix_trim].
Qed.

Lemma sentences_all_kept_witness :
  exists chunk,
    In chunk
      (splitIntoChunks (wordySentence 99 ++ str " " ++ wordySentence 132)
         1000 200)
    /\ infix (trim (wordySentence 132)) chunk.
Proof.
  apply sentences_all_kept.
  - replace (split sentenceBoundary
               (wordySentence 99 ++ str " " ++ wordySentence 132))
      with [wordySentence 99; wordySentence 132] by (vm_compute; reflexivity).
    right. now left.
  - vm_compute. reflexivity.
Defined.

Lemma fitting_chunks (content : jsstring)
  (chunkSize overlap : nat) :
  hasInk content = true ->
  length content <= chunkSize ->
  splitIntoChunks content chunkSize overlap
  = [trim (join (str " ") (split sentenceBoundary content))].
Proof.
  intros Hink Hfit. unfold splitIntoChunks.
  pose proof (sentences_weight content) as W.
  rewrite chunkLoop_fits by (simpl; lia).
  rewrite glue_sentences, nonEmpty_trim.
  assert (K : hasInk (join (str " ") (split sentenceBoundary content))
              = true).
  { pose proof (chunkLoop_keeps chunkSize overlap
                  (split sentenceBoundary content) ([], [])) as K.
    cbv zeta in K. rewrite sentences_keep_ink, Hink in K.
    specialize (K eq_refl).
    rewrite chunkLoop_fits in K by (simpl; lia).
    cbn [fst snd nonEmpty orb] in K. now rewrite glue_sentences in K. }
  now rewrite K.
Qed.

(** X4: a text with a visible character that is no longer than the chunk
    size gives exactly one chunk: its sentences joined by single spaces,
    trimmed; the overlap plays no part. *)
Theorem fitting_text_is_one_chunk (content : jsstring)
  (chunkSize overlap : nat) :
  hasInk content = true ->
  length content <= chunkSize ->
  splitIntoChunks content chunkSize overlap
  = [trim (join (str " ") (split sentenceBoundary content))].
Proof. apply fitting_chunks. Qed.

Lemma fitting_text_witness :
  splitIntoChunks longBody 1000 200
  = [trim (join (str " ") (split sentenceBoundary longBody))].
Proof.
  apply fitting_text_is_one_chunk.
  - vm_compute. reflexivity.
  - vm_compute. lia.
Defined.

(** * Further properties of the cleaning *)

Lemma rmatch_lit {A} (s : jsstring) (st : mstate) (k : mstate -> option A) :
  rmatch (Lit s) st k
  = if startsWith (after st) s
    then k (MState (rev s ++ before st) (skipn (length s) (after st))
              (cap st))
    else None.
Proof.
  revert st; induction s as [|c s IH]; intros [bef aft cp].
  - reflexivity.
  - cbn [Lit]. rewrite rmatch_seq, rmatch_chr. cbn [after before cap].
    destruct aft as [|x aft]; [reflexivity|]. cbn [startsWith].
    unfold isChar. destruct (Ascii.eqb_spec c x) as [<-|N]; [|reflexivity].
    rewrite IH. cbn [after before cap andb length skipn rev].
    now rewrite <- app_assoc.
Qed.

Lemma rmatch_bol {A} (multiline : bool) (st : mstate)
  (k : mstate -> option A) :
  rmatch (Bol multiline) st k
  = match before st with
    | [] => k st
    | c :: _ => if multiline && isLineTerminator c then k st else None
    end.
Proof. reflexivity. Qed.

Lemma replaceAll_aux_untouched (r : regex)
  (repl : option jsstring -> jsstring) (aft bef : jsstring) :
  (forall p q, aft = p ++ q -> matchAt r (rev p ++ bef) q = None) ->
  replaceAll_aux r repl bef 0 aft = aft.
Proof.
  revert bef; induction aft as [|c rest IH]; intros bef H.
  - cbn [replaceAll_aux]. specialize (H [] [] eq_refl). cbn [rev app] in H.
    now rewrite H.
  - cbn [replaceAll_aux]. pose proof (H [] (c :: rest) eq_refl) as H0.
    cbn [rev app] in H0. rewrite H0. f_equal. apply IH. intros p q ->.
    specialize (H (c :: p) q eq_refl). cbn [rev] in H.
    now rewrite <- app_assoc in H.
Qed.

(** Where the expression matches nowhere, [replace] returns its input. *)
Lemma replaceAll_untouched (r : regex) (repl : option jsstring -> jsstring)
  (s : jsstring) :
  (forall p q, s = p ++ q -> matchAt r (rev p) q = None) ->
  replaceAll r repl s = s.
Proof.
  intros H. apply replaceAll_aux_untouched. intros p q E.
  rewrite app_nil_r. now apply H.
Qed.

Lemma existsb_suffix {A} (f : A -> bool) (p q : list A) :
  existsb f (p ++ q) = false -> existsb f q = false.
Proof. rewrite existsb_app. now intros [_ ?]%orb_false_iff. Qed.

Lemma markup_head (x : ascii) (p q : jsstring) :
  existsb isMarkup (p ++ q) = false ->
  isMarkup x = true ->
  match q with c :: _ => isChar x c = false | [] => True end.
Proof.
  intros H Hx. apply existsb_suffix in H. destruct q as [|c q]; [exact I|].
  simpl in H. apply orb_false_iff in H. destruct H as [Hc _].
  unfold isChar. destruct (Ascii.eqb_spec x c) as [<-|]; congruence.
Qed.

Lemma occurs_suffix (needle p q : jsstring) :
  occurs needle (p ++ q) = false -> startsWith q needle = false.
Proof.
  induction p as [|c p IH]; simpl.
  - destruct q; simpl; now intros [? _]%orb_false_iff.
  - intros [_ H]%orb_false_iff. now apply IH.
Qed.

Lemma lineStarts_suffix (word p q : jsstring) (atStart : bool) :
  lineStarts atStart word (p ++ q) = false ->
  match rev p with
  | [] => atStart = true
  | b :: _ => isLineTerminator b = true
  end ->
  startsWith q word = false.
Proof.
  revert atStart; induction p as [|c p IH]; intros atStart H Hp.
  - cbn [rev app] in *. subst atStart.
    destruct q; simpl in H; now apply orb_false_iff in H.
  - cbn [app lineStarts] in H. apply orb_false_iff in H.
    destruct H as [_ H]. apply (IH _ H).
    cbn [rev] in Hp. destruct (rev p) as [|b l] eqn:E.
    + exact Hp.
    + exact Hp.
Qed.

Section PlainProse.

Variable content : jsstring.
Hypothesis no_markup : existsb isMarkup content = false.
Hypothesis no_import : lineStarts true (str "import") content = false.
Hypothesis no_export : lineStarts true (str "export") content = false.
Hypothesis no_blank_run : occurs [LF; LF; LF] content = false.

Ltac first_char p q E x :=
  let H := fresh in
  pose proof (markup_head x p q) as H;
  rewrite <- E in H; specialize (H no_markup eq_refl);
  unfold matchAt, Clean.seqs, Clean.c; cbn [fold_right Lit];
  rewrite ?rmatch_seq, rmatch_chr; cbn [after];
  destruct q; [reflexivity|]; rewrite H; reflexivity.

Lemma codeBlock_nowhere p q :
  content = p ++ q -> matchAt Clean.codeBlock (rev p) q = None.
Proof.
  intros E. unfold Clean.codeBlock.
  let s := eval vm_compute in (str "```") in change (str "```") with s.
  first_char p q E "`"%char.
Qed.

Lemma inlineCode_nowhere p q :
  content = p ++ q -> matchAt Clean.inlineCode (rev p) q = None.
Proof. intros E. unfold Clean.inlineCode. first_char p q E "`"%char. Qed.

Lemma link_nowhere p q :
  content = p ++ q -> matchAt Clean.link (rev p) q = None.
Proof. intros E. unfold Clean.link. first_char p q E "["%char. Qed.

Lemma htmlTag_nowhere p q :
  content = p ++ q -> matchAt Clean.htmlTag (rev p) q = None.
Proof. intros E. unfold Clean.htmlTag. first_char p q E "<"%char. Qed.

Lemma jsxSelfClosing_nowhere p q :
  content = p ++ q -> matchAt Clean.jsxSelfClosing (rev p) q = None.
Proof. intros E. unfold Clean.jsxSelfClosing. first_char p q E "<"%char. Qed.

Lemma jsxPaired_nowhere p q :
  content = p ++ q -> matchAt Clean.jsxPaired (rev p) q = None.
Proof. intros E. unfold Clean.jsxPaired. first_char p q E "<"%char. Qed.

Lemma image_nowhere p q :
  content = p ++ q -> matchAt Clean.image (rev p) q = None.
Proof.
  intros E. unfold matchAt, Clean.image, Clean.seqs, Clean.c.
  cbn [fold_right]. rewrite rmatch_seq, rmatch_chr.
  cbn [after before cap]. destruct q as [|c q]; [reflexivity|].
  destruct (isChar "!" c); [|reflexivity].
  rewrite rmatch_seq, rmatch_chr. cbn [after].
  pose proof (markup_head "["%char (p ++ [c]) q) as H.
  rewrite <- app_assoc in H. cbn [app] in H. rewrite <- E in H.
  specialize (H no_markup eq_refl).
  destruct q; [reflexivity|]. now rewrite H.
Qed.

Lemma statement_nowhere (word : jsstring) p q :
  lineStarts true word content = false ->
  content = p ++ q -> matchAt (Clean.statement word) (rev p) q = None.
Proof.
  intros Hw E. unfold matchAt, Clean.statement, Clean.seqs.
  cbn [fold_right]. rewrite rmatch_seq, rmatch_bol.
  cbn [before]. rewrite E in Hw.
  pose proof (lineStarts_suffix word p q true Hw) as H.
  destruct (rev p) as [|b l].
  - rewrite rmatch_seq, rmatch_lit. cbn [after].
    now rewrite (H eq_refl).
  - cbn [andb]. destruct (isLineTerminator b); [|reflexivity].
    rewrite rmatch_seq, rmatch_lit. cbn [after]. now rewrite (H eq_refl).
Qed.

Lemma blankLines_nowhere p q :
  content = p ++ q -> matchAt Clean.blankLines (rev p) q = None.
Proof.
  intros E. pose proof no_blank_run as H. rewrite E in H.
  apply occurs_suffix in H.
  unfold matchAt, Clean.blankLines, Clean.seqs, Clean.c. cbn [fold_right].
  rewrite rmatch_seq, rmatch_chr. cbn [after before cap].
  destruct q as [|a q]; [reflexivity|]. cbn [startsWith] in H.
  unfold isChar. destruct (Ascii.eqb LF a); [|reflexivity].
  rewrite rmatch_seq, rmatch_chr. cbn [after before cap].
  destruct q as [|b q]; [reflexivity|].
  destruct (Ascii.eqb LF b); [|reflexivity].
  rewrite rmatch_seq, rmatch_chr. cbn [after before cap].
  destruct q as [|c q]; [reflexivity|].
  destruct (Ascii.eqb LF c); [discriminate H | reflexivity].
Qed.

Lemma plain_prose_cleaned : Clean.clean content = trim content.
Proof.
  unfold Clean.clean.
  rewrite (replaceAll_untouched Clean.codeBlock)
    by (intros; now apply codeBlock_nowhere).
  rewrite (replaceAll_untouched Clean.inlineCode)
    by (intros; now apply inlineCode_nowhere).
  rewrite (replaceAll_untouched Clean.image)
    by (intros; now apply image_nowhere).
  rewrite (replaceAll_untouched Clean.link)
    by (intros; now apply link_nowhere).
  rewrite (replaceAll_untouched Clean.htmlTag)
    by (intros; now apply htmlTag_nowhere).
  rewrite (replaceAll_untouched (Clean.statement (str "import")))
    by (intros; now apply statement_nowhere).
  rewrite (replaceAll_untouched (Clean.statement (str "export")))
    by (intros; now apply statement_nowhere).
  rewrite (replaceAll_untouched Clean.jsxSelfClosing)
    by (intros; now apply jsxSelfClosing_nowhere).
  rewrite (replaceAll_untouched Clean.jsxPaired)
    by (intros; now apply jsxPaired_nowhere).
  rewrite (replaceAll_untouched Clean.blankLines)
    by (intros; now apply blankLines_nowhere).
  reflexivity.
Qed.

End PlainProse.

(** X5: text that holds no backtick, opening bracket or opening angle,
    no line that begins with [import] or [export] and no three line feeds
    in a row passes through the cleaning of both scripts unchanged but for
    the white space trimmed at its ends. *)
Theorem plain_prose_is_only_trimmed (content : jsstring) :
  plainProse content = true ->
  BuildRagIndex.cleanMarkdownContent content = trim content
  /\ BuildRagIndexEmbeddings.cleanMarkdown content = trim content.
Proof.
  unfold plainProse. rewrite !andb_true_iff, !negb_true_iff.
  intros [[[M I] E] B].
  split; now apply plain_prose_cleaned.
Qed.

Lemma plain_prose_witness :
  BuildRagIndex.cleanMarkdownContent twoParagraphs = trim twoParagraphs
  /\ BuildRagIndexEmbeddings.cleanMarkdown twoParagraphs = trim twoParagraphs.
Proof. apply plain_prose_is_only_trimmed. vm_compute. reflexivity. Defined.

(** * Further properties of the frontmatter parsers *)

Lemma startsWith_app (p s : jsstring) : startsWith (p ++ s) p = true.
Proof.
  induction p as [|c p IH]; [reflexivity|]. cbn [app startsWith].
  now rewrite Ascii.eqb_refl.
Qed.

Lemma skipn_app_length {A} (p s : list A) : skipn (length p) (p ++ s) = s.
Proof. induction p as [|c p IH]; [reflexivity | exact IH]. Qed.

Lemma startsWith_app_false (w p q : jsstring) (h : ascii) :
  startsWith p w = false -> ~ In h w ->
  startsWith (p ++ h :: q) w = false.
Proof.
  revert p; induction w as [|a w IH]; intros p H N; [discriminate|].
  destruct p as [|c p]; cbn [app startsWith] in *.
  - destruct (Ascii.eqb_spec a h) as [->|]; [|reflexivity].
    exfalso. apply N. now left.
  - destruct (Ascii.eqb a c); [|reflexivity]. cbn [andb] in *.
    apply IH; [exact H|]. intros I. apply N. now right.
Qed.

Lemma sliceFrom_app {A} (p b : list A) :
  sliceFrom (p ++ b) (Z.of_nat (length p)) = b.
Proof.
  unfold sliceFrom, relIndex.
  destruct (Z.ltb_spec (Z.of_nat (length p)) 0) as [H|H]; [lia|].
  rewrite Nat2Z.id, length_app, Nat.min_l by lia.
  apply skipn_app_length.
Qed.

Lemma rmatch_group {A} (r : regex) (st : mstate) (k : mstate -> option A) :
  rmatch (Group r) st k
  = rmatch r st (fun st1 =>
      k (MState (before st1) (after st1) (Some (captured st st1)))).
Proof. reflexivity. Qed.

Lemma rmatch_eps {A} (st : mstate) (k : mstate -> option A) :
  rmatch Eps st k = k st.
Proof. reflexivity. Qed.

(** An expression that begins with [^] matches at the start only. *)
Lemma search_anchored (r : regex) (bef aft : jsstring) :
  bef <> [] -> search_aux (Seq (Bol false) r) bef aft = None.
Proof.
  revert bef; induction aft as [|c aft IH]; intros bef H;
    cbn [search_aux]; unfold matchAt; rewrite rmatch_seq, rmatch_bol;
    cbn [before andb]; (destruct bef as [|b bef]; [congruence|]).
  - reflexivity.
  - apply IH. discriminate.
Qed.

Lemma search_at_start (r : regex) (s : jsstring) :
  search (Seq (Bol false) r) s
  = match matchAt (Seq (Bol false) r) [] s with
    | Some st => Some (0, st)
    | None => None
    end.
Proof.
  unfold search. destruct s as [|c s]; cbn [search_aux].
  - now destruct (matchAt _ [] []).
  - destruct (matchAt _ [] (c :: s)); [reflexivity|].
    apply search_anchored. discriminate.
Qed.

Lemma frontmatter_needs_fence (content : jsstring) :
  startsWith content (str "---") = false ->
  jsmatch frontmatterRegex content = None.
Proof.
  intros H. unfold jsmatch, frontmatterRegex, Clean.seqs. cbn [fold_right].
  rewrite search_at_start. unfold matchAt.
  rewrite rmatch_seq, rmatch_bol. cbn [before].
  rewrite rmatch_seq, rmatch_lit. cbn [after]. now rewrite H.
Qed.

(** X6: a file that does not begin with [---] has no frontmatter: both
    scripts return no metadata and the whole file as content. *)
Theorem no_fence_no_frontmatter (content : jsstring) :
  startsWith content (str "---") = false ->
  BuildRagIndex.parseFrontmatter content = ([], content)
  /\ BuildRagIndexEmbeddings.parseFrontmatter content = ([], content).
Proof.
  intros H.
  unfold BuildRagIndex.parseFrontmatter,
    BuildRagIndexEmbeddings.parseFrontmatter.
  now rewrite (frontmatter_needs_fence content H).
Qed.

Lemma no_fence_witness :
  BuildRagIndex.parseFrontmatter longBody = ([], longBody)
  /\ BuildRagIndexEmbeddings.parseFrontmatter longBody = ([], longBody).
Proof. apply no_fence_no_frontmatter. vm_compute. reflexivity. Defined.

(** The greedy [\s*] in front of a line feed stops where the text goes
    on. *)
Lemma star_stops {A} (k : mstate -> option A) (fuel : nat)
  (bef rest : jsstring) (cp : option jsstring) :
  noLeadingSpace rest = true ->
  starLoop (rmatch (Chr isSpace)) true
    (fun st => rmatch (Chr (isChar LF)) st k) fuel (MState bef rest cp)
  = None.
Proof.
  intros H. destruct rest as [|c rest].
  - destruct fuel; reflexivity.
  - cbn [noLeadingSpace] in H. apply negb_true_iff in H.
    assert (N : isChar LF c = false).
    { unfold isChar. destruct (Ascii.eqb_spec LF c) as [<-|]; [|reflexivity].
      discriminate H. }
    destruct fuel; cbn [starLoop]; rewrite ?rmatch_chr; cbn [after];
      now rewrite ?H, N.
Qed.

Lemma greedy_spaces_then_LF {A} (k : mstate -> option A) (x : A)
  (sp rest bef : jsstring) (cp : option jsstring) (fuel : nat) :
  forallb isSpace sp = true -> noLeadingSpace rest = true ->
  length sp < fuel ->
  k (MState (LF :: rev sp ++ bef) rest cp) = Some x ->
  starLoop (rmatch (Chr isSpace)) true
    (fun st => rmatch (Chr (isChar LF)) st k) fuel
    (MState bef (sp ++ LF :: rest) cp)
  = Some x.
Proof.
  revert bef fuel; induction sp as [|c sp IH]; intros bef fuel S R F K;
    (destruct fuel as [|fuel]; [cbn [length] in F; lia|]).
  - cbn [starLoop app]. rewrite rmatch_chr. cbn [after before cap].
    change (isSpace LF) with true. cbv iota.
    assert (L : (length rest <? length (LF :: rest)) = true)
      by (apply Nat.ltb_lt; cbn [length]; lia).
    rewrite L, star_stops by exact R.
    rewrite rmatch_chr. cbn [after before cap].
    change (isChar LF LF) with true. exact K.
  - cbn [forallb] in S. apply andb_true_iff in S. destruct S as [Sc S].
    cbn [starLoop app]. rewrite rmatch_chr. cbn [after before cap].
    rewrite Sc.
    assert (L : (length (sp ++ LF :: rest) <? length (c :: sp ++ LF :: rest))
                = true)
      by (apply Nat.ltb_lt; cbn [length]; lia).
    rewrite L, (IH (c :: bef) fuel S R); [reflexivity | cbn [length] in F; lia |].
    cbn [rev] in K. now rewrite <- app_assoc in K.
Qed.

(** The lazy [[\s\S]*?] takes characters until what follows it matches. *)
Lemma lazy_any_until {A} (K : mstate -> option A) (x : A)
  (p q bef : jsstring) (cp : option jsstring) (fuel : nat) :
  (forall p1 c p2, p = p1 ++ c :: p2 ->
     K (MState (rev p1 ++ bef) (c :: p2 ++ q) cp) = None) ->
  length p <= fuel ->
  K (MState (rev p ++ bef) q cp) = Some x ->
  starLoop (rmatch (Chr anyChar)) false K fuel (MState bef (p ++ q) cp)
  = Some x.
Proof.
  revert bef fuel; induction p as [|c p IH]; intros bef fuel Hfail Hfuel Hend.
  - cbn [app rev] in *. destruct fuel; cbn [starLoop]; now rewrite Hend.
  - destruct fuel as [|fuel]; [cbn [length] in Hfuel; lia|].
    cbn [starLoop app]. pose proof (Hfail [] c p eq_refl) as H0.
    cbn [rev app] in H0. rewrite H0, rmatch_chr. cbn [after before cap].
    change (anyChar c) with true. cbv iota.
    assert (L : (length (p ++ q) <? length (c :: p ++ q)) = true)
      by (apply Nat.ltb_lt; cbn [length]; lia).
    rewrite L. apply IH.
    + intros p1 c' p2 ->. specialize (Hfail (c :: p1) c' p2 eq_refl).
      cbn [rev] in Hfail. now rewrite <- app_assoc in Hfail.
    + cbn [length] in Hfuel. lia.
    + cbn [rev] in Hend. now rewrite <- app_assoc in Hend.
Qed.

Lemma captured_app (st : mstate) (s bef aft : jsstring)
  (cp : option jsstring) :
  before st = bef ->
  captured st (MState (rev s ++ bef) aft cp) = s.
Proof.
  intros E. unfold captured. cbn [before]. rewrite E, length_app.
  replace (length (rev s) + length bef - length bef) with (length (rev s))
    by lia.
  rewrite firstn_app, firstn_all, Nat.sub_diag. cbn [firstn].
  rewrite app_nil_r. apply rev_involutive.
Qed.

Lemma rmatch_spaces_then_LF {A} (r : regex) (k : mstate -> option A)
  (x : A) (sp rest bef : jsstring) (cp : option jsstring) :
  forallb isSpace sp = true -> noLeadingSpace rest = true ->
  rmatch r (MState (LF :: rev sp ++ bef) rest cp) k = Some x ->
  rmatch (Seq (Star true (Chr isSpace)) (Seq (Chr (isChar LF)) r))
    (MState bef (sp ++ LF :: rest) cp) k
  = Some x.
Proof.
  intros S R K. rewrite rmatch_seq, rmatch_star. cbn [after].
  apply (greedy_spaces_then_LF (fun st => rmatch r st k) x sp rest bef cp);
    [exact S | exact R | rewrite length_app; cbn [length]; lia | exact K].
Qed.

Lemma rmatch_lazy_group {A} (r : regex) (k : mstate -> option A) (x : A)
  (p q bef : jsstring) (cp : option jsstring) :
  (forall p1 c p2 cp', p = p1 ++ c :: p2 ->
     rmatch r (MState (rev p1 ++ bef) (c :: p2 ++ q) cp') k = None) ->
  rmatch r (MState (rev p ++ bef) q (Some p)) k = Some x ->
  rmatch (Seq (Group (Star false (Chr anyChar))) r)
    (MState bef (p ++ q) cp) k
  = Some x.
Proof.
  intros Hfail Hend. rewrite rmatch_seq, rmatch_group, rmatch_star.
  cbn [after].
  apply (lazy_any_until
           (fun st1 =>
              rmatch r
                (MState (before st1) (after st1)
                   (Some (captured (MState bef (p ++ q) cp) st1))) k)).
  - intros p1 c p2 E. cbn [before after]. now apply Hfail.
  - rewrite length_app. lia.
  - cbn [before after]. now rewrite captured_app by reflexivity.
Qed.

Lemma matchAt_frontmatter (sp1 fm sp2 body : jsstring) :
  forallb isSpace sp1 = true -> forallb isSpace sp2 = true ->
  fenceFree fm = true -> noLeadingSpace body = true ->
  exists bef,
    matchAt frontmatterRegex [] (withFrontmatter sp1 fm sp2 body)
    = Some (MState bef body (Some fm)).
Proof.
  intros S1 S2 F B. unfold fenceFree in F.
  rewrite !andb_true_iff, negb_true_iff in F. destruct F as [[Fn Fs] Fo].
  unfold matchAt, frontmatterRegex, Clean.seqs, Clean.c, withFrontmatter.
  cbn [fold_right].
  rewrite rmatch_seq, rmatch_bol. cbn [before].
  rewrite rmatch_seq, rmatch_lit. cbn [after before cap].
  rewrite startsWith_app, skipn_app_length, app_nil_r. cbn [app].
  eexists.
  apply rmatch_spaces_then_LF;
    [exact S1 | destruct fm; [discriminate Fn | exact Fs] |].
  apply rmatch_lazy_group.
  - intros p1 c p2 cp' E.
    rewrite rmatch_seq, rmatch_chr. cbn [after before cap].
    unfold isChar at 1. destruct (Ascii.eqb_spec LF c) as [<-|]; [|reflexivity].
    rewrite rmatch_seq, rmatch_lit. cbn [after].
    rewrite E in Fo. apply occurs_suffix in Fo.
    cbn [startsWith] in Fo. rewrite Ascii.eqb_refl in Fo. cbn [andb] in Fo.
    rewrite (startsWith_app_false _ _ _ _ Fo); [reflexivity|].
    vm_compute. intuition discriminate.
  - rewrite rmatch_seq, rmatch_chr. cbn [after before cap].
    change (isChar LF LF) with true. cbv iota.
    rewrite rmatch_seq, rmatch_lit. cbn [after before cap].
    rewrite startsWith_app, skipn_app_length.
    apply rmatch_spaces_then_LF; [exact S2 | exact B |].
    rewrite rmatch_eps. reflexivity.
Qed.

Lemma jsmatch_frontmatter (sp1 fm sp2 body : jsstring) :
  forallb isSpace sp1 = true -> forallb isSpace sp2 = true ->
  fenceFree fm = true -> noLeadingSpace body = true ->
  exists match0,
    jsmatch frontmatterRegex (withFrontmatter sp1 fm sp2 body)
    = Some (match0, fm)
    /\ withFrontmatter sp1 fm sp2 body = match0 ++ body.
Proof.
  intros S1 S2 F B.
  destruct (matchAt_frontmatter sp1 fm sp2 body S1 S2 F B) as [bef H].
  unfold jsmatch. revert H. unfold frontmatterRegex, Clean.seqs.
  cbn [fold_right]. intros H. rewrite search_at_start, H.
  cbn [skipn cap group1]. unfold consumed. cbn [after].
  set (prefix := str "---" ++ sp1 ++ [LF] ++ fm ++ [LF] ++ str "---" ++ sp2
                 ++ [LF]).
  assert (E : withFrontmatter sp1 fm sp2 body = prefix ++ body).
  { unfold withFrontmatter, prefix. now rewrite <- !app_assoc. }
  rewrite E. exists prefix. split; [|reflexivity].
  rewrite length_app.
  replace (length prefix + length body - length body) with (length prefix)
    by lia.
  now rewrite firstn_app, firstn_all, Nat.sub_diag, app_nil_r.
Qed.



(** ** The lines of a frontmatter block *)

Lemma indexOf_first (key value : jsstring) (c : ascii) :
  indexOf key c = None -> indexOf (key ++ c :: value) c = Some (length key).
Proof.
  induction key as [|x key IH]; cbn [indexOf app length].
  - now rewrite Ascii.eqb_refl.
  - destruct (Ascii.eqb x c); [discriminate|].
    destruct (indexOf key c); [discriminate|]. intros _.
    now rewrite IH.
Qed.

Lemma sliceFrom_value (key value : jsstring) (c : ascii) :
  sliceFrom (key ++ c :: value) (Z.of_nat (length key + 1)) = value.
Proof.
  replace (key ++ c :: value) with ((key ++ [c]) ++ value)
    by now rewrite <- app_assoc.
  replace (length key + 1) with (length (key ++ [c]))
    by (rewrite length_app; reflexivity).
  apply sliceFrom_app.
Qed.

Lemma slice_key (key rest : jsstring) :
  slice (key ++ rest) 0 (Z.of_nat (length key)) = key.
Proof.
  rewrite slice_prefix, firstn_app, firstn_all, Nat.sub_diag.
  apply app_nil_r.
Qed.

Lemma getProp_putProp {V} (o : jsobject V) (key : jsstring) (v : V) :
  getProp (putProp o key v) key = Some v.
Proof.
  induction o as [|[k w] o IH]; cbn [putProp getProp].
  - now rewrite jseqb_refl.
  - destruct (jseqb k key) eqn:E; cbn [getProp]; now rewrite E.
Qed.

(** X8: a frontmatter line is divided at its first colon, in both
    scripts: the key is the text before it and the value all the text
    behind it, other colons included, each without the white space around
    it; the value is stored under the key once its quotes are removed. *)
Theorem line_read_at_first_colon (metadata : jsobject jsstring)
  (key value : jsstring) :
  key <> [] -> indexOf key ":" = None ->
  jseqb (trim key) (str "__proto__") = false ->
  getProp (BuildRagIndex.parseLine metadata (key ++ ":"%char :: value))
    (trim key)
  = Some (BuildRagIndex.unquote (trim value))
  /\ getProp
       (BuildRagIndexEmbeddings.parseLine metadata (key ++ ":"%char :: value))
       (trim key)
     = Some (replaceAll BuildRagIndexEmbeddings.edgeQuote del (trim value)).
Proof.
  intros N I P.
  unfold BuildRagIndex.parseLine, BuildRagIndexEmbeddings.parseLine.
  rewrite (indexOf_first key value ":"%char I).
  destruct key as [|k key]; [congruence|].
  cbn [length]. change (S (length key)) with (length (k :: key)).
  rewrite !slice_key, !sliceFrom_value. unfold setProp. rewrite P.
  split; apply getProp_putProp.
Qed.

Lemma line_read_witness :
  getProp
    (BuildRagIndex.parseLine []
       (str "url " ++ ":"%char :: str " 'http://localhost:3000'"))
    (trim (str "url "))
  = Some (BuildRagIndex.unquote (trim (str " 'http://localhost:3000'")))
  /\ getProp
       (BuildRagIndexEmbeddings.parseLine []
          (str "url " ++ ":"%char :: str " 'http://localhost:3000'"))
       (trim (str "url "))
     = Some (replaceAll BuildRagIndexEmbeddings.edgeQuote del
               (trim (str " 'http://localhost:3000'"))).
Proof.
  apply line_read_at_first_colon; [discriminate | reflexivity | reflexivity].
Defined.

Lemma rmatch_alt {A} (r1 r2 : regex) (st : mstate) (k : mstate -> option A) :
  rmatch (Alt r1 r2) st k
  = match rmatch r1 st k with
    | Some x => Some x
    | None => rmatch r2 st k
    end.
Proof. reflexivity. Qed.

Lemma rmatch_eol {A} (multiline : bool) (st : mstate)
  (k : mstate -> option A) :
  rmatch (Eol multiline) st k
  = match after st with
    | [] => k st
    | c :: _ => if multiline && isLineTerminator c then k st else None
    end.
Proof. reflexivity. Qed.

Lemma dropQuote_last (l : jsstring) (c : ascii) :
  l <> [] -> dropQuote (l ++ [c]) = dropQuote l ++ [c].
Proof.
  destruct l as [|x l]; [congruence|]. intros _. cbn [app dropQuote].
  now destruct (BuildRagIndexEmbeddings.isQuote x).
Qed.

Lemma dropQuote_end (c : ascii) (rest : jsstring) :
  rest <> [] ->
  rev (dropQuote (rev (c :: rest))) = c :: rev (dropQuote (rev rest)).
Proof.
  intros N. cbn [rev]. rewrite dropQuote_last.
  - now rewrite rev_app_distr.
  - intros E. apply N. apply (f_equal (@rev ascii)) in E.
    now rewrite rev_involutive in E.
Qed.

(** Behind the first character, only a quote that ends the string is
    removed. *)
Lemma edgeQuote_inside (aft bef : jsstring) :
  bef <> [] ->
  replaceAll_aux BuildRagIndexEmbeddings.edgeQuote del bef 0 aft
  = rev (dropQuote (rev aft)).
Proof.
  revert bef; induction aft as [|c rest IH]; intros bef N;
    (destruct bef as [|b bef]; [congruence|]);
    cbn [replaceAll_aux]; unfold matchAt, BuildRagIndexEmbeddings.edgeQuote;
    rewrite rmatch_alt, rmatch_seq, rmatch_bol; cbn [before andb];
    rewrite rmatch_seq, rmatch_chr; cbn [after before cap].
  - reflexivity.
  - rewrite rmatch_eol. cbn [after andb].
    assert (T : rev (dropQuote (rev (c :: rest)))
                = match rest with
                  | [] => if BuildRagIndexEmbeddings.isQuote c then [] else [c]
                  | _ :: _ => c :: rev (dropQuote (rev rest))
                  end).
    { destruct rest as [|d rest].
      - cbn [rev app dropQuote].
        now destruct (BuildRagIndexEmbeddings.isQuote c).
      - apply dropQuote_end. discriminate. }
    rewrite T. destruct (BuildRagIndexEmbeddings.isQuote c).
    + destruct rest as [|d rest].
      * reflexivity.
      * rewrite IH by discriminate. reflexivity.
    + rewrite IH by discriminate. destruct rest; reflexivity.
Qed.

(** X9: the quote removal of the embeddings script takes one quote from
    the start of a value and one from its end, each on its own: the two
    need not be the same character, and either may be missing. *)
Theorem edge_quotes_removed_one_by_one (value : jsstring) :
  replaceAll BuildRagIndexEmbeddings.edgeQuote del value
  = rev (dropQuote (rev (dropQuote value))).
Proof.
  unfold replaceAll. destruct value as [|c rest]; [reflexivity|].
  cbn [replaceAll_aux]. unfold matchAt, BuildRagIndexEmbeddings.edgeQuote.
  rewrite rmatch_alt, rmatch_seq, rmatch_bol. cbn [before].
  rewrite !rmatch_seq, !rmatch_chr. cbn [after before cap].
  fold BuildRagIndexEmbeddings.edgeQuote. cbn [dropQuote].
  destruct (BuildRagIndexEmbeddings.isQuote c) eqn:Q.
  - unfold consumed. cbn [after length].
    replace (S (length rest) - length rest) with 1 by lia.
    cbn [del app]. apply edgeQuote_inside. discriminate.
  - rewrite edgeQuote_inside by discriminate.
    destruct rest as [|d rest].
    + cbn [rev app dropQuote]. now rewrite Q.
    + symmetry. apply dropQuote_end. discriminate.
Qed.

(** * Further properties of the keywords *)

Lemma replaceAll_aux_chr (p : ascii -> bool) (aft bef : jsstring) :
  replaceAll_aux (Chr p) del bef 0 aft = filter (fun c => negb (p c)) aft.
Proof.
  revert bef; induction aft as [|c rest IH]; intros bef;
    cbn [replaceAll_aux filter]; unfold matchAt; rewrite rmatch_chr;
    cbn [after before cap]; [reflexivity|].
  destruct (p c); cbn [negb].
  - unfold consumed. cbn [after length].
    replace (S (length rest) - length rest) with 1 by lia.
    cbn [del app]. apply IH.
  - now rewrite IH.
Qed.

(** Removing every character of a class leaves the others, in order. *)
Lemma replaceAll_chr (p : ascii -> bool) (s : jsstring) :
  replaceAll (Chr p) del s = filter (fun c => negb (p c)) s.
Proof. apply replaceAll_aux_chr. Qed.

Lemma dropWhile_shorter {A} (p : A -> bool) (l : list A) :
  length (dropWhile p l) <= length l.
Proof.
  induction l as [|x l IH]; cbn [dropWhile length]; [lia|].
  destruct (p x); cbn [length]; lia.
Qed.

Lemma matchAt_whitespaceRun (bef rest : jsstring) (c : ascii) :
  match matchAt whitespaceRun bef (c :: rest) with
  | Some st => isSpace c = true /\ after st = dropWhile isSpace rest
  | None => isSpace c = false
  end.
Proof.
  unfold matchAt, whitespaceRun, Plus.
  rewrite rmatch_seq, rmatch_chr. cbn [after before cap].
  destruct (isSpace c) eqn:E; [|reflexivity].
  rewrite rmatch_star. cbn [after].
  destruct (starLoop_spaces (length rest) (MState (c :: bef) rest None))
    as (st & -> & Hst); [reflexivity|].
  split; [reflexivity | exact Hst].
Qed.

Lemma split_aux_words (Q : ascii -> Prop) (aft bef cur : jsstring)
  (skip : nat) :
  Forall Q cur ->
  (forall c, In c aft -> isSpace c = false -> Q c) ->
  Forall (Forall Q) (split_aux whitespaceRun bef cur skip aft).
Proof.
  revert bef cur skip; induction aft as [|c rest IH];
    intros bef cur skip Hcur Haft; cbn [split_aux].
  - constructor; [|constructor]. now apply Forall_rev.
  - assert (Hrest : forall x, In x rest -> isSpace x = false -> Q x)
      by (intros x I; apply Haft; now right).
    destruct skip as [|skip]; [|now apply IH].
    pose proof (matchAt_whitespaceRun bef rest c) as M.
    destruct (matchAt whitespaceRun bef (c :: rest)) as [st|].
    + destruct M as [_ Hst]. unfold consumed. rewrite Hst. cbn [length].
      pose proof (dropWhile_shorter isSpace rest) as L.
      destruct (S (length rest) - length (dropWhile isSpace rest))
        as [|n] eqn:E; [lia|].
      constructor; [now apply Forall_rev|]. now apply IH.
    + apply IH; [|exact Hrest]. constructor; [|exact Hcur].
      apply Haft; [now left | exact M].
Qed.

(** The pieces between runs of white space hold the other characters of
    the string. *)
Lemma words_have_no_space (s piece : jsstring) (c : ascii) :
  In piece (split whitespaceRun s) -> In c piece ->
  In c s /\ isSpace c = false.
Proof.
  intros Hp Hc.
  assert (F : Forall (Forall (fun c => In c s /\ isSpace c = false))
                (split whitespaceRun s)).
  { unfold split. destruct s as [|x s].
    - destruct (matchAt whitespaceRun [] []); repeat constructor.
    - apply split_aux_words; [constructor|]. intros y I E. now split. }
  rewrite Forall_forall in F. specialize (F piece Hp).
  rewrite Forall_forall in F. now apply F.
Qed.

Lemma wordsOf_plain (content word : jsstring) :
  In word (BuildRagIndex.wordsOf content) -> forallb isWordChar word = true.
Proof.
  unfold BuildRagIndex.wordsOf. intros H. apply filter_In in H.
  destruct H as [H _]. apply forallb_forall. intros c Hc.
  destruct (words_have_no_space _ _ _ H Hc) as [I S].
  rewrite replaceAll_chr in I. apply filter_In in I. destruct I as [_ I].
  apply negb_true_iff in I. unfold BuildRagIndex.notWordChar in I.
  apply negb_false_iff in I. rewrite S, orb_false_r in I. exact I.
Qed.

Lemma NoDup_firstn {A} (n : nat) (l : list A) : NoDup l -> NoDup (firstn n l).
Proof.
  intros H. rewrite <- (firstn_skipn n l) in H.
  now apply NoDup_app_remove_r in H.
Qed.

(** X10: the keywords of a text are distinct words made of lower-case
    letters and digits only, whatever the text. *)
Theorem keywords_distinct_and_plain (content : jsstring) (maxKeywords : nat) :
  NoDup (BuildRagIndex.extractKeywords content maxKeywords)
  /\ Forall (fun w => forallb isWordChar w = true)
       (BuildRagIndex.extractKeywords content maxKeywords).
Proof.
  rewrite keywords_are_keys.
  set (words := BuildRagIndex.wordsOf content).
  destruct (frequencyOf_counts words) as (ND & Hkeys & _).
  pose proof (ranked_keys words) as P.
  split.
  - apply NoDup_firstn. eapply Permutation_NoDup; [|exact ND].
    symmetry. exact P.
  - apply Forall_forall. intros w Hw. apply firstn_In in Hw.
    apply (Permutation_in _ P) in Hw. apply Hkeys in Hw.
    now apply (wordsOf_plain content).
Qed.

Lemma kept_char_is_lower (c : ascii) :
  BuildRagIndex.notWordChar c = false -> toLowerChar c = c.
Proof.
  destruct c as [[] [] [] [] [] [] [] []]; vm_compute; intros H;
    first [reflexivity | discriminate H].
Qed.

Lemma toLowerChar_idempotent (c : ascii) :
  toLowerChar (toLowerChar c) = toLowerChar c.
Proof.
  destruct c as [[] [] [] [] [] [] [] []]; vm_compute; reflexivity.
Qed.

Lemma filter_idempotent {A} (f : A -> bool) (l : list A) :
  filter f (filter f l) = filter f l.
Proof.
  induction l as [|x l IH]; [reflexivity|]. cbn [filter].
  destruct (f x) eqn:E; [|exact IH]. cbn [filter]. now rewrite E, IH.
Qed.

(** X11: the keywords do not depend on the case of the letters nor on
    the characters that are neither letters, digits nor white space: the
    text in lower case, without these characters, has the same keywords. *)
Theorem keywords_ignore_case_and_punctuation (content : jsstring)
  (maxKeywords : nat) :
  BuildRagIndex.extractKeywords (toLowerCase content) maxKeywords
  = BuildRagIndex.extractKeywords content maxKeywords
  /\ BuildRagIndex.extractKeywords
       (replaceAll (Chr BuildRagIndex.notWordChar) del (toLowerCase content))
       maxKeywords
     = BuildRagIndex.extractKeywords content maxKeywords.
Proof.
  unfold BuildRagIndex.extractKeywords, BuildRagIndex.wordsOf.
  assert (E : toLowerCase (toLowerCase content) = toLowerCase content).
  { unfold toLowerCase. rewrite map_map. apply map_ext.
    apply toLowerChar_idempotent. }
  split; [now rewrite E|].
  rewrite !replaceAll_chr.
  set (f := fun c => negb (BuildRagIndex.notWordChar c)).
  assert (L : toLowerCase (filter f (toLowerCase content))
              = filter f (toLowerCase content)).
  { unfold toLowerCase at 1. rewrite <- (map_id (filter f _)) at 2.
    apply map_ext_in. intros c Hc. apply filter_In in Hc.
    destruct Hc as [_ Hc]. apply kept_char_is_lower.
    now apply negb_true_iff in Hc. }
  now rewrite L, filter_idempotent.
Qed.

(** * Further properties of the file finder *)

Lemma search_aux_None (r : regex) (aft bef : jsstring) :
  search_aux r bef aft = None
  <-> forall p q, aft = p ++ q -> matchAt r (rev p ++ bef) q = None.
Proof.
  revert bef; induction aft as [|c aft IH]; intros bef; cbn [search_aux].
  - split.
    + intros H p q E. symmetry in E. apply app_eq_nil in E.
      destruct E as [-> ->]. cbn [rev app].
      destruct (matchAt r bef []); [discriminate H | reflexivity].
    + intros H. specialize (H [] [] eq_refl). cbn [rev app] in H.
      now rewrite H.
  - split.
    + intros H p q E. destruct (matchAt r bef (c :: aft)) eqn:M;
        [discriminate|].
      destruct p as [|x p]; cbn [app] in E.
      * subst q. exact M.
      * injection E as <- E. cbn [rev]. rewrite <- app_assoc.
        now apply (proj1 (IH (c :: bef)) H).
    + intros H. pose proof (H [] (c :: aft) eq_refl) as H0.
      cbn [rev app] in H0. rewrite H0.
      apply IH. intros p q ->. specialize (H (c :: p) q eq_refl).
      cbn [rev] in H. now rewrite <- app_assoc in H.
Qed.

Lemma search_aux_found (r : regex) (aft bef : jsstring) :
  search_aux r bef aft <> None ->
  exists p q, aft = p ++ q /\ matchAt r (rev p ++ bef) q <> None.
Proof.
  revert bef; induction aft as [|c aft IH]; intros bef; cbn [search_aux];
    destruct (matchAt r bef _) eqn:M.
  - intros _. exists [], []. split; [reflexivity|]. cbn [rev app]. congruence.
  - congruence.
  - intros _. exists [], (c :: aft). split; [reflexivity|].
    cbn [rev app]. congruence.
  - intros H. destruct (IH (c :: bef) H) as (p & q & -> & N).
    exists (c :: p), q. split; [reflexivity|]. cbn [rev].
    now rewrite <- app_assoc.
Qed.

(** [r.test(s)] holds when [r] matches at some position of [s]. *)
Lemma test_true (r : regex) (s : jsstring) :
  test r s = true
  <-> exists p q, s = p ++ q /\ matchAt r (rev p) q <> None.
Proof.
  unfold test, search. split.
  - intros H. destruct (search_aux_found r s []) as (p & q & E & M).
    + destruct (search_aux r [] s); [discriminate | discriminate H].
    + exists p, q. split; [exact E|]. now rewrite app_nil_r in M.
  - intros (p & q & Hs & M). destruct (search_aux r [] s) eqn:E;
      [reflexivity|]. exfalso. apply M.
    pose proof (proj1 (search_aux_None r s []) E p q Hs) as N.
    now rewrite app_nil_r in N.
Qed.

Lemma isChar_eq (a c : ascii) : isChar a c = true -> c = a.
Proof. unfold isChar. now intros H%Ascii.eqb_eq. Qed.

Lemma markdownExt_matched (bef aft : jsstring) :
  matchAt markdownExt bef aft <> None ->
  exists ext, aft = "."%char :: ext
    /\ (toLowerCase ext = str "md" \/ toLowerCase ext = str "mdx").
Proof.
  unfold matchAt, markdownExt.
  let s := eval vm_compute in (str "md") in change (str "md") with s.
  let s := eval vm_compute in (str "mdx") in change (str "mdx") with s.
  cbn [LitI].
  change (toLowerChar "m") with "m"%char.
  change (toLowerChar "d") with "d"%char.
  change (toLowerChar "x") with "x"%char.
  destruct aft as [|a [|b [|c [|d [|e aft]]]]];
    cbn -[toLowerChar isChar]; try congruence;
    repeat match goal with
    | |- context [isChar ?x ?y] =>
        let E := fresh "E" in
        destruct (isChar x y) eqn:E; [apply isChar_eq in E|];
        cbn -[toLowerChar isChar]; try congruence
    end; intros _; subst; eexists; (split; [reflexivity|]);
    cbn [toLowerCase map]; try (left; congruence); try (right; congruence).
Qed.

Lemma markdownExt_matches (bef ext : jsstring) :
  toLowerCase ext = str "md" \/ toLowerCase ext = str "mdx" ->
  matchAt markdownExt bef ("."%char :: ext) <> None.
Proof.
  unfold matchAt, markdownExt.
  let s := eval vm_compute in (str "md") in change (str "md") with s.
  let s := eval vm_compute in (str "mdx") in change (str "mdx") with s.
  cbn [LitI].
  change (toLowerChar "m") with "m"%char.
  change (toLowerChar "d") with "d"%char.
  change (toLowerChar "x") with "x"%char.
  intros [H|H]; cbn [toLowerCase map] in H.
  - destruct ext as [|b [|c [|d ext]]]; try discriminate H.
    cbn [map] in H. injection H as Hb Hc.
    cbn -[toLowerChar isChar]. rewrite Hb, Hc. cbn. discriminate.
  - destruct ext as [|b [|c [|d [|e ext]]]]; try discriminate H.
    cbn [map] in H. injection H as Hb Hc Hd.
    cbn -[toLowerChar isChar]. rewrite Hb, Hc, Hd. cbn. discriminate.
Qed.

Lemma markdown_names_iff (name : jsstring) :
  test markdownExt name = true <-> isMarkdownName name.
Proof.
  rewrite test_true. unfold isMarkdownName. split.
  - intros (p & q & -> & M). apply markdownExt_matched in M.
    destruct M as (ext & -> & H). now exists p, ext.
  - intros (stem & ext & -> & H). exists stem, ("."%char :: ext).
    split; [reflexivity|]. now apply markdownExt_matches.
Qed.

(** X12: the name test of the file finder holds exactly of the names
    that end in a dot followed by [md] or [mdx], in any mix of upper and
    lower case. *)
Theorem markdown_names (name : jsstring) :
  test markdownExt name = true <-> isMarkdownName name.
Proof. apply markdown_names_iff. Qed.

(** ** The walk through the directories *)

Lemma Dirent_nested_ind (Q : Dirent -> Prop) :
  (forall name, Q (FileEntry name)) ->
  (forall name entries, Forall Q entries -> Q (DirEntry name entries)) ->
  (forall name, Q (OtherEntry name)) ->
  forall entry, Q entry.
Proof.
  intros HF HD HO. fix IH 1. intros [name|name entries|name].
  - apply HF.
  - apply HD. induction entries as [|e entries IHl]; constructor;
      [apply IH | exact IHl].
  - apply HO.
Qed.

Section Finder.

Context {P : PathApi}.

Lemma visitEntry_reaches (entry : Dirent) :
  forall (dir path : jsstring) (entries : list Dirent),
    In entry entries -> In path (visitEntry dir entry) ->
    exists name, reaches dir entries path name /\ test markdownExt name = true.
Proof.
  induction entry as [name|name below IH|name] using Dirent_nested_ind;
    intros dir path entries He Hp; cbn [visitEntry] in Hp.
  - destruct (test markdownExt name) eqn:T; [|contradiction].
    destruct Hp as [<-|[]]. exists name. split; [|exact T].
    now apply reaches_file.
  - apply in_flat_map in Hp. destruct Hp as (e & Hin & Hp).
    rewrite Forall_forall in IH.
    destruct (IH e Hin (path_join dir name) path below Hin Hp)
      as (file & R & T).
    exists file. split; [|exact T]. eapply reaches_below; eassumption.
  - contradiction.
Qed.

Lemma reaches_visited (dir : jsstring) (entries : list Dirent)
  (path name : jsstring) :
  reaches dir entries path name -> test markdownExt name = true ->
  In path (flat_map (visitEntry dir) entries).
Proof.
  intros R T.
  induction R as [dir entries name H|dir entries sub below path name H R IH].
  - apply in_flat_map. exists (FileEntry name). split; [exact H|].
    cbn [visitEntry]. rewrite T. now left.
  - apply in_flat_map. exists (DirEntry sub below). split; [exact H|].
    cbn [visitEntry]. now apply IH.
Qed.

(** X13: the file finder returns the paths of the regular files with a
    Markdown name that lie in the directory or below it, and only these;
    a directory that does not exist holds none, and an entry that is
    neither a file nor a directory is passed over. *)
Theorem found_files (fs : FileSystem) (dir path : jsstring) :
  In path (findMarkdownFiles fs dir)
  <-> exists entries name,
        readdir fs dir = Some entries
        /\ reaches dir entries path name
        /\ isMarkdownName name.
Proof.
  unfold findMarkdownFiles. split.
  - destruct (readdir fs dir) as [entries|]; [|contradiction].
    intros H. apply in_flat_map in H. destruct H as (e & He & Hp).
    destruct (visitEntry_reaches e dir path entries He Hp) as (name & R & T).
    exists entries, name. repeat split; [exact R|].
    now apply markdown_names_iff.
  - intros (entries & name & -> & R & M).
    apply (reaches_visited dir entries path name R).
    now apply markdown_names_iff.
Qed.

End Finder.

(** ** Relative directories *)

Lemma splitChar_aux_pieces (c : ascii) (s cur piece : jsstring) :
  ~ In c cur -> In piece (splitChar_aux c cur s) -> ~ In c piece.
Proof.
  revert cur; induction s as [|x s IH]; intros cur Hcur H;
    cbn [splitChar_aux] in H.
  - destruct H as [<-|[]]. now rewrite <- in_rev.
  - destruct (Ascii.eqb_spec x c) as [->|N].
    + destruct H as [<-|H]; [now rewrite <- in_rev|].
      apply (IH [] (fun F => F) H).
    + apply (IH (x :: cur)); [|exact H].
      intros [E|I]; [now apply N | now apply Hcur].
Qed.

Lemma segments_clean (p seg : jsstring) :
  In seg (Posix.segments p) -> seg <> [] /\ ~ In "/"%char seg.
Proof.
  unfold Posix.segments. intros H. apply filter_In in H.
  destruct H as [H N]. split.
  - intros ->. discriminate N.
  - apply (splitChar_aux_pieces "/"%char p [] seg (fun F => F) H).
Qed.

Lemma normalizeSegments_from (absolute : bool) (segs stack : list jsstring)
  (x : jsstring) :
  In x (Posix.normalizeSegments absolute stack segs) ->
  In x stack \/ In x segs.
Proof.
  revert stack; induction segs as [|seg rest IH]; intros stack H;
    cbn [Posix.normalizeSegments] in H.
  - left. now apply in_rev.
  - destruct (jseqb seg (str ".")).
    { destruct (IH _ H); [now left | right; now right]. }
    destruct (jseqb seg (str "..")).
    + destruct stack as [|top stack'].
      * destruct absolute.
        -- destruct (IH _ H) as [[]|I]. right; now right.
        -- destruct (IH _ H) as [[<-|[]]|I]; right; [now left | now right].
      * destruct (jseqb top (str "..")).
        -- destruct (IH _ H) as [[<-|I]|I];
             [right; now left | now left | right; now right].
        -- destruct (IH _ H) as [I|I]; [left; now right | right; now right].
    + destruct (IH _ H) as [[<-|I]|I];
        [right; now left | now left | right; now right].
Qed.

Lemma join_head (sep x : jsstring) (l : list jsstring) (c : ascii)
  (x' : jsstring) :
  x = c :: x' -> exists t, join sep (x :: l) = c :: t.
Proof.
  intros ->. destruct l as [|y l]; cbn [join app]; eexists; reflexivity.
Qed.

Lemma isRelative_cons (c : ascii) (p : jsstring) :
  isRelative (c :: p) = negb (Ascii.eqb "/" c).
Proof.
  unfold isRelative, Posix.isAbsolute.
  change (str "/") with ["/"%char]. cbn [nonEmpty startsWith andb].
  now rewrite andb_true_r.
Qed.

Lemma isAbsolute_app (a b : jsstring) :
  a <> [] -> Posix.isAbsolute (a ++ b) = Posix.isAbsolute a.
Proof. destruct a as [|c a]; [congruence|]. reflexivity. Qed.

Lemma normalize_relative (p : jsstring) :
  Posix.isAbsolute p = false -> isRelative (Posix.normalize p) = true.
Proof.
  intros A. unfold Posix.normalize. rewrite A.
  set (segs := Posix.normalizeSegments false [] (Posix.segments p)).
  assert (C : forall seg, In seg segs -> seg <> [] /\ ~ In "/"%char seg).
  { intros seg H. apply normalizeSegments_from in H.
    destruct H as [[]|H]. now apply (segments_clean p). }
  destruct segs as [|x l] eqn:E.
  - reflexivity.
  - destruct (C x (or_introl eq_refl)) as [Nx Sx].
    destruct x as [|c x']; [congruence|].
    destruct (join_head (str "/") (c :: x') l c x' eq_refl) as [t ->].
    assert (R : negb (Ascii.eqb "/" c) = true).
    { apply negb_true_iff. destruct (Ascii.eqb_spec "/"%char c) as [<-|];
        [|reflexivity]. exfalso. apply Sx. now left. }
    cbn [nonEmpty andb].
    destruct (endsWith p (str "/")); cbn [app nonEmpty];
      now rewrite isRelative_cons.
Qed.

Lemma relative_not_absolute (p : jsstring) :
  isRelative p = true -> p <> [] /\ Posix.isAbsolute p = false.
Proof.
  unfold isRelative. intros H. apply andb_true_iff in H.
  destruct H as [N A]. apply negb_true_iff in A. split; [|exact A].
  intros ->. discriminate N.
Qed.

Lemma join2_relative (a b : jsstring) :
  isRelative a = true -> isRelative (Posix.join2 a b) = true.
Proof.
  intros H. destruct (relative_not_absolute a H) as [N A].
  unfold Posix.join2. destruct a as [|c a]; [congruence|].
  destruct b as [|d b]; apply normalize_relative; [exact A|].
  now rewrite isAbsolute_app by discriminate.
Qed.

Lemma visitEntry_relative (cwd : jsstring) (entry : Dirent) :
  forall dir file,
    isRelative dir = true ->
    In file (visitEntry (P := Posix.api cwd) dir entry) ->
    isRelative file = true.
Proof.
  induction entry as [name|name below IH|name] using Dirent_nested_ind;
    intros dir file R H; cbn [visitEntry] in H.
  - destruct (test markdownExt name); [|contradiction].
    destruct H as [<-|[]]. now apply join2_relative.
  - apply in_flat_map in H. destruct H as (e & He & H).
    rewrite Forall_forall in IH.
    apply (IH e He (Posix.join2 dir name) file); [|exact H].
    now apply join2_relative.
  - contradiction.
Qed.

Lemma relative_is_not_below (cwd dir file : jsstring) :
  isRelative file = true ->
  startsWith file (Posix.resolve cwd dir) = false.
Proof.
  intros R. unfold Posix.resolve. change (str "/") with ["/"%char].
  cbn [app]. destruct file as [|c file]; [reflexivity|].
  rewrite isRelative_cons in R. apply negb_true_iff in R.
  cbn [startsWith]. now rewrite R.
Qed.

(** X14: when the docs directory is given as a relative path, as it is
    by default, the paths of the files found in it are relative as well,
    so none of them begins with the resolved, absolute docs directory:
    [main] takes the blog directory as the base directory of every one of
    them, in both scripts. *)
Theorem relative_docs_files_get_blog_base (cwd : jsstring) (fs : FileSystem)
  (config : BuildRagIndex.Config) (configE : BuildRagIndexEmbeddings.Config)
  (file : jsstring) :
  (isRelative (BuildRagIndex.docsDir config) = true ->
   In file (findMarkdownFiles (P := Posix.api cwd) fs
              (BuildRagIndex.docsDir config)) ->
   BuildRagIndex.baseDirOf (P := Posix.api cwd) config file
   = BuildRagIndex.blogDir config)
  /\ (isRelative (BuildRagIndexEmbeddings.docsDir configE) = true ->
      In file (findMarkdownFiles (P := Posix.api cwd) fs
                 (BuildRagIndexEmbeddings.docsDir configE)) ->
      BuildRagIndexEmbeddings.baseDirOf (P := Posix.api cwd) configE file
      = BuildRagIndexEmbeddings.blogDir configE).
Proof.
  assert (F : forall dir, isRelative dir = true ->
                In file (findMarkdownFiles (P := Posix.api cwd) fs dir) ->
                isRelative file = true).
  { intros dir R H. unfold findMarkdownFiles in H.
    destruct (readdir fs dir) as [entries|]; [|contradiction].
    apply in_flat_map in H. destruct H as (e & _ & H).
    now apply (visitEntry_relative cwd e dir file). }
  split; intros R H.
  - unfold BuildRagIndex.baseDirOf. cbn [path_resolve Posix.api].
    now rewrite (relative_is_not_below cwd _ file (F _ R H)).
  - unfold BuildRagIndexEmbeddings.baseDirOf. cbn [path_resolve Posix.api].
    now rewrite (relative_is_not_below cwd _ file (F _ R H)).
Qed.

Lemma relative_docs_witness :
  BuildRagIndex.baseDirOf (P := node) BuildRagIndex.DEFAULT_CONFIG
    (str "docs/a.md")
  = str "./blog"
  /\ BuildRagIndexEmbeddings.baseDirOf (P := node)
       BuildRagIndexEmbeddings.DEFAULT_CONFIG (str "docs/a.md")
     = str "./blog".
Proof.
  destruct (relative_docs_files_get_blog_base cwd (singleFileSite longBody)
              BuildRagIndex.DEFAULT_CONFIG
              BuildRagIndexEmbeddings.DEFAULT_CONFIG (str "docs/a.md"))
    as [HK HE].
  split.
  - apply HK; [reflexivity | vm_compute; now left].
  - apply HE; [reflexivity | vm_compute; now left].
Defined.

(** * Further properties of the runs *)

Lemma frontmatter_bodies_agree (content : jsstring) :
  snd (BuildRagIndexEmbeddings.parseFrontmatter content)
  = snd (BuildRagIndex.parseFrontmatter content).
Proof.
  unfold BuildRagIndex.parseFrontmatter,
    BuildRagIndexEmbeddings.parseFrontmatter.
  now destruct (jsmatch frontmatterRegex content) as [[match0 frontmatter]|].
Qed.

(** X15: run with the same chunk size and overlap, the two scripts cut
    a file into the same chunks and give them the same identifiers,
    sources, slugs and numbers; their records differ in the title, which
    each script reads with its own quote removal, and in the fields only
    one of them has. *)
Theorem scripts_cut_alike (P : PathApi) (Vector : Type) (fs : FileSystem)
  (filePath baseDir : jsstring) (config : BuildRagIndex.Config)
  (configE : BuildRagIndexEmbeddings.Config) :
  BuildRagIndexEmbeddings.chunkSize configE = BuildRagIndex.chunkSize config ->
  BuildRagIndexEmbeddings.chunkOverlap configE
  = BuildRagIndex.chunkOverlap config ->
  let records := BuildRagIndex.processFile fs filePath config baseDir in
  let recordsE :=
    BuildRagIndexEmbeddings.processFile Vector fs filePath configE baseDir in
  map (BuildRagIndexEmbeddings.content Vector) recordsE
  = map BuildRagIndex.content records
  /\ map (BuildRagIndexEmbeddings.id Vector) recordsE
     = map BuildRagIndex.id records
  /\ map (BuildRagIndexEmbeddings.source Vector) recordsE
     = map BuildRagIndex.source records
  /\ map (BuildRagIndexEmbeddings.slug Vector) recordsE
     = map BuildRagIndex.slug records
  /\ map (BuildRagIndexEmbeddings.chunkIndex Vector) recordsE
     = map BuildRagIndex.chunkIndex records
  /\ map (BuildRagIndexEmbeddings.totalChunks Vector) recordsE
     = map BuildRagIndex.totalChunks records.
Proof.
  intros Hsize Hoverlap.
  unfold BuildRagIndex.processFile, BuildRagIndexEmbeddings.processFile.
  pose proof (frontmatter_bodies_agree (readFile fs filePath)) as B.
  destruct (BuildRagIndex.parseFrontmatter (readFile fs filePath))
    as [metadata body].
  destruct (BuildRagIndexEmbeddings.parseFrontmatter (readFile fs filePath))
    as [metadataE bodyE].
  cbn [snd] in B. subst bodyE.
  unfold BuildRagIndexEmbeddings.cleanMarkdown,
    BuildRagIndex.cleanMarkdownContent.
  rewrite Hsize, Hoverlap. cbv zeta.
  destruct (negb _ || _); [repeat split|].
  unfold mapi, generateChunkId. rewrite !mapi_aux_map.
  repeat split; reflexivity.
Qed.

Lemma scripts_cut_alike_witness :
  map (BuildRagIndexEmbeddings.content nat)
    (BuildRagIndexEmbeddings.processFile (P := node) nat
       (singleFileSite longBody) (str "docs/a.md")
       BuildRagIndexEmbeddings.DEFAULT_CONFIG (str "./docs"))
  = map BuildRagIndex.content
      (BuildRagIndex.processFile (P := node) (singleFileSite longBody)
         (str "docs/a.md") compactConfig (str "./docs")).
Proof.
  apply (scripts_cut_alike node nat (singleFileSite longBody)
           (str "docs/a.md") (str "./docs") compactConfig
           BuildRagIndexEmbeddings.DEFAULT_CONFIG); reflexivity.
Defined.


Section EveryRequestFails.

Context {P : PathApi}.
Variable Vector : Type.
Variable dimension : Vector -> nat.
Variable send : nat -> jsstring -> jsstring -> option Vector + jsstring.
Variable arrival : list BuildRagIndexEmbeddings.ErrorRecord
                   -> list BuildRagIndexEmbeddings.ErrorRecord.
Variable config : BuildRagIndexEmbeddings.Config.

Hypothesis every_request_fails :
  forall n text model, exists message, send n text model = inr message.

Lemma nothing_embedded (l : list (BuildRagIndexEmbeddings.Chunk Vector))
  (k : nat) :
  map fst (mapi_aux (BuildRagIndexEmbeddings.embedChunk Vector send config)
             k l) = l
  /\ length (flat_map snd
               (mapi_aux (BuildRagIndexEmbeddings.embedChunk Vector send config)
                  k l))
     = length l.
Proof.
  revert k; induction l as [|c l IH]; intros k; [now split|].
  cbn [mapi_aux map flat_map]. destruct (IH (S k)) as [IH1 IH2].
  rewrite IH1, length_app, IH2.
  unfold BuildRagIndexEmbeddings.embedChunk,
    BuildRagIndexEmbeddings.generateEmbedding.
  destruct (every_request_fails k
              (slice (BuildRagIndexEmbeddings.content Vector c) 0 8000)
              (BuildRagIndexEmbeddings.embeddingModel config))
    as [message ->].
  now split.
Qed.

End EveryRequestFails.

(** X17: when the embedding service fails on every request, the
    embeddings script still writes its index: it holds no chunk, its
    [embeddingDimension] is 0, and every chunk produced is counted as
    failed. *)
Theorem every_request_failing (P : PathApi) (Vector : Type)
  (dimension : Vector -> nat)
  (send : nat -> jsstring -> jsstring -> option Vector + jsstring)
  (arrival : list BuildRagIndexEmbeddings.ErrorRecord
             -> list BuildRagIndexEmbeddings.ErrorRecord)
  (fuel : nat) (fs : FileSystem) (config : BuildRagIndexEmbeddings.Config)
  (now : jsstring) :
  (forall l, Permutation (arrival l) l) ->
  0 < BuildRagIndexEmbeddings.batchSize config ->
  findMarkdownFiles fs (BuildRagIndexEmbeddings.docsDir config)
  ++ findMarkdownFiles fs (BuildRagIndexEmbeddings.blogDir config) <> [] ->
  length (BuildRagIndexEmbeddings.collectChunks Vector fs config) < fuel ->
  (forall n text model, exists message, send n text model = inr message) ->
  exists index,
    BuildRagIndexEmbeddings.main Vector dimension send arrival fuel fs
      config now
    = Some (Wrote (BuildRagIndexEmbeddings.outputFile config) index)
    /\ BuildRagIndexEmbeddings.chunks Vector index = []
    /\ BuildRagIndexEmbeddings.embeddingDimension Vector index = 0
    /\ BuildRagIndexEmbeddings.stats_successfulChunks
         (BuildRagIndexEmbeddings.stats Vector index) = 0
    /\ BuildRagIndexEmbeddings.stats_failedChunks
         (BuildRagIndexEmbeddings.stats Vector index)
       = length (BuildRagIndexEmbeddings.collectChunks Vector fs config).
Proof.
  intros Harrival Hbatch Hfiles Hfuel Hfail.
  unfold BuildRagIndexEmbeddings.main.
  destruct (findMarkdownFiles fs (BuildRagIndexEmbeddings.docsDir config)
            ++ findMarkdownFiles fs (BuildRagIndexEmbeddings.blogDir config))
    as [|file files] eqn:Efiles; [contradiction|].
  cbn [nonEmpty negb].
  set (produced := BuildRagIndexEmbeddings.collectChunks Vector fs config)
    in *.
  destruct (embedAll_from_start Vector send arrival Harrival config Hbatch
              produced fuel Hfuel) as (errors & -> & Herrors).
  destruct (nothing_embedded Vector send config Hfail produced 0)
    as [Hsame Hcount].
  fold (mapi (BuildRagIndexEmbeddings.embedChunk Vector send config) produced)
    in Hsame, Hcount.
  rewrite Hsame.
  assert (Hnone : filter (BuildRagIndexEmbeddings.hasEmbedding Vector) produced
                  = []).
  { assert (Hnull : Forall (fun c => BuildRagIndexEmbeddings.embedding Vector c
                                     = None) produced).
    { apply Forall_flat_map, Forall_forall. intros f _.
      destruct (processFileE_indices Vector fs f config
                  (BuildRagIndexEmbeddings.baseDirOf config f))
        as (_ & _ & H & _).
      eapply Forall_impl; [|exact H]. now intros r [_ ?]. }
    clear - Hnull. induction Hnull as [|c l Hc Hl IH]; [reflexivity|].
    cbn [filter]. unfold BuildRagIndexEmbeddings.hasEmbedding at 1.
    now rewrite Hc. }
  eexists. split; [reflexivity|].
  cbn [BuildRagIndexEmbeddings.chunks BuildRagIndexEmbeddings.stats
       BuildRagIndexEmbeddings.embeddingDimension
       BuildRagIndexEmbeddings.stats_failedChunks
       BuildRagIndexEmbeddings.stats_successfulChunks].
  rewrite Hnone. repeat split.
  now rewrite (Permutation_length Herrors).
Qed.

Lemma every_request_failing_witness :
  exists index,
    BuildRagIndexEmbeddings.main (P := node) (list nat) (@length nat)
      alwaysThrottled (@rev _) 3 (twoFileSite (str "a.md") (str "b.md"))
      BuildRagIndexEmbeddings.DEFAULT_CONFIG timestamp
    = Some (Wrote (str "./rag-index-embeddings.json") index)
    /\ BuildRagIndexEmbeddings.chunks (list nat) index = []
    /\ BuildRagIndexEmbeddings.embeddingDimension (list nat) index = 0
    /\ BuildRagIndexEmbeddings.stats_successfulChunks
         (BuildRagIndexEmbeddings.stats (list nat) index) = 0
    /\ BuildRagIndexEmbeddings.stats_failedChunks
         (BuildRagIndexEmbeddings.stats (list nat) index)
       = length (BuildRagIndexEmbeddings.collectChunks (P := node) (list nat)
                   (twoFileSite (str "a.md") (str "b.md"))
                   BuildRagIndexEmbeddings.DEFAULT_CONFIG).
Proof.
  apply (every_request_failing node (list nat) (@length nat) alwaysThrottled
           (@rev _) 3 (twoFileSite (str "a.md") (str "b.md"))
           BuildRagIndexEmbeddings.DEFAULT_CONFIG timestamp).
  - intros l. symmetry. apply Permutation_rev.
  - vm_compute. lia.
  - vm_compute. discriminate.
  - vm_compute. lia.
  - intros n text model. eexists. reflexivity.
Defined.

Lemma embedAll_region (Vector : Type)
  (send : nat -> jsstring -> jsstring -> option Vector + jsstring)
  (arrival : list BuildRagIndexEmbeddings.ErrorRecord
             -> list BuildRagIndexEmbeddings.ErrorRecord)
  (config : BuildRagIndexEmbeddings.Config) (region : jsstring)
  (fuel : nat) :
  forall i state,
    BuildRagIndexEmbeddings.embedAll Vector send arrival fuel
      (withRegion config region) i state
    = BuildRagIndexEmbeddings.embedAll Vector send arrival fuel config i state.
Proof.
  induction fuel as [|fuel IH]; intros i state; [reflexivity|].
  cbn [BuildRagIndexEmbeddings.embedAll].
  destruct (i <? length (fst state)); [|reflexivity].
  rewrite IH. reflexivity.
Qed.

(** X18: the region of the configuration (the option [--region]) has no
    part in the index: the embedding request takes the text and the
    model only, so a run with another region, the service answering
    alike, ends the same. *)
Theorem region_is_not_used (P : PathApi) (Vector : Type)
  (dimension : Vector -> nat)
  (send : nat -> jsstring -> jsstring -> option Vector + jsstring)
  (arrival : list BuildRagIndexEmbeddings.ErrorRecord
             -> list BuildRagIndexEmbeddings.ErrorRecord)
  (fuel : nat) (fs : FileSystem) (config : BuildRagIndexEmbeddings.Config)
  (region now : jsstring) :
  BuildRagIndexEmbeddings.main Vector dimension send arrival fuel fs
    (withRegion config region) now
  = BuildRagIndexEmbeddings.main Vector dimension send arrival fuel fs
      config now.
Proof.
  unfold BuildRagIndexEmbeddings.main. rewrite embedAll_region. reflexivity.
Qed.

(** * Properties of the command line *)

Lemma sliceFrom_In {A} (l : list A) (start : Z) (x : A) :
  In x (sliceFrom l start) -> In x l.
Proof.
  unfold sliceFrom. intros H.
  rewrite <- (firstn_skipn (relIndex (length l) start) l).
  apply in_or_app. now right.
Qed.

(** The loops are followed by induction on the number of arguments left,
    since an option takes two of them. *)
Lemma args_ind {A} (Q : list A -> Prop) :
  Q [] ->
  (forall x, Q [x]) ->
  (forall x rest, Q rest -> (forall y rest', rest = y :: rest' -> Q rest') ->
     Q (x :: rest)) ->
  forall l, Q l.
Proof.
  intros H0 H1 HS l.
  assert (B : Q l /\ forall y l', l = y :: l' -> Q l').
  { induction l as [|x l [IH IH']].
    - split; [exact H0 | discriminate].
    - split.
      + apply HS; [exact IH | exact IH'].
      + now intros y l' [= _ <-]. }
  apply B.
Qed.

Ltac by_assignment unfolder :=
  unfolder;
  repeat match goal with
  | |- context [jseqb ?a ?b] =>
      let E := fresh "E" in
      destruct (jseqb a b) eqn:E; [apply jseqb_eq in E; subst a|];
      cbv beta iota
  end.

Ltac absent N := intros I; apply N; right; exact I.
Ltac absent2 N := intros I; apply N; right; right; exact I.

(** ** Exits *)

Lemma keyword_loop_exit (args : list jsstring) :
  forall config exitCode,
    BuildRagIndexCli.parseLoop args config = Exited exitCode ->
    exitCode = 0 /\ In (str "--help") args.
Proof.
  induction args as [| x | x rest IH IH'] using args_ind;
    intros config exitCode; cbn [BuildRagIndexCli.parseLoop].
  - discriminate.
  - destruct (BuildRagIndexCli.assignment x); [discriminate|].
    destruct (jseqb x (str "--help")) eqn:E; [|discriminate].
    apply jseqb_eq in E. intros [= <-]. split; [reflexivity | now left].
  - destruct (BuildRagIndexCli.assignment x).
    + destruct rest as [|value rest']; [discriminate|].
      intros H. destruct (IH' value rest' eq_refl _ _ H) as [-> I].
      split; [reflexivity | right; now right].
    + destruct (jseqb x (str "--help")) eqn:E.
      * apply jseqb_eq in E. intros [= <-]. split; [reflexivity | now left].
      * intros H. destruct (IH _ _ H) as [-> I].
        split; [reflexivity | now right].
Qed.

Lemma embeddings_loop_exit (args : list jsstring) :
  forall config exitCode,
    BuildRagIndexEmbeddingsCli.parseLoop args config = Exited exitCode ->
    exitCode = 0 /\ In (str "--help") args.
Proof.
  induction args as [| x | x rest IH IH'] using args_ind;
    intros config exitCode; cbn [BuildRagIndexEmbeddingsCli.parseLoop].
  - discriminate.
  - destruct (BuildRagIndexEmbeddingsCli.assignment x); [discriminate|].
    destruct (jseqb x (str "--help")) eqn:E; [|discriminate].
    apply jseqb_eq in E. intros [= <-]. split; [reflexivity | now left].
  - destruct (BuildRagIndexEmbeddingsCli.assignment x).
    + destruct rest as [|value rest']; [discriminate|].
      intros H. destruct (IH' value rest' eq_refl _ _ H) as [-> I].
      split; [reflexivity | right; now right].
    + destruct (jseqb x (str "--help")) eqn:E.
      * apply jseqb_eq in E. intros [= <-]. split; [reflexivity | now left].
      * intros H. destruct (IH _ _ H) as [-> I].
        split; [reflexivity | now right].
Qed.

(** X19: [parseArgs] ends the process only for [--help], and then with
    exit code 0: whatever the arguments, it either returns a
    configuration, or [--help] is among the arguments behind the script
    name and the exit code is 0.  No argument is rejected. *)
Theorem parseArgs_exits_for_help_only (AWS_REGION : option jsstring)
  (argv : list jsstring) :
  match BuildRagIndexCli.parseArgs argv with
  | Exited exitCode => exitCode = 0 /\ In (str "--help") (sliceFrom argv 2)
  | Returned _ => True
  end
  /\ match BuildRagIndexEmbeddingsCli.parseArgs AWS_REGION argv with
     | Exited exitCode => exitCode = 0 /\ In (str "--help") (sliceFrom argv 2)
     | Returned _ => True
     end.
Proof.
  unfold BuildRagIndexCli.parseArgs, BuildRagIndexEmbeddingsCli.parseArgs.
  split.
  - destruct (BuildRagIndexCli.parseLoop _ _) eqn:E; [|exact I].
    now apply keyword_loop_exit in E.
  - destruct (BuildRagIndexEmbeddingsCli.parseLoop _ _) eqn:E; [|exact I].
    now apply embeddings_loop_exit in E.
Qed.

(** X20: [--help] ends the process with exit code 0 when no option that
    takes a value stands before it; the arguments before it that are not
    options, and everything behind it, are of no account. *)
Theorem help_exits (before behind : list jsstring) :
  (Forall (fun arg => BuildRagIndexCli.assignment arg = None) before ->
   forall config,
     BuildRagIndexCli.parseLoop (before ++ str "--help" :: behind) config
     = Exited 0)
  /\ (Forall (fun arg => BuildRagIndexEmbeddingsCli.assignment arg = None)
        before ->
      forall config,
        BuildRagIndexEmbeddingsCli.parseLoop
          (before ++ str "--help" :: behind) config
        = Exited 0).
Proof.
  split; intros H; induction H as [|x before Hx H IH]; intros config;
    cbn [app BuildRagIndexCli.parseLoop BuildRagIndexEmbeddingsCli.parseLoop].
  - reflexivity.
  - rewrite Hx. destruct (jseqb x (str "--help")); [reflexivity | apply IH].
  - reflexivity.
  - rewrite Hx. destruct (jseqb x (str "--help")); [reflexivity | apply IH].
Qed.

Lemma help_exits_witness :
  BuildRagIndexCli.parseLoop
    ([str "extra"; str "-h"] ++ str "--help" :: [str "--docs"])
    BuildRagIndexCli.DEFAULT_CONFIG
  = Exited 0
  /\ BuildRagIndexEmbeddingsCli.parseLoop
       ([str "extra"; str "-h"] ++ str "--help" :: [str "--docs"])
       (BuildRagIndexEmbeddingsCli.DEFAULT_CONFIG None)
     = Exited 0.
Proof.
  destruct (help_exits [str "extra"; str "-h"] [str "--docs"]) as [HK HE].
  split.
  - apply HK. repeat constructor.
  - apply HE. repeat constructor.
Defined.

(** ** Defaults *)

Lemma keyword_loop_defaults (args : list jsstring) :
  forall config result,
    BuildRagIndexCli.parseLoop args config = Returned result ->
    BuildRagIndexCli.chunkOverlap result = BuildRagIndexCli.chunkOverlap config
    /\ BuildRagIndexCli.excludePatterns result
       = BuildRagIndexCli.excludePatterns config
    /\ (~ In (str "--docs") args ->
        BuildRagIndexCli.docsDir result = BuildRagIndexCli.docsDir config)
    /\ (~ In (str "--blog") args ->
        BuildRagIndexCli.blogDir result = BuildRagIndexCli.blogDir config)
    /\ (~ In (str "--output") args ->
        BuildRagIndexCli.outputFile result
        = BuildRagIndexCli.outputFile config)
    /\ (~ In (str "--chunk-size") args ->
        BuildRagIndexCli.chunkSize result = BuildRagIndexCli.chunkSize config).
Proof.
  induction args as [| x | x rest IH IH'] using args_ind;
    intros config result; cbn [BuildRagIndexCli.parseLoop].
  - intros [= <-]. repeat split.
  - by_assignment ltac:(unfold BuildRagIndexCli.assignment);
      try discriminate; intros [= <-]; cbn; repeat split; intros N;
      try reflexivity; exfalso; apply N; now left.
  - destruct rest as [|value rest'].
    + by_assignment ltac:(unfold BuildRagIndexCli.assignment);
        try discriminate; intros [= <-]; cbn; repeat split; intros N;
        try reflexivity; exfalso; apply N; now left.
    + specialize (IH' value rest' eq_refl).
      by_assignment ltac:(unfold BuildRagIndexCli.assignment);
        try discriminate; intros H;
        [ apply IH' in H | apply IH' in H | apply IH' in H | apply IH' in H
        | apply IH in H ];
        cbn [BuildRagIndexCli.chunkOverlap BuildRagIndexCli.excludePatterns
             BuildRagIndexCli.docsDir BuildRagIndexCli.blogDir
             BuildRagIndexCli.outputFile BuildRagIndexCli.chunkSize] in H;
        destruct H as (H1 & H2 & H3 & H4 & H5 & H6);
        (split; [exact H1|]); (split; [exact H2|]);
        repeat split; intros N;
        first [ exfalso; apply N; now left
              | apply H3; first [absent2 N | absent N]
              | apply H4; first [absent2 N | absent N]
              | apply H5; first [absent2 N | absent N]
              | apply H6; first [absent2 N | absent N] ].
Qed.

Lemma embeddings_loop_defaults (args : list jsstring) :
  forall config result,
    BuildRagIndexEmbeddingsCli.parseLoop args config = Returned result ->
    BuildRagIndexEmbeddingsCli.chunkOverlap result
    = BuildRagIndexEmbeddingsCli.chunkOverlap config
    /\ BuildRagIndexEmbeddingsCli.batchSize result
       = BuildRagIndexEmbeddingsCli.batchSize config
    /\ BuildRagIndexEmbeddingsCli.delayMs result
       = BuildRagIndexEmbeddingsCli.delayMs config
    /\ (~ In (str "--docs") args ->
        BuildRagIndexEmbeddingsCli.docsDir result
        = BuildRagIndexEmbeddingsCli.docsDir config)
    /\ (~ In (str "--blog") args ->
        BuildRagIndexEmbeddingsCli.blogDir result
        = BuildRagIndexEmbeddingsCli.blogDir config)
    /\ (~ In (str "--output") args ->
        BuildRagIndexEmbeddingsCli.outputFile result
        = BuildRagIndexEmbeddingsCli.outputFile config)
    /\ (~ In (str "--chunk-size") args ->
        BuildRagIndexEmbeddingsCli.chunkSize result
        = BuildRagIndexEmbeddingsCli.chunkSize config)
    /\ (~ In (str "--region") args ->
        BuildRagIndexEmbeddingsCli.region result
        = BuildRagIndexEmbeddingsCli.region config)
    /\ (~ In (str "--model") args ->
        BuildRagIndexEmbeddingsCli.embeddingModel result
        = BuildRagIndexEmbeddingsCli.embeddingModel config).
Proof.
  induction args as [| x | x rest IH IH'] using args_ind;
    intros config result; cbn [BuildRagIndexEmbeddingsCli.parseLoop].
  - intros [= <-]. repeat split.
  - by_assignment ltac:(unfold BuildRagIndexEmbeddingsCli.assignment);
      try discriminate; intros [= <-]; cbn; repeat split; intros N;
      try reflexivity; exfalso; apply N; now left.
  - destruct rest as [|value rest'].
    + by_assignment ltac:(unfold BuildRagIndexEmbeddingsCli.assignment);
        try discriminate; intros [= <-]; cbn; repeat split; intros N;
        try reflexivity; exfalso; apply N; now left.
    + specialize (IH' value rest' eq_refl).
      by_assignment ltac:(unfold BuildRagIndexEmbeddingsCli.assignment);
        try discriminate; intros H;
        [ apply IH' in H | apply IH' in H | apply IH' in H | apply IH' in H
        | apply IH' in H | apply IH' in H | apply IH in H ];
        cbn [BuildRagIndexEmbeddingsCli.chunkOverlap
             BuildRagIndexEmbeddingsCli.batchSize
             BuildRagIndexEmbeddingsCli.delayMs
             BuildRagIndexEmbeddingsCli.docsDir
             BuildRagIndexEmbeddingsCli.blogDir
             BuildRagIndexEmbeddingsCli.outputFile
             BuildRagIndexEmbeddingsCli.chunkSize
             BuildRagIndexEmbeddingsCli.region
             BuildRagIndexEmbeddingsCli.embeddingModel] in H;
        destruct H as (H1 & H2 & H3 & H4 & H5 & H6 & H7 & H8 & H9);
        (split; [exact H1|]); (split; [exact H2|]); (split; [exact H3|]);
        repeat split; intros N;
        first [ exfalso; apply N; now left
              | apply H4; first [absent2 N | absent N]
              | apply H5; first [absent2 N | absent N]
              | apply H6; first [absent2 N | absent N]
              | apply H7; first [absent2 N | absent N]
              | apply H8; first [absent2 N | absent N]
              | apply H9; first [absent2 N | absent N] ].
Qed.

(** X21: the configuration [parseArgs] of the keyword script returns
    has the overlap 200 and the exclude patterns of the defaults, for
    which there is no option, and the default of every field whose option
    is not among the arguments. *)
Theorem keyword_defaults_kept (argv : list jsstring)
  (result : BuildRagIndexCli.Config) :
  BuildRagIndexCli.parseArgs argv = Returned result ->
  let given flag := In (str flag) (sliceFrom argv 2) in
  BuildRagIndexCli.chunkOverlap result = 200
  /\ BuildRagIndexCli.excludePatterns result
     = BuildRagIndexCli.excludePatterns BuildRagIndexCli.DEFAULT_CONFIG
  /\ (~ given "--docs"%string ->
      BuildRagIndexCli.docsDir result = Some (str "./docs"))
  /\ (~ given "--blog"%string ->
      BuildRagIndexCli.blogDir result = Some (str "./blog"))
  /\ (~ given "--output"%string ->
      BuildRagIndexCli.outputFile result
      = Some (str "./static/rag-index.json"))
  /\ (~ given "--chunk-size"%string ->
      BuildRagIndexCli.chunkSize result = Number 1000).
Proof.
  intros H. apply keyword_loop_defaults in H. exact H.
Qed.

Lemma keyword_defaults_witness :
  exists result,
    BuildRagIndexCli.parseArgs sampleArgv = Returned result
    /\ BuildRagIndexCli.docsDir result = Some (str "./guide")
    /\ BuildRagIndexCli.chunkSize result = ParseInt None
    /\ BuildRagIndexCli.chunkOverlap result = 200
    /\ BuildRagIndexCli.blogDir result = Some (str "./blog").
Proof.
  eexists. split; [vm_compute; reflexivity|].
  split; [reflexivity|]. split; [reflexivity|].
  destruct (keyword_defaults_kept sampleArgv _ eq_refl)
    as (Hoverlap & _ & _ & Hblog & _).
  split; [exact Hoverlap|]. apply Hblog. vm_compute.
  intuition discriminate.
Defined.

(** X22: the configuration [parseArgs] of the embeddings script returns
    has the overlap 100, the batch size 5 and the delay 200 of the
    defaults, for which there is no option, and the default of every field
    whose option is not among the arguments; the default region is the
    environment variable [AWS_REGION], or [us-east-1] when that is unset
    or empty. *)
Theorem embeddings_defaults_kept (AWS_REGION : option jsstring)
  (argv : list jsstring) (result : BuildRagIndexEmbeddingsCli.Config) :
  BuildRagIndexEmbeddingsCli.parseArgs AWS_REGION argv = Returned result ->
  let given flag := In (str flag) (sliceFrom argv 2) in
  BuildRagIndexEmbeddingsCli.chunkOverlap result = 100
  /\ BuildRagIndexEmbeddingsCli.batchSize result = 5
  /\ BuildRagIndexEmbeddingsCli.delayMs result = 200
  /\ (~ given "--docs"%string ->
      BuildRagIndexEmbeddingsCli.docsDir result = Some (str "./docs"))
  /\ (~ given "--blog"%string ->
      BuildRagIndexEmbeddingsCli.blogDir result = Some (str "./blog"))
  /\ (~ given "--output"%string ->
      BuildRagIndexEmbeddingsCli.outputFile result
      = Some (str "./rag-index-embeddings.json"))
  /\ (~ given "--chunk-size"%string ->
      BuildRagIndexEmbeddingsCli.chunkSize result = Number 512)
  /\ (~ given "--region"%string ->
      BuildRagIndexEmbeddingsCli.region result
      = Some (orElse AWS_REGION (str "us-east-1")))
  /\ (~ given "--model"%string ->
      BuildRagIndexEmbeddingsCli.embeddingModel result
      = Some (str "amazon.titan-embed-text-v2:0")).
Proof.
  intros H. apply embeddings_loop_defaults in H. exact H.
Qed.

Lemma embeddings_defaults_witness :
  exists result,
    BuildRagIndexEmbeddingsCli.parseArgs (Some []) sampleArgv
    = Returned result
    /\ BuildRagIndexEmbeddingsCli.batchSize result = 5
    /\ BuildRagIndexEmbeddingsCli.region result = Some (str "us-east-1").
Proof.
  eexists. split; [vm_compute; reflexivity|].
  destruct (embeddings_defaults_kept (Some []) sampleArgv _ eq_refl)
    as (_ & Hbatch & _ & _ & _ & _ & _ & Hregion & _).
  split; [exact Hbatch|]. apply Hregion. vm_compute.
  intuition discriminate.
Defined.

(** * The scenario of the [Intro] document *)

Lemma hasInk_trimmed (s : jsstring) :
  trim s <> [] -> hasInk (trim s) = true.
Proof.
  intros N. rewrite <- nonEmpty_trim, trim_idempotent.
  destruct (trim s); [congruence | reflexivity].
Qed.

Section OneChunk.

Context {P : PathApi}.

(** A document whose cleaned body has at least 50 characters and fits
    the chunk size gives one record. *)
Lemma processFile_one_chunk (fs : FileSystem) (filePath baseDir : jsstring)
  (config : BuildRagIndex.Config) (metadata : jsobject jsstring)
  (body : jsstring) :
  BuildRagIndex.parseFrontmatter (readFile fs filePath) = (metadata, body) ->
  50 <= length (BuildRagIndex.cleanMarkdownContent body) ->
  length (BuildRagIndex.cleanMarkdownContent body)
  <= BuildRagIndex.chunkSize config ->
  exists c,
    BuildRagIndex.processFile fs filePath config baseDir = [c]
    /\ BuildRagIndex.title c
       = orElse (getProp metadata (str "title"))
           (path_basename filePath (path_extname filePath))
    /\ BuildRagIndex.content c
       = trim (join (str " ")
                 (split sentenceBoundary
                    (BuildRagIndex.cleanMarkdownContent body)))
    /\ BuildRagIndex.chunkIndex c = 0
    /\ BuildRagIndex.totalChunks c = 1.
Proof.
  intros Hparse Hmin Hmax. unfold BuildRagIndex.processFile.
  rewrite Hparse.
  set (cleaned := BuildRagIndex.cleanMarkdownContent body) in *.
  assert (G : negb (nonEmpty cleaned) || (length cleaned <? 50) = false).
  { destruct cleaned as [|x l]; [cbn [length] in Hmin; lia|].
    cbn [nonEmpty negb orb]. apply Nat.ltb_ge. exact Hmin. }
  rewrite G.
  assert (Hink : hasInk cleaned = true).
  { subst cleaned. unfold BuildRagIndex.cleanMarkdownContent, Clean.clean in *.
    apply hasInk_trimmed. intros E. rewrite E in Hmin.
    cbn [length] in Hmin. lia. }
  rewrite (fitting_chunks cleaned _ _ Hink Hmax).
  eexists. split; [reflexivity|]. repeat split.
Qed.

End OneChunk.

Lemma singleFileSite_files (body : jsstring) :
  findMarkdownFiles (P := node) (singleFileSite body) (str "./docs")
  = [str "docs/a.md"]
  /\ findMarkdownFiles (P := node) (singleFileSite body) (str "./blog") = [].
Proof. split; vm_compute; reflexivity. Qed.

Lemma introDocument_parsed (body : jsstring) :
  noLeadingSpace body = true ->
  BuildRagIndex.parseFrontmatter
    (readFile (singleFileSite body) (str "docs/a.md"))
  = ([(str "title", str "Intro")], body).
Proof.
  intros B.
  destruct (jsmatch_frontmatter []
              (str "title: " ++ [dquote] ++ str "Intro" ++ [dquote]) [] body)
    as (match0 & M & E); [reflexivity | reflexivity | reflexivity | exact B |].
  change (readFile (singleFileSite body) (str "docs/a.md"))
    with (withFrontmatter []
            (str "title: " ++ [dquote] ++ str "Intro" ++ [dquote]) [] body).
  unfold BuildRagIndex.parseFrontmatter. rewrite M, E, sliceFrom_app.
  f_equal.
Qed.

(** C3, as the specification states it, fails: the body of the scenario
    has 28 characters, fewer than the 50 a document needs; the index is
    written, and it has no chunk. *)
Lemma intro_scenario_has_no_chunk :
  exists index,
    BuildRagIndex.main (P := node) (singleFileSite shortBody)
      BuildRagIndex.DEFAULT_CONFIG timestamp
    = Wrote (str "./static/rag-index.json") index
    /\ BuildRagIndex.chunks index = []
    /\ ~ exists c,
           BuildRagIndex.chunks index = [c] /\ introRecord shortBody c.
Proof.
  eexists. split; [run|]. split; [run|].
  intros (c & H & _). vm_compute in H. discriminate H.
Qed.

(** C3, amended: with the body of the scenario, which has 28 characters,
    the index is written with no chunk.  With a body that does not begin
    with white space and whose cleaned form has at least 50 and at most
    1000 characters, the index is written with exactly one chunk: its
    title is [Intro], its content the cleaned body with every run of white
    space behind a full stop, exclamation mark or question mark replaced
    by one space, its [chunkIndex] 0 and its [totalChunks] 1. *)
Theorem intro_scenario :
  (exists index,
     BuildRagIndex.main (P := node) (singleFileSite shortBody)
       BuildRagIndex.DEFAULT_CONFIG timestamp
     = Wrote (str "./static/rag-index.json") index
     /\ BuildRagIndex.chunks index = [])
  /\ forall body now : jsstring,
       noLeadingSpace body = true ->
       50 <= length (BuildRagIndex.cleanMarkdownContent body) ->
       length (BuildRagIndex.cleanMarkdownContent body) <= 1000 ->
       exists index c,
         BuildRagIndex.main (P := node) (singleFileSite body)
           BuildRagIndex.DEFAULT_CONFIG now
         = Wrote (str "./static/rag-index.json") index
         /\ BuildRagIndex.chunks index = [c]
         /\ BuildRagIndex.title c = str "Intro"
         /\ BuildRagIndex.content c
            = trim (join (str " ")
                      (split sentenceBoundary
                         (BuildRagIndex.cleanMarkdownContent body)))
         /\ BuildRagIndex.chunkIndex c = 0
         /\ BuildRagIndex.totalChunks c = 1.
Proof.
  split.
  - eexists. split; run.
  - intros body now B Hmin Hmax.
    destruct (singleFileSite_files body) as [Hdocs Hblog].
    destruct (processFile_one_chunk (P := node) (singleFileSite body)
                (str "docs/a.md")
                (BuildRagIndex.baseDirOf (P := node)
                   BuildRagIndex.DEFAULT_CONFIG (str "docs/a.md"))
                BuildRagIndex.DEFAULT_CONFIG _ body
                (introDocument_parsed body B) Hmin Hmax)
      as (c & Hc & Htitle & Hcontent & Hindex & Htotal).
    unfold BuildRagIndex.main.
    change (BuildRagIndex.docsDir BuildRagIndex.DEFAULT_CONFIG)
      with (str "./docs").
    change (BuildRagIndex.blogDir BuildRagIndex.DEFAULT_CONFIG)
      with (str "./blog").
    rewrite Hdocs, Hblog. cbn [app length Nat.eqb flat_map].
    rewrite Hc. eexists. exists c. split; [reflexivity|].
    cbn [BuildRagIndex.chunks app]. split; [reflexivity|].
    split; [rewrite Htitle; vm_compute; reflexivity|].
    split; [exact Hcontent|]. split; [exact Hindex | exact Htotal].
Qed.

Lemma intro_scenario_witness :
  exists index c,
    BuildRagIndex.main (P := node) (singleFileSite longBody)
      BuildRagIndex.DEFAULT_CONFIG timestamp
    = Wrote (str "./static/rag-index.json") index
    /\ BuildRagIndex.chunks index = [c]
    /\ introRecord longBody c.
Proof.
  destruct (proj2 intro_scenario longBody timestamp)
    as (index & c & Hrun & Hchunks & Htitle & Hcontent & Hindex & Htotal).
  - reflexivity.
  - vm_compute. lia.
  - vm_compute. lia.
  - exists index, c. split; [exact Hrun|]. split; [exact Hchunks|].
    unfold introRecord. split; [exact Htitle|].
    split; [rewrite Hcontent; vm_compute; reflexivity|].
    split; [exact Hindex | exact Htotal].
Defined.

(** * The slug of a file *)

Lemma replaceAll_aux_map (p : ascii -> bool) (x : ascii) (aft bef : jsstring) :
  replaceAll_aux (Chr p) (lit [x]) bef 0 aft
  = map (fun c => if p c then x else c) aft.
Proof.
  revert bef; induction aft as [|c rest IH]; intros bef;
    cbn [replaceAll_aux map]; unfold matchAt; rewrite rmatch_chr;
    cbn [after before cap]; [reflexivity|].
  destruct (p c).
  - unfold consumed. cbn [after length].
    replace (S (length rest) - length rest) with 1 by lia.
    cbn [lit app]. now rewrite IH.
  - now rewrite IH.
Qed.

(** [replace(/\\/g, '/')] turns every backslash into a slash. *)
Lemma forwardSlashes_map (s : jsstring) :
  forwardSlashes s
  = map (fun c => if isChar "\" c then "/"%char else c) s.
Proof. apply replaceAll_aux_map. Qed.

Lemma extension_has_no_backslash (ext : jsstring) :
  toLowerCase ext = str "md" \/ toLowerCase ext = str "mdx" ->
  forwardSlashes ext = ext.
Proof.
  intros H. rewrite forwardSlashes_map.
  assert (F : Forall (fun c => isChar "\" c = false) ext).
  { assert (G : Forall (fun c => isChar "\" c = false) (toLowerCase ext))
      by (destruct H as [-> | ->]; vm_compute;
        repeat (apply Forall_cons; [reflexivity|]); apply Forall_nil).
    clear H. induction ext as [|c ext IH]; [constructor|].
    cbn [toLowerCase map] in G. inversion G as [|? ? Hc Hrest]; subst.
    constructor; [|now apply IH].
    unfold isChar in *. destruct (Ascii.eqb_spec "\"%char c) as [<-|];
      [discriminate Hc | reflexivity]. }
  clear H. induction F as [|c ext Hc _ IH]; [reflexivity|].
  cbn [map]. rewrite Hc. f_equal. exact IH.
Qed.

Lemma search_aux_first (r : regex) (p q bef : jsstring) (st : mstate) :
  (forall p1 c p2, p = p1 ++ c :: p2 ->
     matchAt r (rev p1 ++ bef) (c :: p2 ++ q) = None) ->
  matchAt r (rev p ++ bef) q = Some st ->
  search_aux r bef (p ++ q) = Some (length bef + length p, st).
Proof.
  revert bef; induction p as [|c p IH]; intros bef Hnone Hhere.
  - cbn [rev app length] in *. rewrite Nat.add_0_r.
    destruct q; cbn [search_aux]; now rewrite Hhere.
  - cbn [app search_aux]. pose proof (Hnone [] c p eq_refl) as H0.
    cbn [rev app] in H0. rewrite H0.
    rewrite (IH (c :: bef)).
    + cbn [length]. f_equal. f_equal. lia.
    + intros p1 c' p2 ->. specialize (Hnone (c :: p1) c' p2 eq_refl).
      cbn [rev] in Hnone. now rewrite <- app_assoc in Hnone.
    + cbn [rev] in Hhere. now rewrite <- app_assoc in Hhere.
Qed.

Lemma replaceFirst_suffix (r : regex) (p q : jsstring) (st : mstate) :
  (forall p1 c p2, p = p1 ++ c :: p2 ->
     matchAt r (rev p1) (c :: p2 ++ q) = None) ->
  matchAt r (rev p) q = Some st -> after st = [] ->
  replaceFirst r del (p ++ q) = p.
Proof.
  intros Hnone Hhere Hend. unfold replaceFirst, search.
  rewrite (search_aux_first r p q [] st).
  - cbn [length Nat.add del]. rewrite Hend, firstn_app, firstn_all,
      Nat.sub_diag. cbn [firstn app]. now rewrite !app_nil_r.
  - intros p1 c p2 E. rewrite app_nil_r. now apply Hnone.
  - now rewrite app_nil_r.
Qed.

Lemma replaceFirst_nowhere (r : regex) (s : jsstring) :
  (forall p q, s = p ++ q -> matchAt r (rev p) q = None) ->
  replaceFirst r del s = s.
Proof.
  intros H. unfold replaceFirst, search.
  assert (E : search_aux r [] s = None).
  { apply search_aux_None. intros p q Hs. rewrite app_nil_r. now apply H. }
  now rewrite E.
Qed.

Lemma markdownExt_end (bef aft : jsstring) (st : mstate) :
  matchAt markdownExt bef aft = Some st -> after st = [].
Proof.
  unfold matchAt, markdownExt.
  let s := eval vm_compute in (str "md") in change (str "md") with s.
  let s := eval vm_compute in (str "mdx") in change (str "mdx") with s.
  cbn [LitI].
  destruct aft as [|a [|b [|c [|d [|e aft]]]]];
    cbn -[toLowerChar isChar]; try discriminate;
    repeat match goal with
    | |- context [isChar ?x ?y] =>
        destruct (isChar x y); cbn -[toLowerChar isChar]; try discriminate
    end; now intros [= <-].
Qed.

Lemma extension_removed (stem ext : jsstring) :
  toLowerCase ext = str "md" \/ toLowerCase ext = str "mdx" ->
  replaceFirst markdownExt del (stem ++ "."%char :: ext) = stem.
Proof.
  intros H.
  destruct (matchAt markdownExt (rev stem) ("."%char :: ext)) as [st|] eqn:M;
    [|now apply (markdownExt_matches (rev stem)) in H].
  apply (replaceFirst_suffix markdownExt stem ("."%char :: ext) st);
    [|exact M | now apply markdownExt_end in M].
  intros p1 c p2 _.
  destruct (matchAt markdownExt (rev p1) (c :: p2 ++ "."%char :: ext))
    eqn:N; [|reflexivity].
  exfalso.
  assert (N' : matchAt markdownExt (rev p1) (c :: p2 ++ "."%char :: ext)
               <> None) by congruence.
  apply markdownExt_matched in N'. destruct N' as (ext' & E & H').
  injection E as _ E. subst ext'.
  assert (L : length (toLowerCase ext) = length ext)
    by apply length_map.
  assert (L' : length (toLowerCase (p2 ++ "."%char :: ext))
               = length p2 + S (length ext)).
  { unfold toLowerCase. now rewrite length_map, length_app. }
  destruct H' as [H'|H']; rewrite H' in L';
    [change (length (str "md")) with 2 in L'
    |change (length (str "mdx")) with 3 in L'];
    (destruct H as [H|H]; rewrite H in L;
     [change (length (str "md")) with 2 in L
     |change (length (str "mdx")) with 3 in L]); try lia.
  destruct p2 as [|x p2]; [|cbn [length] in L'; lia].
  cbn [app toLowerCase map] in H'. discriminate H'.
Qed.

Lemma indexSuffix_matched (bef aft : jsstring) :
  matchAt (Seq (Lit (str "/index")) (Eol false)) bef aft
  = if jseqb aft (str "/index")
    then Some (MState (rev (str "/index") ++ bef) [] None)
    else None.
Proof.
  unfold matchAt. rewrite rmatch_seq, rmatch_lit. cbn [after before cap].
  let s := eval vm_compute in (str "/index") in change (str "/index") with s.
  destruct aft as [|a [|b [|c [|d [|e [|f [|g aft]]]]]]];
    cbn [startsWith jseqb length skipn andb]; try reflexivity;
    repeat match goal with
    | |- context [Ascii.eqb ?x ?y] =>
        destruct (Ascii.eqb_spec x y); subst;
        cbn [andb]; try reflexivity
    end.
Qed.

Lemma endsWith_split (s w : jsstring) :
  endsWith s w = true -> exists p, s = p ++ w.
Proof.
  unfold endsWith. intros H.
  assert (G : forall a b, startsWith a b = true -> exists q, a = b ++ q).
  { intros a b. revert a. induction b as [|x b IH]; intros a Hs.
    - now exists a.
    - destruct a as [|y a]; [discriminate|]. cbn [startsWith] in Hs.
      apply andb_true_iff in Hs. destruct Hs as [E Hs].
      apply Ascii.eqb_eq in E. subst y.
      destruct (IH a Hs) as [q ->]. now exists q. }
  destruct (G _ _ H) as [q E]. exists (rev q).
  apply (f_equal (@rev ascii)) in E.
  now rewrite rev_involutive, rev_app_distr, rev_involutive in E.
Qed.

Lemma endsWith_app (p w : jsstring) : endsWith (p ++ w) w = true.
Proof. unfold endsWith. rewrite rev_app_distr. apply startsWith_app. Qed.

Lemma indexSuffix_removed (s : jsstring) :
  replaceFirst (Seq (Lit (str "/index")) (Eol false)) del s
  = if endsWith s (str "/index") then firstn (length s - 6) s else s.
Proof.
  destruct (endsWith s (str "/index")) eqn:E.
  - destruct (endsWith_split _ _ E) as [p ->].
    rewrite length_app. change (length (str "/index")) with 6.
    replace (length p + 6 - 6) with (length p) by lia.
    rewrite firstn_app, firstn_all, Nat.sub_diag. cbn [firstn].
    rewrite app_nil_r.
    apply (replaceFirst_suffix _ p (str "/index")
             (MState (rev (str "/index") ++ rev p) [] None)).
    + intros p1 c p2 _. rewrite indexSuffix_matched.
      destruct (jseqb (c :: p2 ++ str "/index") (str "/index")) eqn:J;
        [|reflexivity].
      apply jseqb_eq in J. apply (f_equal (@length ascii)) in J.
      cbn [length] in J. rewrite length_app in J. lia.
    + rewrite indexSuffix_matched. now rewrite jseqb_refl.
    + reflexivity.
  - apply replaceFirst_nowhere. intros p q ->.
    rewrite indexSuffix_matched.
    destruct (jseqb q (str "/index")) eqn:J; [|reflexivity].
    apply jseqb_eq in J. subst q. now rewrite endsWith_app in E.
Qed.

(** X23: the slug of a file whose name ends in [.md] or [.mdx] (in any
    case) is its relative path with backslashes turned into slashes and
    without the extension; when what is left ends in [/index], that is
    removed as well, so an index file has the slug of its directory, but
    a file [index.md] at the top keeps the slug [index]. *)
Theorem slug_of_markdown_file (stem ext : jsstring) :
  toLowerCase ext = str "md" \/ toLowerCase ext = str "mdx" ->
  slugOf (stem ++ "."%char :: ext)
  = if endsWith (forwardSlashes stem) (str "/index")
    then firstn (length (forwardSlashes stem) - 6) (forwardSlashes stem)
    else forwardSlashes stem.
Proof.
  intros H. unfold slugOf.
  assert (E : forwardSlashes (stem ++ "."%char :: ext)
              = forwardSlashes stem ++ "."%char :: ext).
  { rewrite <- (extension_has_no_backslash ext H) at 2.
    rewrite !forwardSlashes_map, map_app. reflexivity. }
  rewrite E, (extension_removed _ ext H). apply indexSuffix_removed.
Qed.

Lemma slug_witness :
  slugOf (str "guide\index" ++ "."%char :: str "MDX") = str "guide"
  /\ slugOf (str "index" ++ "."%char :: str "md") = str "index".
Proof.
  split.
  - rewrite slug_of_markdown_file by (right; reflexivity).
    vm_compute. reflexivity.
  - rewrite slug_of_markdown_file by (left; reflexivity).
    vm_compute. reflexivity.
Defined.
